(** * RIFT pipeline simulation: tokenizer, parser, coordinator, renderer

    A shallow embedding of the C sources of the repository:
    - [Sim]       the four-stage pipeline ([rift_sim.c] and its standalone
                  C11 twin): governance lookup, first-match tokenizer,
                  recursive-descent parser, node counting, s-expression
                  output;
    - [Staged]    the stage-bound variant: configuration sections and the
                  priority-resolving tokenizer [rift_stage0_process];
    - [Automaton] the matching function of the automaton proof of concept;
    - [CString]   the [strtok] calls of the tokenizers;
    - [Posix]     a model of the libc calls [regcomp] and [regexec], for the
                  fragment of extended regular expressions that occurs in
                  the configured patterns;
    - [Spec]      the vocabulary of the statements: lexemes, expression
                  shapes, line-by-line rendering;
    - [Shape], [Reads], [Needs]
                  further vocabulary: trees built from tokens, what the
                  parser reads of a token, characters a pattern requires;
    - [Pipeline]  the two [main] functions of the pipeline;
    - [StageGov]  the stage-bound governance system, the creation of the
                  stage-0 processor and the stage-bound [main];
    - [Escape]    the escape-sequence processor: [safe_string_replace] and
                  [process_escape_pattern];
    - [Poc]       the automaton and the IR generator of the proof of
                  concept.

    C strings are [string]; [size_t] counters are [nat] (a count of objects
    held in memory cannot wrap); the one [size_t] computation that can
    wrap, the allocation size of [safe_string_replace], is done in [Z]
    modulo [2 ^ 64]; [int] priorities are [Z]; a nullable pointer is an
    [option]. *)

From Stdlib Require Import String Ascii List ZArith Lia Bool Arith PeanoNat.
Import ListNotations.

Set Implicit Arguments.
Open Scope string_scope.

(* ================================================================== *)
(** ** The regular-expression library interface (<regex.h>) *)

(** The C code only ever calls [regcomp (&re, pattern, REG_EXTENDED)] and
    [regexec (&re, text, 0, NULL, 0)].  [regcomp] fails ([None]) on a
    malformed pattern; [regexec] answers whether a match was found. *)
Class RegexLib : Type := {
  regex_t : Type;
  regcomp : string -> option regex_t;
  regexec : regex_t -> string -> bool
}.

Module Posix.

(** Compiled expressions.  [Bracket neg rs] is a bracket expression given
    by its inclusive ranges (a single character [c] is the range [(c,c)]);
    [Bol] and [Eol] are the anchors [^] and [$]. *)
Inductive regex : Type :=
| Empty
| Chr (c : ascii)
| Any
| Bracket (negated : bool) (ranges : list (ascii * ascii))
| Bol
| Eol
| Cat (r1 r2 : regex)
| Alt (r1 r2 : regex)
| Star (r : regex).

Definition in_range (c : ascii) (r : ascii * ascii) : bool :=
  Nat.leb (nat_of_ascii (fst r)) (nat_of_ascii c) && Nat.leb (nat_of_ascii c) (nat_of_ascii (snd r)).

Definition bracket_ok (negated : bool) (ranges : list (ascii * ascii)) (c : ascii) : bool :=
  xorb negated (existsb (in_range c) ranges).

(** One-character step: the end position when the character at [i]
    satisfies [p]. *)
Definition step_char (p : ascii -> bool) (text : list ascii) (i : nat) : list nat :=
  match nth_error text i with
  | Some d => if p d then [S i] else []
  | None => []
  end.

(** Iteration for [Star]: every further round must consume at least one
    character, so [length text] rounds exhaust the text. *)
Fixpoint star_ends (step : nat -> list nat) (fuel : nat) (i : nat) : list nat :=
  i :: match fuel with
       | 0 => []
       | S k => flat_map (fun j => if Nat.ltb i j then star_ends step k j else []) (step i)
       end.

(** [ends r text i]: the positions [j] such that [r] matches the slice
    [text[i..j)]. *)
Fixpoint ends (r : regex) (text : list ascii) (i : nat) : list nat :=
  match r with
  | Empty => [i]
  | Chr c => step_char (Ascii.eqb c) text i
  | Any => step_char (fun _ => true) text i
  | Bracket neg rs => step_char (bracket_ok neg rs) text i
  | Bol => if Nat.eqb i 0 then [i] else []
  | Eol => if Nat.eqb i (length text) then [i] else []
  | Cat r1 r2 => flat_map (ends r2 text) (ends r1 text i)
  | Alt r1 r2 => ends r1 text i ++ ends r2 text i
  | Star r1 => star_ends (ends r1 text) (length text) i
  end.

Definition nonempty {A : Type} (l : list A) : bool :=
  match l with [] => false | _ :: _ => true end.

(** [regexec] searches: it reports a match as soon as the expression
    matches some slice of the text, wherever it starts. *)
Definition exec (r : regex) (text : string) : bool :=
  let t := list_ascii_of_string text in
  existsb (fun i => nonempty (ends r t i)) (seq 0 (S (length t))).

(** The expression matches the text from its first to its last character. *)
Definition whole_match (r : regex) (text : string) : bool :=
  let t := list_ascii_of_string text in
  existsb (Nat.eqb (length t)) (ends r t 0).

(** What [ends] computes, as a relation: [slice_match text r i j] holds
    when [r] matches the characters of [text] from position [i] up to, not
    including, position [j]. *)
Inductive slice_match (text : list ascii) : regex -> nat -> nat -> Prop :=
| match_empty (i : nat) : slice_match text Empty i i
| match_chr (c : ascii) (i : nat) :
    nth_error text i = Some c -> slice_match text (Chr c) i (S i)
| match_any (d : ascii) (i : nat) :
    nth_error text i = Some d -> slice_match text Any i (S i)
| match_bracket (neg : bool) (rs : list (ascii * ascii)) (d : ascii) (i : nat) :
    nth_error text i = Some d -> bracket_ok neg rs d = true ->
    slice_match text (Bracket neg rs) i (S i)
| match_bol : slice_match text Bol 0 0
| match_eol : slice_match text Eol (length text) (length text)
| match_cat (r1 r2 : regex) (i k j : nat) :
    slice_match text r1 i k -> slice_match text r2 k j -> slice_match text (Cat r1 r2) i j
| match_alt_l (r1 r2 : regex) (i j : nat) :
    slice_match text r1 i j -> slice_match text (Alt r1 r2) i j
| match_alt_r (r1 r2 : regex) (i j : nat) :
    slice_match text r2 i j -> slice_match text (Alt r1 r2) i j
| match_star_stop (r : regex) (i : nat) : slice_match text (Star r) i i
| match_star_more (r : regex) (i k j : nat) :
    slice_match text r i k -> slice_match text (Star r) k j -> slice_match text (Star r) i j.

(** *** Compilation of the pattern text *)

Definition word_ranges : list (ascii * ascii) :=
  [("a", "z"); ("A", "Z"); ("0", "9"); ("_", "_")]%char.

(** space, and horizontal tab .. carriage return (codes 9 to 13) *)
Definition space_ranges : list (ascii * ascii) :=
  [(" ", " "); ("009", "013")]%char.

Definition is_one_of (cs : string) (c : ascii) : bool :=
  existsb (Ascii.eqb c) (list_ascii_of_string cs).

(** A backslash before a special character quotes it.  [\w], [\W], [\s]
    and [\S] are the word and space classes that the C libraries read
    (the configured patterns use [\w] and [\s]); back-references and the
    word-boundary operators are outside the modelled fragment; before any
    other character the backslash is dropped. *)
Definition escape (c : ascii) : option regex :=
  if Ascii.eqb c "w" then Some (Bracket false word_ranges)
  else if Ascii.eqb c "W" then Some (Bracket true word_ranges)
  else if Ascii.eqb c "s" then Some (Bracket false space_ranges)
  else if Ascii.eqb c "S" then Some (Bracket true space_ranges)
  else if is_one_of "123456789bB<>`'" c then None
  else Some (Chr c).

(** Items of a bracket expression up to the closing bracket.  Inside
    brackets the backslash is an ordinary character; [lo-hi] is a range,
    rejected when [hi] precedes [lo] (REG_ERANGE); a closing bracket that
    comes first (after the optional [^]) is an ordinary item; a hyphen is
    an ordinary item when it comes first or just before the closing
    bracket, and is rejected elsewhere unless it is the operator or the end
    of a range (REG_ERANGE); an opening bracket, which may start a
    character class [[:alpha:]], is outside the modelled fragment. *)
Fixpoint bracket_items (first : bool) (s : list ascii) (acc : list (ascii * ascii))
  : option (list (ascii * ascii) * list ascii) :=
  match s with
  | [] => None
  | c :: rest =>
      if Ascii.eqb c "]" && negb first then Some (rev acc, rest)
      else if Ascii.eqb c "[" then None
      else
        let lone_hyphen :=
          Ascii.eqb c "-" && negb first
          && match rest with
             | next :: _ => negb (Ascii.eqb next "]")
             | [] => true
             end in
        if lone_hyphen then None
        else match rest with
             | d :: hi :: rest' =>
                 if Ascii.eqb d "-" && negb (Ascii.eqb hi "]") then
                   if Ascii.eqb hi "[" then None
                   else if Nat.leb (nat_of_ascii c) (nat_of_ascii hi)
                   then bracket_items false rest' ((c, hi) :: acc)
                   else None
                 else bracket_items false rest ((c, c) :: acc)
             | _ => bracket_items false rest ((c, c) :: acc)
             end
  end.

Definition bracket_body (neg : bool) (s : list ascii) : option (regex * list ascii) :=
  match bracket_items true s [] with
  | Some (rs, rest) => Some (Bracket neg rs, rest)
  | None => None
  end.

Definition parse_bracket (s : list ascii) : option (regex * list ascii) :=
  match s with
  | c :: rest => if Ascii.eqb c "^" then bracket_body true rest else bracket_body false s
  | [] => None
  end.

(** Postfix operators; [r+] is [r r*] and [r?] is [r|()]. *)
Fixpoint parse_dups (r : regex) (s : list ascii) : regex * list ascii :=
  match s with
  | c :: rest =>
      if Ascii.eqb c "*" then parse_dups (Star r) rest
      else if Ascii.eqb c "+" then parse_dups (Cat r (Star r)) rest
      else if Ascii.eqb c "?" then parse_dups (Alt r Empty) rest
      else (r, s)
  | [] => (r, s)
  end.

Definition cat (r1 r2 : regex) : regex :=
  match r2 with Empty => r1 | _ => Cat r1 r2 end.

(** Recursive descent over the pattern; the fuel bounds the nesting and
    is set from the pattern length by [comp].  Interval expressions
    [{m,n}] are outside the modelled fragment; a repetition operator with
    nothing to repeat, which includes one that follows an anchor, is an
    error (REG_BADRPT); so is, in this model, a closing parenthesis
    without its opening one, which the C library may take as a literal. *)
Fixpoint parse_ere (fuel : nat) (s : list ascii) : option (regex * list ascii) :=
  match fuel with
  | 0 => None
  | S k =>
      match parse_branch k s with
      | Some (r1, c :: rest) =>
          if Ascii.eqb c "|" then
            match parse_ere k rest with
            | Some (r2, rest') => Some (Alt r1 r2, rest')
            | None => None
            end
          else Some (r1, c :: rest)
      | other => other
      end
  end
with parse_branch (fuel : nat) (s : list ascii) : option (regex * list ascii) :=
  match fuel with
  | 0 => None
  | S k =>
      match s with
      | [] => Some (Empty, [])
      | c :: rest =>
          if is_one_of "|)" c then Some (Empty, s)
          else
            let atom :=
              if Ascii.eqb c "(" then
                match parse_ere k rest with
                | Some (r, d :: rest') => if Ascii.eqb d ")" then Some (r, rest') else None
                | _ => None
                end
              else if Ascii.eqb c "[" then parse_bracket rest
              else if Ascii.eqb c "." then Some (Any, rest)
              else if Ascii.eqb c "^" then Some (Bol, rest)
              else if Ascii.eqb c "$" then Some (Eol, rest)
              else if Ascii.eqb c "\" then
                match rest with
                | e :: rest' => match escape e with Some r => Some (r, rest') | None => None end
                | [] => None
                end
              else if is_one_of "*+?{" c then None
              else Some (Chr c, rest) in
            match atom with
            | Some (a, rest1) =>
                let (p, rest2) :=
                  if is_one_of "^$" c then (a, rest1) else parse_dups a rest1 in
                match parse_branch k rest2 with
                | Some (r, rest3) => Some (cat p r, rest3)
                | None => None
                end
            | None => None
            end
      end
  end.

Definition comp (pattern : string) : option regex :=
  let s := list_ascii_of_string pattern in
  match parse_ere (2 * S (length s)) s with
  | Some (r, []) => Some r
  | _ => None
  end.

(** The library instance used for concrete runs. *)
Definition lib : RegexLib :=
  {| regex_t := regex; regcomp := comp; regexec := exec |}.

(** An expression that can only start at the beginning of the text, and
    one that can only stop at its end. *)
Fixpoint starts_bol (r : regex) : bool :=
  match r with
  | Bol => true
  | Cat r1 _ => starts_bol r1
  | Alt r1 r2 => starts_bol r1 && starts_bol r2
  | _ => false
  end.

Fixpoint ends_eol (r : regex) : bool :=
  match r with
  | Eol => true
  | Cat _ r2 => ends_eol r2
  | Alt r1 r2 => ends_eol r1 && ends_eol r2
  | _ => false
  end.

End Posix.

(* ================================================================== *)
(** ** String functions of the C library used by the tokenizers *)

Module CString.

Definition is_delim (delim : string) (c : ascii) : bool :=
  existsb (Ascii.eqb c) (list_ascii_of_string delim).

(** [strtok] first skips the delimiters in front of the scan position ... *)
Fixpoint skip_delims (delim : string) (s : string) : string :=
  match s with
  | EmptyString => EmptyString
  | String c s' => if is_delim delim c then skip_delims delim s' else s
  end.

(** ... then cuts the token at the next delimiter (overwritten by NUL) and
    keeps the position after it for the next call. *)
Fixpoint span_token (delim : string) (s : string) : string * string :=
  match s with
  | EmptyString => (EmptyString, EmptyString)
  | String c s' =>
      if is_delim delim c then (EmptyString, s')
      else let (t, rest) := span_token delim s' in (String c t, rest)
  end.

(** One call: [None] is the NULL result, otherwise the token and the saved
    scan position. *)
Definition strtok (delim : string) (save : string) : option (string * string) :=
  match skip_delims delim save with
  | EmptyString => None
  | s => Some (span_token delim s)
  end.

(** The tokens returned by [strtok (s, delim)] and the following calls
    [strtok (NULL, delim)] until NULL.  Every call moves the scan position
    forward, so [fuel] calls suffice when [fuel] exceeds the length. *)
Fixpoint strtok_calls (fuel : nat) (delim : string) (save : string) : list string :=
  match fuel with
  | 0 => []
  | S k =>
      match strtok delim save with
      | None => []
      | Some (t, save') => t :: strtok_calls k delim save'
      end
  end.

Definition strtok_all (delim : string) (s : string) : list string :=
  strtok_calls (S (String.length s)) delim s.

End CString.

(* ================================================================== *)
(** ** The pipeline simulation *)

Module Sim.

(** *** Governance *)

Record rift_config_entry_t : Type := {
  entry_pattern : string;
  entry_intention : string;
  entry_sp_alignment : string
}.

(** [count] is the length of [gov_entries]. *)
Record rift_governance_t : Type := {
  gov_entries : list rift_config_entry_t;
  gov_capacity : nat
}.

Definition rift_load_governance : rift_governance_t :=
  {| gov_entries :=
       [ {| entry_pattern := "^[a-zA-Z_]\w*$";
            entry_intention := "IDENTIFIER_RECOGNITION";
            entry_sp_alignment := "STAGE_0_TOKENIZER" |};
         {| entry_pattern := "^\d+$";
            entry_intention := "NUMBER_RECOGNITION";
            entry_sp_alignment := "STAGE_0_TOKENIZER" |};
         {| entry_pattern := "^[+\-*/]$";
            entry_intention := "OPERATOR_RECOGNITION";
            entry_sp_alignment := "STAGE_0_TOKENIZER" |} ];
     gov_capacity := 10 |}.

(** The scan [for (i = 0; i < count; i++)] with its early [return]. *)
Fixpoint config_scan (es : list rift_config_entry_t) (key : string) : option string :=
  match es with
  | [] => None
  | e :: es' =>
      if String.eqb (entry_intention e) key then Some (entry_pattern e)
      else config_scan es' key
  end.

Definition rift_get_config_value (gov : rift_governance_t) (key : string) : option string :=
  config_scan (gov_entries gov) key.

(** *** RIFT-0: tokenizer *)

Inductive token_type_t : Type :=
| TOKEN_IDENTIFIER
| TOKEN_NUMBER
| TOKEN_OPERATOR
| TOKEN_WHITESPACE
| TOKEN_UNKNOWN.

Definition token_type_eqb (a b : token_type_t) : bool :=
  match a, b with
  | TOKEN_IDENTIFIER, TOKEN_IDENTIFIER
  | TOKEN_NUMBER, TOKEN_NUMBER
  | TOKEN_OPERATOR, TOKEN_OPERATOR
  | TOKEN_WHITESPACE, TOKEN_WHITESPACE
  | TOKEN_UNKNOWN, TOKEN_UNKNOWN => true
  | _, _ => false
  end.

Record rift_token_t : Type := {
  token_type : token_type_t;
  token_value : string;
  token_line : nat;
  token_column : nat
}.

(** [count] is the length of [tokens]; [stream_capacity] is the size of
    the allocated array. *)
Record token_stream_t : Type := {
  tokens : list rift_token_t;
  stream_capacity : nat
}.

Definition stream_count (s : token_stream_t) : nat := length (tokens s).

Record rift_state_t : Type := {
  state_pattern : string;
  state_type : token_type_t;
  is_final : bool;
  state_id : nat
}.

(** [state_count] is the length of [states]; the field [current_state]
    is never written nor read. *)
Record rift_tokenizer_t : Type := {
  states : list rift_state_t;
  tokenizer_governance : rift_governance_t
}.

Definition mk_state (i : nat) (pattern : string) (ty : token_type_t) : rift_state_t :=
  {| state_pattern := pattern; state_type := ty; is_final := true; state_id := i |}.

(** [strdup] of a missing configuration value is a crash in C: [None]. *)
Definition rift_tokenizer_create (gov : rift_governance_t) : option rift_tokenizer_t :=
  match rift_get_config_value gov "IDENTIFIER_RECOGNITION",
        rift_get_config_value gov "NUMBER_RECOGNITION",
        rift_get_config_value gov "OPERATOR_RECOGNITION" with
  | Some p0, Some p1, Some p2 =>
      Some {| states := [ mk_state 0 p0 TOKEN_IDENTIFIER;
                          mk_state 1 p1 TOKEN_NUMBER;
                          mk_state 2 p2 TOKEN_OPERATOR;
                          mk_state 3 "^\s+$" TOKEN_WHITESPACE ];
              tokenizer_governance := gov |}
  | _, _, _ => None
  end.

Section Tokenizer.
Context {L : RegexLib}.

Definition matches_pattern (pattern text : string) : bool :=
  match regcomp pattern with
  | None => false
  | Some re => regexec re text
  end.

(** The classification loop: the type starts as [TOKEN_UNKNOWN] and the
    first state whose pattern matches sets it and leaves the loop. *)
Fixpoint classify_states (sts : list rift_state_t) (token_str : string) : token_type_t :=
  match sts with
  | [] => TOKEN_UNKNOWN
  | st :: rest =>
      if matches_pattern (state_pattern st) token_str then state_type st
      else classify_states rest token_str
  end.

(** [strlen (token_str) > 0 && token_str[0] != ' '] *)
Definition lexeme_guard (token_str : string) : bool :=
  match token_str with
  | EmptyString => false
  | String c _ => negb (Ascii.eqb c " ")
  end.

(** The token written at [tokens[count++]]: its column is the count after
    the increment. *)
Definition new_token (tk : rift_tokenizer_t) (stream : token_stream_t) (token_str : string)
  : rift_token_t :=
  {| token_type := classify_states (states tk) token_str;
     token_value := token_str;
     token_line := 1;
     token_column := S (stream_count stream) |}.

Definition stream_append (stream : token_stream_t) (t : rift_token_t) : token_stream_t :=
  {| tokens := tokens stream ++ [t]; stream_capacity := stream_capacity stream |}.

(** Standalone variant: the array is doubled when it is full. *)
Definition stream_reserve (stream : token_stream_t) : token_stream_t :=
  if Nat.leb (stream_capacity stream) (stream_count stream)
  then {| tokens := tokens stream; stream_capacity := 2 * stream_capacity stream |}
  else stream.

(** The [while (token_str != NULL)] loop, over the successive results of
    [strtok]. *)
Fixpoint tokenize_loop (tk : rift_tokenizer_t) (strs : list string) (stream : token_stream_t)
  : token_stream_t :=
  match strs with
  | [] => stream
  | token_str :: rest =>
      let stream' :=
        if lexeme_guard token_str
        then (let s := stream_reserve stream in stream_append s (new_token tk s token_str))
        else stream in
      tokenize_loop tk rest stream'
  end.

Definition empty_stream : token_stream_t := {| tokens := []; stream_capacity := 10 |}.

(** [rift_tokenize] as the standalone file has it; the one of
    [rift_sim.c], which lacks the resize, is [rift_tokenize_fixed] below. *)
Definition rift_tokenize (tk : rift_tokenizer_t) (input : string) : token_stream_t :=
  tokenize_loop tk (CString.strtok_all " " input) empty_stream.

(** [rift_sim.c] has no resize: writing the token at index [count] when
    [count] has reached the capacity is outside the allocated array
    ([None]). *)
Fixpoint tokenize_loop_fixed (tk : rift_tokenizer_t) (strs : list string) (stream : token_stream_t)
  : option token_stream_t :=
  match strs with
  | [] => Some stream
  | token_str :: rest =>
      if lexeme_guard token_str then
        if Nat.ltb (stream_count stream) (stream_capacity stream)
        then tokenize_loop_fixed tk rest (stream_append stream (new_token tk stream token_str))
        else None
      else tokenize_loop_fixed tk rest stream
  end.

Definition rift_tokenize_fixed (tk : rift_tokenizer_t) (input : string) : option token_stream_t :=
  tokenize_loop_fixed tk (CString.strtok_all " " input) empty_stream.

End Tokenizer.

(** *** RIFT-1: parser *)

Inductive ast_node_type_t : Type :=
| AST_IDENTIFIER
| AST_NUMBER
| AST_BINARY_OP
| AST_UNARY_OP.

(** Every node this program builds carries a value (the text of a token).
    The children are nullable pointers; the induction principle over
    them is [ast_node_induction] below. *)
#[local] Unset Elimination Schemes.
Inductive ast_node_t : Type :=
  Node {
    node_type : ast_node_type_t;
    node_value : string;
    node_left : option ast_node_t;
    node_right : option ast_node_t
  }.
#[local] Set Elimination Schemes.

(** The field [input_tokens] is not initialised by [rift_parser_create];
    [rift_parse] writes it before any read. *)
Record rift_parser_t : Type := {
  input_tokens : token_stream_t;
  current_position : nat;
  parser_governance : rift_governance_t
}.

Definition rift_parser_create (gov : rift_governance_t) : rift_parser_t :=
  {| input_tokens := {| tokens := []; stream_capacity := 0 |};
     current_position := 0;
     parser_governance := gov |}.

Definition create_ast_node (ty : ast_node_type_t) (value : string) : ast_node_t :=
  {| node_type := ty; node_value := value; node_left := None; node_right := None |}.

(** The parsing functions read and move the cursor of the parser they are
    given: computations over the parser state. *)
Definition Parse (A : Type) : Type := rift_parser_t -> A * rift_parser_t.

Definition ret {A : Type} (a : A) : Parse A := fun p => (a, p).

Definition bind {A B : Type} (m : Parse A) (k : A -> Parse B) : Parse B :=
  fun p => let (a, p') := m p in k a p'.

Notation "x <- m ;; k" := (bind m (fun x => k))
  (at level 61, m at next level, right associativity).
Notation "m ;;; k" := (bind m (fun _ => k))
  (at level 61, right associativity).

Definition current_token : Parse (option rift_token_t) :=
  fun p => (nth_error (tokens (input_tokens p)) (current_position p), p).

Definition advance_token : Parse unit :=
  fun p =>
    (tt,
     if Nat.ltb (current_position p) (stream_count (input_tokens p))
     then {| input_tokens := input_tokens p;
             current_position := S (current_position p);
             parser_governance := parser_governance p |}
     else p).

(** Tokens left at or after the cursor. *)
Definition remaining (p : rift_parser_t) : nat :=
  stream_count (input_tokens p) - current_position p.

Definition parse_factor : Parse (option ast_node_t) :=
  tok <- current_token ;;
  match tok with
  | None => ret None
  | Some token =>
      match token_type token with
      | TOKEN_IDENTIFIER =>
          advance_token ;;; ret (Some (create_ast_node AST_IDENTIFIER (token_value token)))
      | TOKEN_NUMBER =>
          advance_token ;;; ret (Some (create_ast_node AST_NUMBER (token_value token)))
      | _ => ret None
      end
  end.

(** The loop conditions: an operator token whose text is [a] or [b]. *)
Definition operator_among (a b : string) (tok : option rift_token_t) : bool :=
  match tok with
  | None => false
  | Some t =>
      token_type_eqb (token_type t) TOKEN_OPERATOR
      && (String.eqb (token_value t) a || String.eqb (token_value t) b)
  end.

Definition binary_op (op : string) (l r : option ast_node_t) : ast_node_t :=
  {| node_type := AST_BINARY_OP; node_value := op; node_left := l; node_right := r |}.

Definition op_text (tok : option rift_token_t) : string :=
  match tok with Some t => token_value t | None => EmptyString end.

(** [while] loop of [parse_term].  Each round consumes the operator token,
    so the loop runs at most once per remaining token: [fuel] is set to
    that number at the loop entry. *)
Fixpoint parse_term_loop (fuel : nat) (left : option ast_node_t) : Parse (option ast_node_t) :=
  match fuel with
  | 0 => ret left
  | S k =>
      tok <- current_token ;;
      if operator_among "*" "/" tok then
        advance_token ;;;
        right <- parse_factor ;;
        parse_term_loop k (Some (binary_op (op_text tok) left right))
      else ret left
  end.

Definition parse_term : Parse (option ast_node_t) :=
  left <- parse_factor ;;
  fun p => parse_term_loop (remaining p) left p.

Fixpoint parse_expression_loop (fuel : nat) (left : option ast_node_t)
  : Parse (option ast_node_t) :=
  match fuel with
  | 0 => ret left
  | S k =>
      tok <- current_token ;;
      if operator_among "+" "-" tok then
        advance_token ;;;
        right <- parse_term ;;
        parse_expression_loop k (Some (binary_op (op_text tok) left right))
      else ret left
  end.

Definition parse_expression : Parse (option ast_node_t) :=
  left <- parse_term ;;
  fun p => parse_expression_loop (remaining p) left p.

Definition rift_parse (parser : rift_parser_t) (toks : token_stream_t)
  : option ast_node_t * rift_parser_t :=
  parse_expression {| input_tokens := toks;
                      current_position := 0;
                      parser_governance := parser_governance parser |}.

(** *** RIFT-2: coordinator *)

Record rift_ast_coordinator_t : Type := {
  coord_root : option ast_node_t;
  coord_governance : rift_governance_t;
  node_count : nat;
  optimization_passes : nat
}.

(** [root] is not initialised by the constructor. *)
Definition rift_ast_coordinator_create (gov : rift_governance_t) : rift_ast_coordinator_t :=
  {| coord_root := None; coord_governance := gov; node_count := 0; optimization_passes := 1 |}.

Fixpoint count_nodes (n : ast_node_t) : nat :=
  match n with
  | Node _ _ l r =>
      1 + match l with Some l' => count_nodes l' | None => 0 end
        + match r with Some r' => count_nodes r' | None => 0 end
  end.

Definition count_ast_nodes (node : option ast_node_t) : nat :=
  match node with
  | None => 0
  | Some n => count_nodes n
  end.

(** The coordinator after the call, and the returned pointer. *)
Definition rift_coordinate_ast (coordinator : rift_ast_coordinator_t) (ast : option ast_node_t)
  : rift_ast_coordinator_t * option ast_node_t :=
  ({| coord_root := ast;
      coord_governance := coord_governance coordinator;
      node_count := count_ast_nodes ast;
      optimization_passes := optimization_passes coordinator |},
   ast).

(** *** RIFT-3: output *)

Definition nl : string := String "010" EmptyString.

(** [for (i = 0; i < indent; i++) printf ("  ")]; [indent] starts at 1 and
    grows by one per level of the tree. *)
Fixpoint print_indent (indent : nat) : string :=
  match indent with
  | 0 => EmptyString
  | S k => "  " ++ print_indent k
  end.

(** The text written to the standard output. *)
Fixpoint print_node (node : ast_node_t) (indent : nat) : string :=
  match node with
  | Node ty value l r =>
      print_indent indent ++
      match ty with
      | AST_IDENTIFIER => "(Identifier " ++ value ++ ")" ++ nl
      | AST_NUMBER => "(Number " ++ value ++ ")" ++ nl
      | AST_BINARY_OP =>
          "(BinOp " ++ value ++ nl
          ++ match l with Some l' => print_node l' (S indent) | None => EmptyString end
          ++ match r with Some r' => print_node r' (S indent) | None => EmptyString end
          ++ print_indent indent ++ ")" ++ nl
      | AST_UNARY_OP => "(Unknown)" ++ nl
      end
  end.

Definition print_ast_recursive (node : option ast_node_t) (indent : nat) : string :=
  match node with
  | None => EmptyString
  | Some n => print_node n indent
  end.

(** The rendering proper: the three narration lines printed before it
    (stage banner, output format, caption) are console narration and are
    left out. *)
Definition rift_generate_output (ast : option ast_node_t) : string :=
  "(AST" ++ nl ++ print_ast_recursive ast 1 ++ ")" ++ nl.

End Sim.

(* ================================================================== *)
(** ** The stage-bound variant *)

Module Staged.

Import Sim.

(** *** Configuration sections *)

Record config_pair_t : Type := {
  pair_key : string;
  pair_value : string
}.

(** [count] is the length of [pairs]. *)
Record config_section_t : Type := {
  pairs : list config_pair_t;
  section_capacity : nat
}.

Definition config_section_create : config_section_t :=
  {| pairs := []; section_capacity := 10 |}.

(** The new pair is written at index [count], after doubling the array
    when it is full.  (The NULL guards and the failure of [realloc] do not
    arise for the values of this model: the result is [true].) *)
Definition config_section_add (section : config_section_t) (key value : string)
  : bool * config_section_t :=
  (true,
   {| pairs := pairs section ++ [ {| pair_key := key; pair_value := value |} ];
      section_capacity :=
        if Nat.leb (section_capacity section) (length (pairs section))
        then 2 * section_capacity section
        else section_capacity section |}).

Fixpoint pair_scan (ps : list config_pair_t) (key : string) : option string :=
  match ps with
  | [] => None
  | p :: ps' =>
      if String.eqb (pair_key p) key then Some (pair_value p)
      else pair_scan ps' key
  end.

Definition config_section_get (section : config_section_t) (key : string) : option string :=
  pair_scan (pairs section) key.

(** The [TOKEN_PATTERNS] section that [load_stage_config] builds for
    stage 0. *)
Definition token_patterns_section : config_section_t :=
  fold_left (fun sec kv => snd (config_section_add sec (fst kv) (snd kv)))
    [ ("IDENTIFIER_PATTERN", "^[a-zA-Z_]\\w*$");
      ("IDENTIFIER_PRIORITY", "100");
      ("NUMBER_PATTERN", "^\\d+(\\.\\d+)?$");
      ("NUMBER_PRIORITY", "90");
      ("OPERATOR_PATTERN", "^[+\\-*/=<>!&|]$");
      ("OPERATOR_PRIORITY", "80");
      ("WHITESPACE_PATTERN", "^\\s+$");
      ("WHITESPACE_PRIORITY", "10") ]
    config_section_create.

(** *** RIFT-0: stage-bound tokenizer *)

Record rift_token_t : Type := {
  token_type : token_type_t;
  token_value : string;
  token_line : nat;
  token_column : nat;
  token_priority : Z
}.

Record token_stream_t : Type := {
  tokens : list rift_token_t;
  stream_capacity : nat
}.

(** The two arrays that [rift_stage0_create] fills from the
    [TOKEN_PATTERNS] section, the priorities through [atoi];
    [pattern_count] is their length. *)
Record rift_stage0_processor_t : Type := {
  token_patterns : list string;
  token_priorities : list Z
}.


Section Tokenizer.
Context {L : RegexLib}.

Definition pattern_matches (pattern text : string) : bool :=
  match regcomp pattern with
  | None => false
  | Some re => regexec re text
  end.

(** The classification state: the token's type and priority, and the
    local [highest_priority]. *)
Record classification : Type := {
  cls_type : token_type_t;
  cls_priority : Z;
  cls_highest : Z
}.

(** [switch (i)]: the kind is fixed by the position of the pattern; an
    index with no case leaves the type as it is. *)
Definition kind_of_index (i : nat) : option token_type_t :=
  match i with
  | 0 => Some TOKEN_IDENTIFIER
  | 1 => Some TOKEN_NUMBER
  | 2 => Some TOKEN_OPERATOR
  | 3 => Some TOKEN_WHITESPACE
  | _ => None
  end.

Definition classify_step (i : nat) (rule : string * Z) (text : string) (st : classification)
  : classification :=
  if pattern_matches (fst rule) text then
    if Z.ltb (cls_highest st) (snd rule) then
      {| cls_type := match kind_of_index i with Some k => k | None => cls_type st end;
         cls_priority := snd rule;
         cls_highest := snd rule |}
    else st
  else st.

(** The loop [for (i = 0; i < pattern_count; i++)] over [token_patterns[i]]
    and [token_priorities[i]], from index [i] on. *)
Fixpoint classify_from (i : nat) (rules : list (string * Z)) (text : string)
  (st : classification) : classification :=
  match rules with
  | [] => st
  | rule :: rest => classify_from (S i) rest text (classify_step i rule text st)
  end.

Definition stage0_rules (processor : rift_stage0_processor_t) : list (string * Z) :=
  combine (token_patterns processor) (token_priorities processor).

Definition classify (processor : rift_stage0_processor_t) (text : string) : classification :=
  classify_from 0 (stage0_rules processor) text
    {| cls_type := TOKEN_UNKNOWN; cls_priority := 0%Z; cls_highest := (-1)%Z |}.

Definition new_token (processor : rift_stage0_processor_t) (stream : token_stream_t)
  (token_str : string) : rift_token_t :=
  let c := classify processor token_str in
  {| token_type := cls_type c;
     token_value := token_str;
     token_line := 1;
     token_column := S (length (tokens stream));
     token_priority := cls_priority c |}.

Fixpoint process_loop (processor : rift_stage0_processor_t) (strs : list string)
  (stream : token_stream_t) : token_stream_t :=
  match strs with
  | [] => stream
  | token_str :: rest =>
      let stream' :=
        if lexeme_guard token_str then
          let cap := if Nat.leb (stream_capacity stream) (length (tokens stream))
                     then 2 * stream_capacity stream else stream_capacity stream in
          {| tokens := tokens stream ++ [new_token processor stream token_str];
             stream_capacity := cap |}
        else stream in
      process_loop processor rest stream'
  end.

Definition rift_stage0_process (processor : rift_stage0_processor_t) (input : string)
  : token_stream_t :=
  process_loop processor (CString.strtok_all " " input)
    {| tokens := []; stream_capacity := 10 |}.

End Tokenizer.

End Staged.

(* ================================================================== *)
(** ** The automaton proof of concept ([rift_poc.c]) *)

Module Automaton.

Record State : Type := {
  pattern : string;
  is_final : bool;
  id : nat
}.

Section Matching.
Context {L : RegexLib}.

(** Both arguments are pointers that the function tests for NULL. *)
Definition state_matches (state : option State) (text : option string) : bool :=
  match state, text with
  | Some st, Some t =>
      match regcomp (pattern st) with
      | None => false
      | Some re => regexec re t
      end
  | _, _ => false
  end.

End Matching.

End Automaton.

(* ================================================================== *)
(** ** Vocabulary of the statements *)

Module Spec.

Import Sim.

(** *** Lexemes *)

(** The fields of a text cut at every separator character, empty fields
    included. *)
Fixpoint fields (sep : ascii -> bool) (s : string) : list string :=
  match s with
  | EmptyString => [EmptyString]
  | String c s' =>
      if sep c then EmptyString :: fields sep s'
      else match fields sep s' with
           | f :: fs => String c f :: fs
           | [] => [String c EmptyString]
           end
  end.

Definition nonempty_string (s : string) : bool :=
  match s with EmptyString => false | String _ _ => true end.

(** The lexemes: the non-empty fields, that is the maximal runs of
    characters that are not separators. *)
Definition lexemes (sep : ascii -> bool) (s : string) : list string :=
  filter nonempty_string (fields sep s).

Definition is_space (c : ascii) : bool := Ascii.eqb c " ".

(** The whitespace characters of the C locale: space and the codes 9
    (horizontal tab) to 13 (carriage return). *)
Definition isspace (c : ascii) : bool :=
  Ascii.eqb c " " || (Nat.leb 9 (nat_of_ascii c) && Nat.leb (nat_of_ascii c) 13).

(** The tokens for the lexemes [strs], numbered from [base + 1]. *)
Fixpoint tokens_for {L : RegexLib} (tk : rift_tokenizer_t) (base : nat) (strs : list string)
  : list rift_token_t :=
  match strs with
  | [] => []
  | v :: rest =>
      {| token_type := classify_states (states tk) v;
         token_value := v;
         token_line := 1;
         token_column := S base |} :: tokens_for tk (S base) rest
  end.




(** The tokenizer that [rift_tokenizer_create] builds from the loaded
    governance. *)
Definition default_tokenizer : rift_tokenizer_t :=
  {| states := [ mk_state 0 "^[a-zA-Z_]\w*$" TOKEN_IDENTIFIER;
                 mk_state 1 "^\d+$" TOKEN_NUMBER;
                 mk_state 2 "^[+\-*/]$" TOKEN_OPERATOR;
                 mk_state 3 "^\s+$" TOKEN_WHITESPACE ];
     tokenizer_governance := rift_load_governance |}.

(** The patterns that the repository configures: those of the states of
    the tokenizer built from the loaded governance, which are also the four
    that the automaton proof of concept registers, and those that the
    [TOKEN_PATTERNS] section of the stage-0 configuration holds. *)
Definition configured_patterns : list string :=
  map state_pattern (states default_tokenizer)
  ++ flat_map
       (fun key =>
          match Staged.config_section_get Staged.token_patterns_section key with
          | Some pattern => [pattern]
          | None => []
          end)
       ["IDENTIFIER_PATTERN"; "NUMBER_PATTERN"; "OPERATOR_PATTERN"; "WHITESPACE_PATTERN"].


(** *** Token streams and trees *)

Definition token (ty : token_type_t) (value : string) (column : nat) : rift_token_t :=
  {| token_type := ty; token_value := value; token_line := 1; token_column := column |}.

Definition stream_of (toks : list rift_token_t) (capacity : nat) : token_stream_t :=
  {| tokens := toks; stream_capacity := capacity |}.

(** A parser positioned at index [n] of the tokens [ts]. *)
Definition cursor (gov : rift_governance_t) (capacity : nat) (ts : list rift_token_t) (n : nat)
  : rift_parser_t :=
  {| input_tokens := stream_of ts capacity; current_position := n; parser_governance := gov |}.

Definition is_atom (t : rift_token_t) : bool :=
  match token_type t with
  | TOKEN_IDENTIFIER | TOKEN_NUMBER => true
  | _ => false
  end.

(** The leaf built from an identifier or number token. *)
Definition leaf (t : rift_token_t) : ast_node_t :=
  create_ast_node
    (match token_type t with TOKEN_NUMBER => AST_NUMBER | _ => AST_IDENTIFIER end)
    (token_value t).

Definition is_operator (a b : string) (t : rift_token_t) : bool :=
  operator_among a b (Some t).

(** Operator and operand pairs laid out as a token sequence. *)
Fixpoint flatten (ops : list (rift_token_t * rift_token_t)) : list rift_token_t :=
  match ops with
  | [] => []
  | (o, t) :: rest => o :: t :: flatten rest
  end.

(** Folding to the left: every operator application takes the tree built
    so far as its left child. *)
Definition fold_ops (ops : list (rift_token_t * rift_token_t)) (first : ast_node_t)
  : ast_node_t :=
  fold_left (fun acc ot => binary_op (token_value (fst ot)) (Some acc) (Some (leaf (snd ot))))
            ops first.

(** A run of applications at one precedence level: every operator is an
    Operator token whose text is [a] or [b], every operand an atom. *)
Definition level_ok (a b : string) (ops : list (rift_token_t * rift_token_t)) : Prop :=
  Forall (fun ot => is_operator a b (fst ot) = true /\ is_atom (snd ot) = true) ops.

(** A term: a first factor and a run of [*] and [/] applications of
    factors.  Its tree is the left fold of the run. *)
Definition term_shape : Type := (rift_token_t * list (rift_token_t * rift_token_t))%type.

Definition term_tokens (t : term_shape) : list rift_token_t := fst t :: flatten (snd t).

Definition term_tree (t : term_shape) : ast_node_t := fold_ops (snd t) (leaf (fst t)).

Definition term_ok (t : term_shape) : Prop :=
  is_atom (fst t) = true /\ level_ok "*" "/" (snd t).

(** An expression: a first term and a run of [+] and [-] applications of
    terms.  Its tree is the left fold of that run. *)
Fixpoint sum_tokens (rest : list (rift_token_t * term_shape)) : list rift_token_t :=
  match rest with
  | [] => []
  | (o, t) :: rest' => o :: term_tokens t ++ sum_tokens rest'
  end.

Definition expression_tokens (first : term_shape) (rest : list (rift_token_t * term_shape))
  : list rift_token_t :=
  term_tokens first ++ sum_tokens rest.

Definition fold_terms (rest : list (rift_token_t * term_shape)) (first : ast_node_t)
  : ast_node_t :=
  fold_left (fun acc ot =>
               binary_op (token_value (fst ot)) (Some acc) (Some (term_tree (snd ot))))
            rest first.

Definition expression_tree (first : term_shape) (rest : list (rift_token_t * term_shape))
  : ast_node_t :=
  fold_terms rest (term_tree first).

Definition sum_ok (rest : list (rift_token_t * term_shape)) : Prop :=
  Forall (fun ot => is_operator "+" "-" (fst ot) = true /\ term_ok (snd ot)) rest.

Definition ident (v : string) : ast_node_t := create_ast_node AST_IDENTIFIER v.
Definition number (v : string) : ast_node_t := create_ast_node AST_NUMBER v.
Definition binop (op : string) (l r : ast_node_t) : ast_node_t :=
  binary_op op (Some l) (Some r).

(** *** Rendering, line by line *)

Definition indent_line (line : string) : string := ("  " ++ line)%string.

(** The lines of a node at indentation 0: a leaf is one line; an operator
    is its opening line, the lines of its children one level deeper and its
    closing parenthesis. *)
Fixpoint node_lines (node : ast_node_t) : list string :=
  match node with
  | Node ty value l r =>
      match ty with
      | AST_IDENTIFIER => ["(Identifier " ++ value ++ ")"]%string
      | AST_NUMBER => ["(Number " ++ value ++ ")"]%string
      | AST_BINARY_OP =>
          ["(BinOp " ++ value]%string
          ++ map indent_line
               (match l with Some l' => node_lines l' | None => [] end
                ++ match r with Some r' => node_lines r' | None => [] end)
          ++ [")"]
      | AST_UNARY_OP => ["(Unknown)"]
      end
  end.

Definition tree_lines (ast : option ast_node_t) : list string :=
  match ast with
  | None => []
  | Some n => node_lines n
  end.

(** Every line followed by a newline. *)
Fixpoint unlines (ls : list string) : string :=
  match ls with
  | [] => EmptyString
  | l :: rest => (l ++ nl ++ unlines rest)%string
  end.

Definition render (ast : option ast_node_t) : string :=
  unlines (["(AST"] ++ map indent_line (tree_lines ast) ++ [")"]).

End Spec.

(* ================================================================== *)
(** ** Shapes of trees and parser runs *)

Module Shape.

Import Sim.

Definition operator_texts : list string := ["+"; "-"; "*"; "/"]%list.

(** A tree whose nodes all come from tokens of [ts]: a leaf is an
    Identifier or Number node without children carrying the text of a token
    of that kind; an inner node is a BinaryOp carrying the text of an
    Operator token, one of the four operator texts. *)
Fixpoint built_from (ts : list rift_token_t) (node : ast_node_t) : Prop :=
  match node with
  | Node ty value l r =>
      match ty with
      | AST_IDENTIFIER =>
          l = None /\ r = None
          /\ exists t, In t ts /\ token_type t = TOKEN_IDENTIFIER /\ token_value t = value
      | AST_NUMBER =>
          l = None /\ r = None
          /\ exists t, In t ts /\ token_type t = TOKEN_NUMBER /\ token_value t = value
      | AST_BINARY_OP =>
          (exists t, In t ts /\ token_type t = TOKEN_OPERATOR /\ token_value t = value)
          /\ In value operator_texts
          /\ match l with Some l' => built_from ts l' | None => True end
          /\ match r with Some r' => built_from ts r' | None => True end
      | AST_UNARY_OP => False
      end
  end.

Definition built_from_opt (ts : list rift_token_t) (ast : option ast_node_t) : Prop :=
  match ast with
  | Some node => built_from ts node
  | None => True
  end.

(** What one parsing function does to the parser [p] when it starts from
    the tree [left] and ends with the result [res]: the stream and the
    governance are kept, the cursor has moved forward by the number of
    nodes added, stays within the stream, and the result is built from the
    tokens when [left] is. *)
Definition parse_step (left : option ast_node_t) (p : rift_parser_t)
  (res : option ast_node_t * rift_parser_t) : Prop :=
  input_tokens (snd res) = input_tokens p
  /\ parser_governance (snd res) = parser_governance p
  /\ current_position (snd res) + count_ast_nodes left
     = current_position p + count_ast_nodes (fst res)
  /\ (current_position p <= stream_count (input_tokens p) ->
      current_position (snd res) <= stream_count (input_tokens p))
  /\ (built_from_opt (tokens (input_tokens p)) left ->
      built_from_opt (tokens (input_tokens p)) (fst res))
  /\ (left <> None -> fst res <> None).

(** The first token can start a tree: an atom, or an operator that a loop
    accepts with an absent left operand. *)
Definition starts_tree (t : rift_token_t) : bool :=
  Spec.is_atom t || operator_among "+" "-" (Some t) || operator_among "*" "/" (Some t).

End Shape.

(* ================================================================== *)
(** ** The two [main] functions of the pipeline *)

Module Pipeline.

Import Sim.

(** What a run leaves behind: the exit status, the node count recorded by
    the coordinator and the rendering written by the output stage (0 and
    empty when the run stops before these stages). *)
Record run_t : Type := {
  exit_status : Z;
  coordinated_nodes : nat;
  rendering : string
}.

Section Main.
Context {L : RegexLib}.

(** [main] of the standalone file, its constant [source_input] turned
    into a parameter.  Every stage result is tested for NULL; only the
    test on the tree can fail here, the others guard allocations.  [None]
    is the crash inside [rift_tokenizer_create]. *)
Definition main_on (source_input : string) : option run_t :=
  let governance := rift_load_governance in
  match rift_tokenizer_create governance with
  | None => None
  | Some tokenizer =>
      let tokens := rift_tokenize tokenizer source_input in
      let parser := rift_parser_create governance in
      match fst (rift_parse parser tokens) with
      | None => Some {| exit_status := 1; coordinated_nodes := 0; rendering := EmptyString |}
      | Some ast =>
          let coordinator := rift_ast_coordinator_create governance in
          let (coordinator', coordinated_ast) := rift_coordinate_ast coordinator (Some ast) in
          Some {| exit_status := 0;
                  coordinated_nodes := node_count coordinator';
                  rendering := rift_generate_output coordinated_ast |}
      end
  end.

Definition main : option run_t := main_on "x + 2 * y".

(** [main] of [rift_sim.c]: no result is tested, and the tokenizer is the
    one without resize.  [None] is a crash or a write outside the token
    array. *)
Definition main_unchecked_on (source_input : string) : option run_t :=
  let governance := rift_load_governance in
  match rift_tokenizer_create governance with
  | None => None
  | Some tokenizer =>
      match rift_tokenize_fixed tokenizer source_input with
      | None => None
      | Some tokens =>
          let parser := rift_parser_create governance in
          let ast := fst (rift_parse parser tokens) in
          let coordinator := rift_ast_coordinator_create governance in
          let (coordinator', coordinated_ast) := rift_coordinate_ast coordinator ast in
          Some {| exit_status := 0;
                  coordinated_nodes := node_count coordinator';
                  rendering := rift_generate_output coordinated_ast |}
      end
  end.

Definition main_unchecked : option run_t := main_unchecked_on "x + 2 * y".

End Main.

(** The array of a stream that holds [count] tokens has the least capacity
    of the form [10 * 2 ^ k] that holds them. *)
Definition least_capacity (count capacity : nat) : Prop :=
  exists k, capacity = 10 * 2 ^ k
            /\ count <= capacity
            /\ (k = 0 \/ capacity < 2 * count).

End Pipeline.

(* ================================================================== *)
(** ** The stage-bound governance system *)

Module StageGov.

Import Sim Staged.

(** A section filled by successive calls of [config_section_add]. *)
Definition section_of (kvs : list (string * string)) : config_section_t :=
  fold_left (fun sec kv => snd (config_section_add sec (fst kv) (snd kv)))
    kvs config_section_create.

(** [sections[i]] and [section_names[i]] side by side; [section_count] is
    the length of the list. *)
Record stage_config_t : Type := {
  stage_id : Z;
  stage_name : string;
  sp_alignment : string;
  governance_version : string;
  sections : list (string * config_section_t)
}.

(** The [switch] has no default: for another [stage_id] the strings that
    the following [printf] reads stay uninitialised ([None]). *)
Definition load_stage_config (id : Z) : option stage_config_t :=
  match id with
  | 0%Z =>
      Some {| stage_id := id;
              stage_name := "TOKENIZER";
              sp_alignment := "LEXICAL_ANALYSIS";
              governance_version := "1.0.0";
              sections :=
                [ ("TOKEN_PATTERNS", token_patterns_section);
                  ("DFA_CONFIGURATION",
                   section_of [ ("initial_state", "START");
                                ("final_states", "IDENTIFIER,NUMBER,OPERATOR");
                                ("error_recovery", "true") ]) ] |}
  | 1%Z =>
      Some {| stage_id := id;
              stage_name := "PARSER_BRIDGE";
              sp_alignment := "SYNTACTIC_ANALYSIS";
              governance_version := "1.0.0";
              sections :=
                [ ("GRAMMAR_RULES",
                   section_of
                     [ ("EXPRESSION_RULE", "expression -> term ((PLUS | MINUS) term)*");
                       ("TERM_RULE", "term -> factor ((MULTIPLY | DIVIDE) factor)*");
                       ("FACTOR_RULE",
                        "factor -> IDENTIFIER | NUMBER | LPAREN expression RPAREN") ]);
                  ("PRECEDENCE_TABLE",
                   section_of [ ("MULTIPLY_PRECEDENCE", "20");
                                ("DIVIDE_PRECEDENCE", "20");
                                ("PLUS_PRECEDENCE", "10");
                                ("MINUS_PRECEDENCE", "10") ]) ] |}
  | 2%Z =>
      Some {| stage_id := id;
              stage_name := "AST_COORDINATOR";
              sp_alignment := "SEMANTIC_ANALYSIS";
              governance_version := "1.0.0";
              sections :=
                [ ("OPTIMIZATION_PASSES",
                   section_of [ ("constant_folding", "enabled");
                                ("dead_code_elimination", "enabled");
                                ("common_subexpression_elimination", "disabled") ]) ] |}
  | 3%Z =>
      Some {| stage_id := id;
              stage_name := "OUTPUT_GENERATOR";
              sp_alignment := "CODE_GENERATION";
              governance_version := "1.0.0";
              sections :=
                [ ("OUTPUT_FORMATS",
                   section_of [ ("primary_format", "LISP_STYLE_AST");
                                ("secondary_format", "C_CODE");
                                ("debug_format", "DOT_GRAPH");
                                ("json_export", "enabled") ]) ] |}
  | _ => None
  end.

(** The two arrays of four cells, one per stage. *)
Record rift_governance_system_t : Type := {
  stage_configs : list (option stage_config_t);
  global_config : config_section_t;
  stage_loaded : list bool
}.

Definition governance_system_create : rift_governance_system_t :=
  {| stage_configs := [None; None; None; None];
     global_config := config_section_create;
     stage_loaded := [false; false; false; false] |}.

(** [a[i] = x] for [i] within the array. *)
Fixpoint array_set {A : Type} (a : list A) (i : nat) (x : A) : list A :=
  match a, i with
  | [], _ => []
  | _ :: rest, 0 => x :: rest
  | y :: rest, S k => y :: array_set rest k x
  end.

(** The result and the system after the call.  [load_stage_config] is only
    reached with a stage number from 0 to 3, for which it returns a
    configuration. *)
Definition governance_load_stage (system : rift_governance_system_t) (id : Z)
  : bool * rift_governance_system_t :=
  if Z.ltb id 0 || Z.ltb 3 id then (false, system)
  else if nth (Z.to_nat id) (stage_loaded system) false then (true, system)
  else
    match load_stage_config id with
    | None => (false, system)
    | Some config =>
        (true,
         {| stage_configs := array_set (stage_configs system) (Z.to_nat id) (Some config);
            global_config := global_config system;
            stage_loaded := array_set (stage_loaded system) (Z.to_nat id) true |})
    end.

(** The system after the calls [governance_load_stage (system, id)] for
    the [ids] in turn. *)
Definition load_stages (ids : list Z) (system : rift_governance_system_t)
  : rift_governance_system_t :=
  fold_left (fun s id => snd (governance_load_stage s id)) ids system.

(** The scan of the section names with its [break]. *)
Fixpoint find_section (name : string) (secs : list (string * config_section_t))
  : option config_section_t :=
  match secs with
  | [] => None
  | (n, sec) :: rest => if String.eqb n name then Some sec else find_section name rest
  end.

(** *** [atoi] *)

Definition digit_value (c : ascii) : option Z :=
  let n := nat_of_ascii c in
  if Nat.leb 48 n && Nat.leb n 57 then Some (Z.of_nat (n - 48)) else None.

Fixpoint atoi_digits (acc : Z) (s : string) : Z :=
  match s with
  | EmptyString => acc
  | String c s' =>
      match digit_value c with
      | Some d => atoi_digits (10 * acc + d) s'
      | None => acc
      end
  end.

Fixpoint skip_spaces (s : string) : string :=
  match s with
  | EmptyString => EmptyString
  | String c s' => if Spec.isspace c then skip_spaces s' else s
  end.

(** The conversions of a value to [long] (64 bits), which [strtol] keeps
    within range, and from there to [int] (32 bits), which drops the high
    bits. *)
Definition to_long (z : Z) : Z := Z.max (- 2 ^ 63) (Z.min (2 ^ 63 - 1) z).

Definition to_int (z : Z) : Z := ((z + 2 ^ 31) mod 2 ^ 32 - 2 ^ 31)%Z.

(** Leading whitespace, an optional sign, then the decimal digits up to
    the first other character, read as [strtol] reads them and converted
    to [int].  (A value outside the range of [int] is undefined in ISO C;
    the conversions are those of the GNU C library.) *)
Definition atoi (s : string) : Z :=
  to_int
    (to_long
       match skip_spaces s with
       | EmptyString => 0%Z
       | String c s' =>
           if Ascii.eqb c "-" then (- atoi_digits 0 s')%Z
           else if Ascii.eqb c "+" then atoi_digits 0 s'
           else atoi_digits 0 (String c s')
       end).

(** *** Creating the stage-0 processor *)

(** What a call leaves: a returned value, or a read through NULL or of
    memory that was never written. *)
Inductive outcome (A : Type) : Type :=
| Returned (a : A)
| Undefined.
Arguments Undefined {A}.

(** The processor reads its four patterns and priorities from the section
    named [TOKEN_PATTERNS] of the stage-0 configuration.  A key that the
    section lacks gives NULL to [strdup] or [atoi]; without the section the
    processor is returned with its arrays and their count unwritten. *)
Definition rift_stage0_create (governance : rift_governance_system_t)
  : outcome (option rift_stage0_processor_t) * rift_governance_system_t :=
  let (loaded, governance') := governance_load_stage governance 0 in
  if negb loaded then (Returned None, governance')
  else
    match nth 0 (stage_configs governance') None with
    | None => (Undefined, governance')
    | Some stage_config =>
        match find_section "TOKEN_PATTERNS" (sections stage_config) with
        | None => (Undefined, governance')
        | Some patterns =>
            let get := config_section_get patterns in
            match get "IDENTIFIER_PATTERN", get "IDENTIFIER_PRIORITY" with
            | Some p0, Some q0 =>
                match get "NUMBER_PATTERN", get "NUMBER_PRIORITY" with
                | Some p1, Some q1 =>
                    match get "OPERATOR_PATTERN", get "OPERATOR_PRIORITY" with
                    | Some p2, Some q2 =>
                        match get "WHITESPACE_PATTERN", get "WHITESPACE_PRIORITY" with
                        | Some p3, Some q3 =>
                            (Returned
                               (Some {| token_patterns := [p0; p1; p2; p3];
                                        token_priorities := [atoi q0; atoi q1; atoi q2; atoi q3] |}),
                             governance')
                        | _, _ => (Undefined, governance')
                        end
                    | _, _ => (Undefined, governance')
                    end
                | _, _ => (Undefined, governance')
                end
            | _, _ => (Undefined, governance')
            end
        end
    end.

(** *** The simplified last stages *)

(** The leaf of the first Identifier token. *)
Fixpoint first_identifier (ts : list rift_token_t) : option ast_node_t :=
  match ts with
  | [] => None
  | t :: rest =>
      if token_type_eqb (token_type t) TOKEN_IDENTIFIER
      then Some (create_ast_node AST_IDENTIFIER (token_value t))
      else first_identifier rest
  end.

Definition create_simple_ast (tokens : token_stream_t) : option ast_node_t :=
  first_identifier (Staged.tokens tokens).

(** The text written to the standard output; only the node itself is
    printed, not its children. *)
Definition print_ast_simple (node : option ast_node_t) (indent : nat) : string :=
  match node with
  | None => EmptyString
  | Some n =>
      print_indent indent ++ "("
      ++ (match node_type n with AST_IDENTIFIER => "Identifier" | _ => "Node" end)
      ++ " " ++ node_value n ++ ")" ++ nl
  end.

Section Main.
Context {L : RegexLib}.

(** [main] with its constant [source_input] as a parameter: the exit
    status and the tree text written by the last stage (the narration
    lines are left out).  [None] is an undefined run: a missing
    configuration, or a NULL format name given to [printf]. *)
Definition main_on (source_input : string) : option (Z * string) :=
  let governance := governance_system_create in
  match rift_stage0_create governance with
  | (Undefined, _) => None
  | (Returned None, _) => Some (1%Z, EmptyString)
  | (Returned (Some stage0), governance0) =>
      let tokens := rift_stage0_process stage0 source_input in
      let governance1 := snd (governance_load_stage governance0 1) in
      let governance2 := snd (governance_load_stage governance1 2) in
      let (loaded3, governance3) := governance_load_stage governance2 3 in
      if loaded3 then
        match nth 3 (stage_configs governance3) None with
        | None => None
        | Some config3 =>
            match find_section "OUTPUT_FORMATS" (sections config3) with
            | None => Some (0%Z, EmptyString)
            | Some formats =>
                match config_section_get formats "primary_format" with
                | None => None
                | Some primary_format =>
                    match create_simple_ast tokens with
                    | Some ast =>
                        Some (0%Z, "(AST" ++ nl ++ print_ast_simple (Some ast) 1 ++ ")" ++ nl)
                    | None => Some (0%Z, EmptyString)
                    end
                end
            end
        end
      else Some (0%Z, EmptyString)
  end.

End Main.

(** The kinds that [rift_stage0_process] binds to the positions of the
    patterns, as states of the first-match tokenizer. *)
Fixpoint indexed_states (i : nat) (patterns : list string) : list rift_state_t :=
  match patterns with
  | [] => []
  | p :: rest =>
      mk_state i p (match kind_of_index i with Some k => k | None => TOKEN_UNKNOWN end)
      :: indexed_states (S i) rest
  end.

(** Priorities from 0 up to [hi], none greater than the one before it. *)
Fixpoint descending_from (hi : Z) (priorities : list Z) : Prop :=
  match priorities with
  | [] => True
  | x :: rest => (0 <= x <= hi)%Z /\ descending_from x rest
  end.

Definition descending (priorities : list Z) : Prop :=
  match priorities with
  | [] => True
  | x :: rest => (0 <= x)%Z /\ descending_from x rest
  end.

(** The system in which the stages of [ids], and no others, are loaded. *)
Definition system_with (ids : list Z) : rift_governance_system_t :=
  {| stage_configs :=
       map (fun i => if existsb (Z.eqb i) ids then load_stage_config i else None)
           [0; 1; 2; 3]%Z;
     global_config := config_section_create;
     stage_loaded := map (fun i => existsb (Z.eqb i) ids) [0; 1; 2; 3]%Z |}.

End StageGov.

(* ================================================================== *)
(** ** Characters that an expression cannot do without *)

Module Needs.

(** [needs c r]: every slice that [r] matches holds the character [c]. *)
Fixpoint needs (c : ascii) (r : Posix.regex) : bool :=
  match r with
  | Posix.Chr d => Ascii.eqb d c
  | Posix.Cat r1 r2 => needs c r1 || needs c r2
  | Posix.Alt r1 r2 => needs c r1 && needs c r2
  | _ => false
  end.

(** The pattern compiles to an expression that needs [c], or does not
    compile at all. *)
Definition pattern_needs (c : ascii) (pattern : string) : bool :=
  match Posix.comp pattern with
  | Some r => needs c r
  | None => true
  end.

End Needs.

(* ================================================================== *)
(** ** The escape-sequence processor *)

Module Escape.

(** *** String functions of the C library *)

(** [strncmp (s, find, strlen (find)) == 0]: [find] is a prefix of [s]. *)
Fixpoint starts_with (find s : string) : bool :=
  match find with
  | EmptyString => true
  | String a find' =>
      match s with
      | EmptyString => false
      | String b s' => Ascii.eqb a b && starts_with find' s'
      end
  end.

(** [strstr (s, find)]: the part of [s] from the first occurrence of
    [find] on, or NULL. *)
Fixpoint strstr (s find : string) : option string :=
  if starts_with find s then Some s
  else match s with
       | EmptyString => None
       | String _ s' => strstr s' find
       end.

(** [p + n] for a pointer [p] into a string that has [n] more characters. *)
Fixpoint advance (n : nat) (s : string) : string :=
  match n, s with
  | S k, String _ s' => advance k s'
  | _, _ => s
  end.

(** *** Mappings *)

Record escape_mapping_t : Type := {
  source_sequence : string;
  target_sequence : string;
  fault_token : string;
  encoding_context : string;
  priority : Z
}.

(** [count] is the length of [mappings]. *)
Record escape_processor_t : Type := {
  mappings : list escape_mapping_t;
  capacity : nat;
  default_fault_token : string
}.

Definition escape_processor_create : escape_processor_t :=
  {| mappings := []; capacity := 20; default_fault_token := "[UNKNOWN_ESCAPE]" |}.

(** The result and the processor after the call; the strings are nullable
    pointers. *)
Definition escape_processor_add_mapping (processor : escape_processor_t)
  (source target fault context : option string) (pri : Z) : bool * escape_processor_t :=
  match source, target with
  | Some source, Some target =>
      (true,
       {| mappings :=
            mappings processor
            ++ [ {| source_sequence := source;
                    target_sequence := target;
                    fault_token := match fault with
                                   | Some f => f
                                   | None => default_fault_token processor
                                   end;
                    encoding_context := match context with
                                        | Some c => c
                                        | None => "general"
                                        end;
                    priority := pri |} ];
          capacity := if Nat.leb (capacity processor) (length (mappings processor))
                      then 2 * capacity processor
                      else capacity processor;
          default_fault_token := default_fault_token processor |})
  | _, _ => (false, processor)
  end.

(** *** Replacement *)

(** The counting loop [while ((temp = strstr (temp, find)) != NULL)]: one
    round per unit of fuel, [None] when the fuel runs out. *)
Fixpoint count_loop (fuel : nat) (find temp : string) (count : nat) : option nat :=
  match fuel with
  | 0 => None
  | S k =>
      match strstr temp find with
      | None => Some count
      | Some occurrence =>
          count_loop k find (advance (String.length find) occurrence) (S count)
      end
  end.

(** The copying loop [while ( *src)]: the characters written at [dest],
    before the final NUL. *)
Fixpoint replace_loop (fuel : nat) (find replace src : string) : option string :=
  match fuel with
  | 0 => None
  | S k =>
      match src with
      | EmptyString => Some EmptyString
      | String c src' =>
          if starts_with find src then
            match replace_loop k find replace (advance (String.length find) src) with
            | Some written => Some (replace ++ written)
            | None => None
            end
          else
            match replace_loop k find replace src' with
            | Some written => Some (String c written)
            | None => None
            end
      end
  end.

(** [size_t] arithmetic, taken as 64 bits wide. *)
Definition size_modulus : Z := 2 ^ 64.

Definition wrap (z : Z) : Z := (z mod size_modulus)%Z.

(** [source_len + count * (replace_len - find_len) + 1] *)
Definition new_size (source_len count replace_len find_len : nat) : Z :=
  wrap (wrap (Z.of_nat source_len
              + wrap (Z.of_nat count * wrap (Z.of_nat replace_len - Z.of_nat find_len)))
        + 1).

Inductive replace_result : Type :=
| Replaced (result : string)
| Null
| Overrun.

(** [Replaced] is the returned string, [Null] the NULL of the argument
    test, [Overrun] a write past the [new_size] bytes allocated; [None]
    when the fuel does not suffice.  (A failing [malloc] is not
    modelled.) *)
Definition safe_string_replace (fuel : nat) (source find replace : option string)
  : option replace_result :=
  match source, find, replace with
  | Some source, Some find, Some replace =>
      match count_loop fuel find source 0 with
      | None => None
      | Some count =>
          let size :=
            new_size (String.length source) count (String.length replace) (String.length find) in
          match replace_loop fuel find replace source with
          | None => None
          | Some written =>
              if Z.leb (Z.of_nat (String.length written) + 1) size
              then Some (Replaced written)
              else Some Overrun
          end
      end
  | _, _, _ => Some Null
  end.

(** *** Processing a pattern *)

Record pattern_result_t : Type := {
  processed_pattern : string;
  transformation_successful : bool;
  fault_tokens_used : string;
  transformations_applied : Z
}.

(** The mapping is not skipped by the test on the context. *)
Definition applies (context : option string) (mapping : escape_mapping_t) : bool :=
  match context with
  | None => true
  | Some ctx =>
      String.eqb (encoding_context mapping) ctx
      || String.eqb (encoding_context mapping) "general"
  end.

(** The loop over the mappings, in array order.  [Undefined] is a write
    outside an allocated block: an overrun in a replacement, or fault
    tokens beyond the 256 bytes of their buffer. *)
Fixpoint process_loop (fuel : nat) (ms : list escape_mapping_t) (context : option string)
  (result : pattern_result_t) : option (StageGov.outcome pattern_result_t) :=
  match ms with
  | [] => Some (StageGov.Returned result)
  | mapping :: rest =>
      if negb (applies context mapping) then process_loop fuel rest context result
      else
        match strstr (processed_pattern result) (source_sequence mapping) with
        | None => process_loop fuel rest context result
        | Some _ =>
            match safe_string_replace fuel (Some (processed_pattern result))
                    (Some (source_sequence mapping)) (Some (target_sequence mapping)) with
            | None => None
            | Some Overrun => Some StageGov.Undefined
            | Some (Replaced new_pattern) =>
                process_loop fuel rest context
                  {| processed_pattern := new_pattern;
                     transformation_successful := transformation_successful result;
                     fault_tokens_used := fault_tokens_used result;
                     transformations_applied := (transformations_applied result + 1)%Z |}
            | Some Null =>
                match safe_string_replace fuel (Some (processed_pattern result))
                        (Some (source_sequence mapping)) (Some (fault_token mapping)) with
                | None => None
                | Some Overrun => Some StageGov.Undefined
                | Some (Replaced fault_pattern) =>
                    let used := fault_tokens_used result ++ fault_token mapping ++ " " in
                    if Nat.ltb (String.length used) 256 then
                      process_loop fuel rest context
                        {| processed_pattern := fault_pattern;
                           transformation_successful := false;
                           fault_tokens_used := used;
                           transformations_applied := transformations_applied result |}
                    else Some StageGov.Undefined
                | Some Null => process_loop fuel rest context result
                end
            end
        end
  end.

Definition process_escape_pattern (fuel : nat) (processor : escape_processor_t)
  (input_pattern : string) (context : option string)
  : option (StageGov.outcome pattern_result_t) :=
  process_loop fuel (mappings processor) context
    {| processed_pattern := input_pattern;
       transformation_successful := true;
       fault_tokens_used := EmptyString;
       transformations_applied := 0 |}.

(** *** The mappings of the framework *)

Definition create_obinexus_escape_processor : escape_processor_t :=
  fold_left
    (fun processor m =>
       match m with
       | (source, target, fault, context, pri) =>
           snd (escape_processor_add_mapping processor
                  (Some source) (Some target) (Some fault) (Some context) pri)
       end)
    [ ("\\\\w", "\w", "[WORD_CLASS]", "config_to_c", 100%Z);
      ("\\\\d", "\d", "[DIGIT_CLASS]", "config_to_c", 100%Z);
      ("\\\\s", "\s", "[SPACE_CLASS]", "config_to_c", 100%Z);
      ("\\\\.", "\.", "[DOT_LITERAL]", "config_to_c", 100%Z);
      ("\\w", "[a-zA-Z0-9_]", "[WORD_FALLBACK]", "c_to_regex", 90%Z);
      ("\\d", "[0-9]", "[DIGIT_FALLBACK]", "c_to_regex", 90%Z);
      ("\\s", "[ \t\n\r]", "[SPACE_FALLBACK]", "c_to_regex", 90%Z);
      ("\\.", "\.", "[DOT_FALLBACK]", "c_to_regex", 90%Z);
      ("\\\\", "\", "[BACKSLASH]", "raw_string", 80%Z) ]
    escape_processor_create.

(** The processor with the priority fields rewritten by [f]. *)
Definition with_priorities (f : escape_mapping_t -> Z) (processor : escape_processor_t)
  : escape_processor_t :=
  {| mappings :=
       map (fun m => {| source_sequence := source_sequence m;
                        target_sequence := target_sequence m;
                        fault_token := fault_token m;
                        encoding_context := encoding_context m;
                        priority := f m |}) (mappings processor);
     capacity := capacity processor;
     default_fault_token := default_fault_token processor |}.

(** The processor reduced to the mappings that apply in [context]. *)
Definition restricted_to (context : option string) (processor : escape_processor_t)
  : escape_processor_t :=
  {| mappings := filter (applies context) (mappings processor);
     capacity := capacity processor;
     default_fault_token := default_fault_token processor |}.

End Escape.

(* ================================================================== *)
(** ** The automaton proof of concept, continued *)

Module Poc.

Import Automaton.

(** *** States *)

(** The static counter [next_id] is threaded through the functions that
    create states: the identifier returned, and the counter after the
    call. *)
Definition generate_id (next_id : nat) : nat * nat := (next_id, S next_id).

Definition state_create (pattern : string) (is_final : bool) (next_id : nat) : State * nat :=
  let (id, next_id') := generate_id next_id in
  ({| pattern := pattern; is_final := is_final; id := id |}, next_id').

(** *** The automaton *)

(** A state is never written after its creation, so that the pointers to
    states held by the automaton and its transitions are modelled by the
    states themselves. *)
Record Transition : Type := {
  from_state : State;
  input_pattern : string;
  to_state : State
}.

(** [state_count] and [transition_count] are the lengths of the lists. *)
Record RegexAutomaton : Type := {
  states : list State;
  state_capacity : nat;
  transitions : list Transition;
  transition_capacity : nat;
  initial_state : option State;
  current_state : option State
}.

Definition automaton_create : RegexAutomaton :=
  {| states := [];
     state_capacity := 10;
     transitions := [];
     transition_capacity := 20;
     initial_state := None;
     current_state := None |}.

(** The returned state (NULL for a NULL pattern), the automaton and the
    counter after the call. *)
Definition automaton_add_state (automaton : RegexAutomaton) (pattern : option string)
  (is_final : bool) (next_id : nat) : option State * RegexAutomaton * nat :=
  match pattern with
  | None => (None, automaton, next_id)
  | Some pattern =>
      let capacity :=
        if Nat.leb (state_capacity automaton) (length (states automaton))
        then 2 * state_capacity automaton
        else state_capacity automaton in
      let (state, next_id') := state_create pattern is_final next_id in
      (Some state,
       {| states := states automaton ++ [state];
          state_capacity := capacity;
          transitions := transitions automaton;
          transition_capacity := transition_capacity automaton;
          initial_state := match initial_state automaton with
                           | None => Some state
                           | Some first => Some first
                           end;
          current_state := match initial_state automaton with
                           | None => Some state
                           | Some _ => current_state automaton
                           end |},
       next_id')
  end.

Definition automaton_add_transition (automaton : RegexAutomaton) (from : option State)
  (pattern : option string) (to : option State) : bool * RegexAutomaton :=
  match from, pattern, to with
  | Some from, Some pattern, Some to =>
      (true,
       {| states := states automaton;
          state_capacity := state_capacity automaton;
          transitions :=
            transitions automaton
            ++ [ {| from_state := from; input_pattern := pattern; to_state := to |} ];
          transition_capacity :=
            if Nat.leb (transition_capacity automaton) (length (transitions automaton))
            then 2 * transition_capacity automaton
            else transition_capacity automaton;
          initial_state := initial_state automaton;
          current_state := current_state automaton |})
  | _, _, _ => (false, automaton)
  end.

Section Matching.
Context {L : RegexLib}.

(** The loop over the states with its early [return]. *)
Fixpoint first_matching (sts : list State) (input : string) : option State :=
  match sts with
  | [] => None
  | st :: rest =>
      if state_matches (Some st) (Some input) then Some st else first_matching rest input
  end.

(** The returned state and the automaton after the call. *)
Definition automaton_get_next_state (automaton : RegexAutomaton) (input : option string)
  : option State * RegexAutomaton :=
  match current_state automaton, input with
  | Some _, Some input =>
      match first_matching (states automaton) input with
      | Some st =>
          (Some st,
           {| states := states automaton;
              state_capacity := state_capacity automaton;
              transitions := transitions automaton;
              transition_capacity := transition_capacity automaton;
              initial_state := initial_state automaton;
              current_state := Some st |})
      | None => (None, automaton)
      end
  | _, _ => (None, automaton)
  end.

(** *** The IR generator *)

Record TokenNode : Type := {
  type : string;
  value : string
}.

(** The generator works on the automaton it was created for: the field
    holds that automaton as the generator's calls leave it.  [node_count]
    is the length of [nodes]. *)
Record IRGenerator : Type := {
  automaton : RegexAutomaton;
  nodes : list TokenNode;
  node_capacity : nat
}.

Definition ir_generator_create (automaton : option RegexAutomaton) : option IRGenerator :=
  match automaton with
  | None => None
  | Some a => Some {| automaton := a; nodes := []; node_capacity := 10 |}
  end.

(** The returned node and the generator after the call. *)
Definition ir_generator_process_token (generator : IRGenerator) (token : option string)
  : option TokenNode * IRGenerator :=
  match token with
  | None => (None, generator)
  | Some token =>
      let (next_state, automaton') :=
        automaton_get_next_state (automaton generator) (Some token) in
      let generator' :=
        {| automaton := automaton';
           nodes := nodes generator;
           node_capacity := node_capacity generator |} in
      match next_state with
      | None => (None, generator')
      | Some st => (Some {| type := pattern st; value := token |}, generator')
      end
  end.

(** The lines [Type: ..., Value: ...] printed for the tokens in turn, and
    the generator at the end. *)
Fixpoint process_tokens (generator : IRGenerator) (tokens : list string)
  : string * IRGenerator :=
  match tokens with
  | [] => (EmptyString, generator)
  | token :: rest =>
      let (node, generator') := ir_generator_process_token generator (Some token) in
      let line :=
        match node with
        | Some n => "Type: " ++ type n ++ ", Value: " ++ value n ++ Sim.nl
        | None => EmptyString
        end in
      let (lines, generator'') := process_tokens generator' rest in
      (line ++ lines, generator'')
  end.

(** The kind that the if-else chain of [demonstrate_librift_tokenization]
    prints for a token. *)
Definition demonstrated_type (identifier number operator : State) (token : string) : string :=
  if state_matches (Some identifier) (Some token) then "Identifier"
  else if state_matches (Some number) (Some token) then "Number"
  else if state_matches (Some operator) (Some token) then "Operator"
  else "Unknown".

End Matching.

(** The calls [automaton_add_state] for the given patterns and flags in
    turn: the automaton and the counter at the end. *)
Fixpoint add_states (specs : list (option string * bool)) (automaton : RegexAutomaton)
  (next_id : nat) : RegexAutomaton * nat :=
  match specs with
  | [] => (automaton, next_id)
  | (pattern, final) :: rest =>
      match automaton_add_state automaton pattern final next_id with
      | (_, automaton', next_id') => add_states rest automaton' next_id'
      end
  end.

(** The patterns that are not NULL, with their flags. *)
Fixpoint accepted (specs : list (option string * bool)) : list (string * bool) :=
  match specs with
  | [] => []
  | (Some pattern, final) :: rest => (pattern, final) :: accepted rest
  | (None, _) :: rest => accepted rest
  end.

(** The states with the given patterns and flags, numbered from [first]. *)
Fixpoint numbered (first : nat) (specs : list (string * bool)) : list State :=
  match specs with
  | [] => []
  | (pattern, final) :: rest =>
      {| pattern := pattern; is_final := final; id := first |} :: numbered (S first) rest
  end.

End Poc.

(* ================================================================== *)
(** ** What the parser reads of a token *)

Module Reads.

Import Sim.

(** The kind and the text of a token: the two fields that the parsing
    functions read. *)
Definition kind_and_text (t : rift_token_t) : token_type_t * string :=
  (token_type t, token_value t).

(** Two parsers at the same position of streams that agree on the kinds
    and texts of their tokens. *)
Definition alike (p q : rift_parser_t) : Prop :=
  current_position p = current_position q
  /\ map kind_and_text (tokens (input_tokens p)) = map kind_and_text (tokens (input_tokens q)).

End Reads.

(* ================================================================== *)
(** * Properties *)

Import Sim Spec.
Open Scope list_scope.
Unset Implicit Arguments.

(** ** Regular-expression search *)

Section PosixFacts.
Import Posix.

Lemma chars_length (text : string) :
  length (list_ascii_of_string text) = String.length text.
Proof. induction text; simpl; congruence. Qed.

Lemma step_char_spec (p : ascii -> bool) (t : list ascii) (i j : nat) :
  In j (step_char p t i) <-> exists d, nth_error t i = Some d /\ p d = true /\ j = S i.
Proof.
  unfold step_char. destruct (nth_error t i) as [d|]; [destruct (p d) eqn:Hp|]; simpl.
  - split.
    + intros [<-|[]]. exists d. auto.
    + intros [d' [_ [_ ->]]]. now left.
  - split; [intros [] | intros [d' [E [Hp' _]]]; congruence].
  - split; [intros [] | intros [d' [E _]]; discriminate].
Qed.

(** A match goes forward, and one that consumes a character stays inside
    the text. *)
Lemma slice_match_bounds (t : list ascii) (r : regex) (i j : nat) :
  slice_match t r i j -> i <= j /\ (i < j -> j <= length t).
Proof.
  assert (forall d n, nth_error t n = Some d -> S n <= length t) as Hin
      by (intros d n E; apply nth_error_Some; congruence).
  induction 1;
    repeat match goal with IH : _ <= _ /\ _ |- _ => destruct IH end;
    (split; [lia | intros; try (eapply Hin; eassumption); lia]).
Qed.

Lemma star_ends_sound (t : list ascii) (r : regex) :
  (forall i j, In j (ends r t i) -> slice_match t r i j) ->
  forall fuel i j, In j (star_ends (ends r t) fuel i) -> slice_match t (Star r) i j.
Proof.
  intros Hr. induction fuel as [|k IH]; intros i j; simpl.
  - intros [<-|[]]. constructor.
  - intros [<-|Hin]; [constructor|].
    apply in_flat_map in Hin. destruct Hin as [m [Hm Hj]].
    destruct (Nat.ltb i m); [|destruct Hj].
    eapply match_star_more; eauto.
Qed.

Lemma ends_sound (t : list ascii) (r : regex) :
  forall i j, In j (ends r t i) -> slice_match t r i j.
Proof.
  induction r; simpl; intros i j Hin.
  - destruct Hin as [<-|[]]. constructor.
  - apply step_char_spec in Hin. destruct Hin as [d [Hd [Hp ->]]].
    apply Ascii.eqb_eq in Hp. subst d. now constructor.
  - apply step_char_spec in Hin. destruct Hin as [d [Hd [_ ->]]]. now apply match_any with d.
  - apply step_char_spec in Hin. destruct Hin as [d [Hd [Hp ->]]].
    now apply match_bracket with d.
  - destruct (Nat.eqb_spec i 0); [|destruct Hin]. destruct Hin as [<-|[]]. subst. constructor.
  - destruct (Nat.eqb_spec i (length t)); [|destruct Hin].
    destruct Hin as [<-|[]]. subst. constructor.
  - apply in_flat_map in Hin. destruct Hin as [k [Hk Hj]]. eapply match_cat; eauto.
  - apply in_app_or in Hin. destruct Hin; [apply match_alt_l | apply match_alt_r]; auto.
  - eapply star_ends_sound; eauto.
Qed.

(** Completeness, with the bound of the iteration made explicit for the
    star: any bound that covers the rest of the text is enough. *)
Lemma ends_complete_bounded (t : list ascii) (r : regex) (i j : nat) :
  slice_match t r i j ->
  In j (ends r t i)
  /\ forall r0, r = Star r0 ->
       forall fuel, length t - i <= fuel -> In j (star_ends (ends r0 t) fuel i).
Proof.
  induction 1 as [ i | c i Hc | d i Hd | neg rs d i Hd Hok | | | r1 r2 i k j H1 IH1 H2 IH2
                 | r1 r2 i j H1 IH1 | r1 r2 i j H2 IH2 | r i | r i k j H1 IH1 H2 IH2 ];
    simpl.
  - split; [now left | discriminate].
  - split; [|discriminate]. apply step_char_spec. exists c. repeat split; auto.
    apply Ascii.eqb_refl.
  - split; [|discriminate]. apply step_char_spec. exists d. auto.
  - split; [|discriminate]. apply step_char_spec. exists d. auto.
  - split; [now left | discriminate].
  - split; [|discriminate]. rewrite Nat.eqb_refl. now left.
  - split; [|discriminate]. apply in_flat_map. exists k. split; [apply IH1 | apply IH2].
  - split; [|discriminate]. apply in_or_app. left. apply IH1.
  - split; [|discriminate]. apply in_or_app. right. apply IH2.
  - assert (forall fuel, In i (star_ends (ends r t) fuel i)) as Hstop
        by (intros [|f]; simpl; now left).
    split; [apply Hstop|]. intros r0 E fuel _. injection E as <-. apply Hstop.
  - destruct IH1 as [IH1 _]. destruct IH2 as [_ IH2].
    assert (forall fuel, length t - i <= fuel -> In j (star_ends (ends r t) fuel i)) as Hall.
    { intros fuel Hfuel.
      destruct (slice_match_bounds t r i k H1) as [Hle Hin].
      destruct (Nat.eq_dec i k) as [<-|Hne].
      - now apply (IH2 r eq_refl).
      - assert (i < k) as Hlt by lia. specialize (Hin Hlt).
        destruct fuel as [|f]; [lia|]. simpl. right.
        apply in_flat_map. exists k. split; [assumption|].
        apply Nat.ltb_lt in Hlt. rewrite Hlt. apply (IH2 r eq_refl). lia. }
    split; [apply Hall; lia|]. intros r0 E. injection E as <-. exact Hall.
Qed.

(** [ends] computes exactly the matched slices. *)
Lemma ends_correct (t : list ascii) (r : regex) (i j : nat) :
  In j (ends r t i) <-> slice_match t r i j.
Proof.
  split; [apply ends_sound | intros H; now apply ends_complete_bounded].
Qed.

Lemma starts_bol_sound (r : regex) (t : list ascii) :
  starts_bol r = true -> forall i j, slice_match t r i j -> i = 0.
Proof.
  intros Hs i j H. induction H; simpl in Hs; try discriminate; auto.
  - apply andb_true_iff in Hs. destruct Hs. auto.
  - apply andb_true_iff in Hs. destruct Hs. auto.
Qed.

Lemma ends_eol_sound (r : regex) (t : list ascii) :
  ends_eol r = true -> forall i j, slice_match t r i j -> j = length t.
Proof.
  intros Hs i j H. induction H; simpl in Hs; try discriminate; auto.
  - apply andb_true_iff in Hs. destruct Hs. auto.
  - apply andb_true_iff in Hs. destruct Hs. auto.
Qed.

Lemma nonempty_In {A : Type} (l : list A) : nonempty l = true <-> exists x, In x l.
Proof.
  destruct l as [|a l]; simpl; split; intros H.
  - discriminate.
  - destruct H as [? []].
  - exists a. now left.
  - reflexivity.
Qed.

(** [regexec] succeeds exactly when some slice of the text is matched. *)
Lemma exec_search (r : regex) (text : string) :
  exec r text = true <->
  exists i j, i <= String.length text /\ slice_match (list_ascii_of_string text) r i j.
Proof.
  unfold exec. rewrite existsb_exists, chars_length. split.
  - intros [i [Hi Hne]]. apply nonempty_In in Hne. destruct Hne as [j Hj].
    apply in_seq in Hi. exists i, j. split; [lia | now apply ends_correct].
  - intros [i [j [Hi Hj]]]. exists i. split; [apply in_seq; lia|].
    apply nonempty_In. exists j. now apply ends_correct.
Qed.

Lemma whole_match_spec (r : regex) (text : string) :
  whole_match r text = true <->
  slice_match (list_ascii_of_string text) r 0 (String.length text).
Proof.
  unfold whole_match. rewrite existsb_exists, chars_length, <- ends_correct. split.
  - intros [j [Hj Heq]]. apply Nat.eqb_eq in Heq. congruence.
  - intros H. exists (String.length text). split; [assumption | apply Nat.eqb_refl].
Qed.

(** An expression anchored at both ends is found by the search exactly
    when it matches the whole text. *)
Lemma exec_anchored (r : regex) (text : string) :
  starts_bol r = true -> ends_eol r = true ->
  (exec r text = true <-> whole_match r text = true).
Proof.
  intros Hb He. rewrite exec_search, whole_match_spec. split.
  - intros [i [j [_ Hj]]].
    pose proof (starts_bol_sound r _ Hb _ _ Hj) as ->.
    pose proof (ends_eol_sound r _ He _ _ Hj) as ->.
    now rewrite chars_length in Hj.
  - intros H. exists 0, (String.length text). split; [lia | assumption].
Qed.

End PosixFacts.

(** ** Governance lookup *)

Lemma config_scan_first (pre post : list rift_config_entry_t) (e : rift_config_entry_t) (key : string) :
  Forall (fun e' => entry_intention e' <> key) pre ->
  entry_intention e = key ->
  config_scan (pre ++ e :: post) key = Some (entry_pattern e).
Proof.
  intros Hpre He. induction Hpre as [|e' pre' Hne _ IH]; simpl.
  - subst key. now rewrite String.eqb_refl.
  - destruct (String.eqb_spec (entry_intention e') key); [contradiction | exact IH].
Qed.

Lemma config_scan_none (es : list rift_config_entry_t) (key : string) :
  Forall (fun e' => entry_intention e' <> key) es -> config_scan es key = None.
Proof.
  induction 1 as [|e' es' Hne _ IH]; simpl; [reflexivity|].
  destruct (String.eqb_spec (entry_intention e') key); [contradiction | exact IH].
Qed.

Lemma pair_scan_app (ps qs : list Staged.config_pair_t) (key : string) :
  Staged.pair_scan (ps ++ qs) key =
  match Staged.pair_scan ps key with
  | Some v => Some v
  | None => Staged.pair_scan qs key
  end.
Proof.
  induction ps as [|p ps IH]; simpl; [reflexivity|].
  destruct (String.eqb (Staged.pair_key p) key); [reflexivity | exact IH].
Qed.

(** C5, as the code has it: the lookup scans the entries from the oldest
    to the newest and stops at the first whose key matches, so the value
    of the earliest-added matching entry is returned (first insert wins);
    adding a key that is already present leaves the result of its lookup
    unchanged, and a key is found after it is added to a section that did
    not hold it.  A key held by no entry is absent. *)
Theorem lookup_first_insert_wins :
  (forall gov key pre e post,
      gov_entries gov = pre ++ e :: post ->
      Forall (fun e' => entry_intention e' <> key) pre ->
      entry_intention e = key ->
      rift_get_config_value gov key = Some (entry_pattern e))
  /\ (forall gov key,
      Forall (fun e' => entry_intention e' <> key) (gov_entries gov) ->
      rift_get_config_value gov key = None)
  /\ (forall section key value,
      Staged.config_section_get (snd (Staged.config_section_add section key value)) key =
      match Staged.config_section_get section key with
      | Some old => Some old
      | None => Some value
      end)
  /\ (forall section key value key',
      key' <> key ->
      Staged.config_section_get (snd (Staged.config_section_add section key value)) key' =
      Staged.config_section_get section key').
Proof.
  repeat split.
  - intros gov key pre e post Hes Hpre He. unfold rift_get_config_value.
    rewrite Hes. now apply config_scan_first.
  - intros gov key Hall. now apply config_scan_none.
  - intros section key value. unfold Staged.config_section_get; simpl.
    rewrite pair_scan_app; simpl. rewrite String.eqb_refl. reflexivity.
  - intros section key value key' Hne. unfold Staged.config_section_get; simpl.
    rewrite pair_scan_app; simpl.
    destruct (String.eqb_spec key key'); [congruence|].
    now destruct (Staged.pair_scan (Staged.pairs section) key').
Qed.

Lemma lookup_first_insert_wins_witness :
  rift_get_config_value rift_load_governance "NUMBER_RECOGNITION" = Some "^\d+$"
  /\ Staged.config_section_get
       (snd (Staged.config_section_add Staged.token_patterns_section "NUMBER_PRIORITY" "5"))
       "IDENTIFIER_PRIORITY" = Some "100".
Proof.
  destruct lookup_first_insert_wins as [Hfirst [_ [_ Hother]]]. split.
  - apply (Hfirst rift_load_governance "NUMBER_RECOGNITION"
             [ {| entry_pattern := "^[a-zA-Z_]\w*$";
                  entry_intention := "IDENTIFIER_RECOGNITION";
                  entry_sp_alignment := "STAGE_0_TOKENIZER" |} ]
             {| entry_pattern := "^\d+$";
                entry_intention := "NUMBER_RECOGNITION";
                entry_sp_alignment := "STAGE_0_TOKENIZER" |}
             [ {| entry_pattern := "^[+\-*/]$";
                  entry_intention := "OPERATOR_RECOGNITION";
                  entry_sp_alignment := "STAGE_0_TOKENIZER" |} ]).
    + reflexivity.
    + constructor; [simpl; discriminate | constructor].
    + reflexivity.
  - rewrite (Hother Staged.token_patterns_section "NUMBER_PRIORITY" "5" "IDENTIFIER_PRIORITY").
    + reflexivity.
    + discriminate.
Defined.

(** The same key added twice: the lookup returns the value written first,
    in the section store and in the governance array alike. *)
Lemma lookup_last_insert_counterexample :
  let section :=
    snd (Staged.config_section_add
           (snd (Staged.config_section_add Staged.config_section_create "key" "first"))
           "key" "second") in
  let gov :=
    {| gov_entries :=
         [ {| entry_pattern := "first"; entry_intention := "key"; entry_sp_alignment := "" |};
           {| entry_pattern := "second"; entry_intention := "key"; entry_sp_alignment := "" |} ];
       gov_capacity := 10 |} in
  Staged.config_section_get section "key" = Some "first"
  /\ Staged.config_section_get section "key" <> Some "second"
  /\ rift_get_config_value gov "key" = Some "first"
  /\ rift_get_config_value gov "key" <> Some "second".
Proof.
  repeat split; try reflexivity; vm_compute; discriminate.
Qed.

(** ** Pattern matching *)

(** C6, as the code has it.  Matching is a search: a pattern that
    [regcomp] compiles matches a lexeme exactly when the compiled
    expression matches some slice of the lexeme, since [regexec] searches
    and no call anchors it; a pattern that [regcomp] rejects matches
    nothing.  A match is a match of the entire lexeme when the compiled
    expression is anchored at both ends: everything it can match starts
    with the anchor [^] and ends with the anchor [$], in every top-level
    alternative.  Each configured pattern either compiles to such an
    expression or is rejected, so that a configured pattern only ever
    matches an entire lexeme.  The three matching functions of the
    repository agree, whatever the regular-expression library. *)
Theorem pattern_match_searches :
  (forall (pattern lexeme : string) (r : Posix.regex),
      Posix.comp pattern = Some r ->
      (matches_pattern (L := Posix.lib) pattern lexeme = true <->
       exists i j, i <= String.length lexeme
                   /\ Posix.slice_match (list_ascii_of_string lexeme) r i j)
      /\ (Posix.starts_bol r = true -> Posix.ends_eol r = true ->
          (matches_pattern (L := Posix.lib) pattern lexeme = true <->
           Posix.slice_match (list_ascii_of_string lexeme) r 0 (String.length lexeme))))
  /\ (forall (L : RegexLib) (pattern lexeme : string),
      regcomp pattern = None -> matches_pattern pattern lexeme = false)
  /\ Forall (fun pattern =>
               match Posix.comp pattern with
               | Some r => Posix.starts_bol r = true /\ Posix.ends_eol r = true
               | None => True
               end)
            configured_patterns
  /\ (forall pattern lexeme : string,
      In pattern configured_patterns ->
      matches_pattern (L := Posix.lib) pattern lexeme = true ->
      exists r, Posix.comp pattern = Some r
                /\ Posix.slice_match (list_ascii_of_string lexeme) r 0
                     (String.length lexeme))
  /\ (forall (L : RegexLib) (pattern lexeme : string),
      Staged.pattern_matches pattern lexeme = matches_pattern pattern lexeme
      /\ forall st : Automaton.State,
           Automaton.pattern st = pattern ->
           Automaton.state_matches (Some st) (Some lexeme)
           = matches_pattern pattern lexeme).
Proof.
  assert (forall (pattern lexeme : string) (r : Posix.regex),
             Posix.comp pattern = Some r ->
             Posix.starts_bol r = true -> Posix.ends_eol r = true ->
             (matches_pattern (L := Posix.lib) pattern lexeme = true <->
              Posix.slice_match (list_ascii_of_string lexeme) r 0 (String.length lexeme)))
    as Hanchored.
  { intros pattern lexeme r Hc Hbol Heol. unfold matches_pattern; simpl. rewrite Hc. split.
    - intros Hm. apply whole_match_spec. now apply exec_anchored.
    - intros Hm. apply exec_anchored; try assumption. now apply whole_match_spec. }
  assert (Forall (fun pattern =>
                    match Posix.comp pattern with
                    | Some r => Posix.starts_bol r = true /\ Posix.ends_eol r = true
                    | None => True
                    end)
                 configured_patterns) as Hconfigured.
  { vm_compute. repeat constructor. }
  split; [|split; [|split; [|split]]].
  - intros pattern lexeme r Hc. split; [|now apply Hanchored].
    unfold matches_pattern; simpl. rewrite Hc. apply exec_search.
  - intros L pattern lexeme Hc. unfold matches_pattern. now rewrite Hc.
  - exact Hconfigured.
  - intros pattern lexeme Hin Hm. rewrite Forall_forall in Hconfigured.
    specialize (Hconfigured pattern Hin).
    destruct (Posix.comp pattern) as [r|] eqn:Hc.
    + exists r. split; [reflexivity|]. destruct Hconfigured as [Hbol Heol].
      now apply (Hanchored pattern lexeme r Hc Hbol Heol).
    + unfold matches_pattern in Hm; simpl in Hm. rewrite Hc in Hm. discriminate.
  - intros L pattern lexeme. split; [reflexivity|]. intros st <-. reflexivity.
Qed.

Lemma pattern_match_searches_witness :
  matches_pattern (L := Posix.lib) "^[0-9]+$" "2024" = true
  /\ matches_pattern (L := Posix.lib) "^[0-9]+$" "x2024" = false
  /\ matches_pattern (L := Posix.lib) "^[+\-*/]$" "+" = false.
Proof.
  destruct pattern_match_searches as [Hsearch [Hrejected _]].
  split; [|split].
  - destruct (Hsearch "^[0-9]+$" "2024"
                (Posix.Cat Posix.Bol
                   (Posix.Cat
                      (Posix.Cat (Posix.Bracket false [("0", "9")%char])
                         (Posix.Star (Posix.Bracket false [("0", "9")%char])))
                      Posix.Eol)) eq_refl) as [_ Hanchored].
    apply Hanchored; try reflexivity.
    apply ends_correct. vm_compute. now left.
  - destruct (Hsearch "^[0-9]+$" "x2024"
                (Posix.Cat Posix.Bol
                   (Posix.Cat
                      (Posix.Cat (Posix.Bracket false [("0", "9")%char])
                         (Posix.Star (Posix.Bracket false [("0", "9")%char])))
                      Posix.Eol)) eq_refl) as [_ Hanchored].
    apply not_true_is_false. intros Hm.
    apply Hanchored in Hm; try reflexivity.
    apply ends_correct in Hm. vm_compute in Hm. exact Hm.
  - apply (Hrejected Posix.lib). reflexivity.
Defined.

(** The unanchored pattern [abc] matches the lexeme [xabcy], of which it
    only matches the slice from 1 to 4, not the entire lexeme.  A [^] in
    front of the pattern text and a [$] at its end do not anchor it
    either when they belong to different alternatives: [^a|b$] matches
    [axx]. *)
Lemma anchored_match_counterexample :
  let abc := Posix.Cat (Posix.Chr "a") (Posix.Cat (Posix.Chr "b") (Posix.Chr "c")) in
  let a_or_b :=
    Posix.Alt (Posix.Cat Posix.Bol (Posix.Chr "a")) (Posix.Cat (Posix.Chr "b") Posix.Eol) in
  matches_pattern (L := Posix.lib) "abc" "xabcy" = true
  /\ Staged.pattern_matches (L := Posix.lib) "abc" "xabcy" = true
  /\ Automaton.state_matches (L := Posix.lib)
       (Some {| Automaton.pattern := "abc"; Automaton.is_final := false; Automaton.id := 1 |})
       (Some "xabcy") = true
  /\ Posix.comp "abc" = Some abc
  /\ Posix.slice_match (list_ascii_of_string "xabcy") abc 1 4
  /\ ~ Posix.slice_match (list_ascii_of_string "xabcy") abc 0 5
  /\ Posix.comp "^a|b$" = Some a_or_b
  /\ matches_pattern (L := Posix.lib) "^a|b$" "axx" = true
  /\ ~ Posix.slice_match (list_ascii_of_string "axx") a_or_b 0 3.
Proof.
  intros abc a_or_b. repeat split; try reflexivity.
  - apply ends_correct. vm_compute. now left.
  - intros H. apply ends_correct in H. vm_compute in H. exact H.
  - intros H. apply ends_correct in H. vm_compute in H.
    destruct H as [H|H]; [discriminate | exact H].
Qed.

(** ** Classification *)

Section Classification.
Context {L : RegexLib}.

Lemma classify_states_first (pre post : list rift_state_t) (st : rift_state_t) (token_str : string) :
  Forall (fun s => matches_pattern (state_pattern s) token_str = false) pre ->
  matches_pattern (state_pattern st) token_str = true ->
  classify_states (pre ++ st :: post) token_str = state_type st.
Proof.
  intros Hpre Hst. induction Hpre as [|s pre' Hs _ IH]; simpl.
  - now rewrite Hst.
  - now rewrite Hs.
Qed.

Lemma classify_states_none (sts : list rift_state_t) (token_str : string) :
  Forall (fun s => matches_pattern (state_pattern s) token_str = false) sts ->
  classify_states sts token_str = TOKEN_UNKNOWN.
Proof.
  induction 1 as [|s sts' Hs _ IH]; simpl; [reflexivity | now rewrite Hs].
Qed.

Import Staged.

(** A rule that does not beat the running maximum leaves the state as it
    is. *)
Lemma classify_from_keep (rules : list (string * Z)) (text : string) :
  forall i st,
    Forall (fun rule => pattern_matches (fst rule) text = true ->
                        (snd rule <= cls_highest st)%Z) rules ->
    classify_from i rules text st = st.
Proof.
  induction rules as [|rule rest IH]; intros i st Hall; simpl; [reflexivity|].
  inversion Hall as [|? ? Hrule Hrest]; subst.
  assert (classify_step i rule text st = st) as ->.
  { unfold classify_step. destruct (pattern_matches (fst rule) text); [|reflexivity].
    specialize (Hrule eq_refl).
    destruct (Z.ltb_spec (cls_highest st) (snd rule)); [lia | reflexivity]. }
  now apply IH.
Qed.

(** Rules of smaller priority in front keep the running maximum below
    that priority. *)
Lemma classify_from_below (pre rest : list (string * Z)) (text : string) (pri : Z) :
  forall i st,
    Forall (fun rule => pattern_matches (fst rule) text = true -> (snd rule < pri)%Z) pre ->
    (cls_highest st < pri)%Z ->
    exists st',
      classify_from i (pre ++ rest) text st = classify_from (i + length pre) rest text st'
      /\ (cls_highest st' < pri)%Z.
Proof.
  induction pre as [|rule pre' IH]; intros i st Hall Hlt; simpl.
  - exists st. rewrite Nat.add_0_r. now split.
  - inversion Hall as [|? ? Hrule Hrest]; subst.
    destruct (IH (S i) (classify_step i rule text st) Hrest) as [st' [Heq Hlt']].
    + unfold classify_step. destruct (pattern_matches (fst rule) text); [|assumption].
      destruct (Z.ltb_spec (cls_highest st) (snd rule)); simpl; [now apply Hrule | assumption].
    + exists st'. rewrite Heq. split; [|assumption].
      f_equal. lia.
Qed.

Lemma classify_best (processor : rift_stage0_processor_t) (text : string)
  (pre post : list (string * Z)) (pat : string) (pri : Z) :
  stage0_rules processor = pre ++ (pat, pri) :: post ->
  pattern_matches pat text = true ->
  (-1 < pri)%Z ->
  Forall (fun rule => pattern_matches (fst rule) text = true -> (snd rule < pri)%Z) pre ->
  Forall (fun rule => pattern_matches (fst rule) text = true -> (snd rule <= pri)%Z) post ->
  cls_priority (classify processor text) = pri
  /\ forall k, kind_of_index (length pre) = Some k -> cls_type (classify processor text) = k.
Proof.
  intros Hrules Hm Hpos Hpre Hpost. unfold classify. rewrite Hrules.
  destruct (classify_from_below pre ((pat, pri) :: post) text pri 0
              {| cls_type := TOKEN_UNKNOWN; cls_priority := 0%Z; cls_highest := (-1)%Z |}
              Hpre Hpos) as [st' [-> Hlt]].
  simpl.
  assert (classify_step (length pre) (pat, pri) text st' =
          {| cls_type := match kind_of_index (length pre) with
                         | Some k => k
                         | None => cls_type st'
                         end;
             cls_priority := pri;
             cls_highest := pri |}) as ->.
  { unfold classify_step; simpl. rewrite Hm.
    destruct (Z.ltb_spec (cls_highest st') pri); [reflexivity | lia]. }
  rewrite classify_from_keep by (simpl; assumption). simpl. split; [reflexivity|].
  intros k Hk. now rewrite Hk.
Qed.

Lemma classify_unmatched (processor : rift_stage0_processor_t) (text : string) :
  Forall (fun rule => pattern_matches (fst rule) text = true -> (snd rule <= -1)%Z)
         (stage0_rules processor) ->
  cls_type (classify processor text) = TOKEN_UNKNOWN
  /\ cls_priority (classify processor text) = 0%Z.
Proof.
  intros Hall. unfold classify. rewrite classify_from_keep by (simpl; assumption).
  now split.
Qed.

End Classification.

(** C1, as the code has it.  In [rift_tokenize] a rule carries no priority:
    the lexeme gets the kind of the earliest rule, in rule order, whose
    pattern matches it, and [TOKEN_UNKNOWN] when none does.  In the
    priority-carrying variant [rift_stage0_process] the kind of a rule is
    fixed by its position; among the rules whose pattern matches, the
    earliest rule of greatest priority is selected, provided that priority
    is at least 0; when no matching rule has a priority of at least 0 the
    result is [TOKEN_UNKNOWN] with priority 0. *)
Theorem classification_policy (L : RegexLib) :
  (forall (pre post : list rift_state_t) (st : rift_state_t) (lexeme : string),
      Forall (fun s => matches_pattern (state_pattern s) lexeme = false) pre ->
      matches_pattern (state_pattern st) lexeme = true ->
      classify_states (pre ++ st :: post) lexeme = state_type st)
  /\ (forall (sts : list rift_state_t) (lexeme : string),
      Forall (fun s => matches_pattern (state_pattern s) lexeme = false) sts ->
      classify_states sts lexeme = TOKEN_UNKNOWN)
  /\ (forall (processor : Staged.rift_stage0_processor_t) (lexeme : string)
             (pre post : list (string * Z)) (pat : string) (pri : Z),
      Staged.stage0_rules processor = pre ++ (pat, pri) :: post ->
      Staged.pattern_matches pat lexeme = true ->
      (0 <= pri)%Z ->
      Forall (fun rule => Staged.pattern_matches (fst rule) lexeme = true ->
                          (snd rule < pri)%Z) pre ->
      Forall (fun rule => Staged.pattern_matches (fst rule) lexeme = true ->
                          (snd rule <= pri)%Z) post ->
      Staged.cls_priority (Staged.classify processor lexeme) = pri
      /\ forall k, Staged.kind_of_index (length pre) = Some k ->
                   Staged.cls_type (Staged.classify processor lexeme) = k)
  /\ (forall (processor : Staged.rift_stage0_processor_t) (lexeme : string),
      Forall (fun rule => Staged.pattern_matches (fst rule) lexeme = true ->
                          (snd rule < 0)%Z) (Staged.stage0_rules processor) ->
      Staged.cls_type (Staged.classify processor lexeme) = TOKEN_UNKNOWN
      /\ Staged.cls_priority (Staged.classify processor lexeme) = 0%Z).
Proof.
  split; [|split; [|split]].
  - intros. now apply classify_states_first.
  - intros. now apply classify_states_none.
  - intros processor lexeme pre post pat pri Hr Hm Hp Hpre Hpost.
    apply (classify_best processor lexeme pre post pat pri Hr); try assumption. lia.
  - intros processor lexeme Hall. apply classify_unmatched.
    eapply Forall_impl; [|exact Hall]. simpl. intros rule H Hm. specialize (H Hm). lia.
Qed.

Lemma classification_policy_witness :
  classify_states (L := Posix.lib)
    [mk_state 0 "^[a-z]+$" TOKEN_IDENTIFIER; mk_state 1 "^[0-9]+$" TOKEN_NUMBER;
     mk_state 2 "^.$" TOKEN_OPERATOR] "5" = TOKEN_NUMBER
  /\ Staged.cls_priority
       (Staged.classify (L := Posix.lib)
          {| Staged.token_patterns := ["^[a-z]+$"; "^[0-9]+$"; "^.$"; "^ +$"];
             Staged.token_priorities := [100; 90; 95; 10]%Z |} "5") = 95%Z.
Proof.
  destruct (classification_policy Posix.lib) as [Hfirst [_ [Hbest _]]]. split.
  - apply (Hfirst [mk_state 0 "^[a-z]+$" TOKEN_IDENTIFIER]
             [mk_state 2 "^.$" TOKEN_OPERATOR]
             (mk_state 1 "^[0-9]+$" TOKEN_NUMBER) "5").
    + constructor; [reflexivity | constructor].
    + reflexivity.
  - apply (Hbest {| Staged.token_patterns := ["^[a-z]+$"; "^[0-9]+$"; "^.$"; "^ +$"];
                    Staged.token_priorities := [100; 90; 95; 10]%Z |} "5"
             [("^[a-z]+$", 100%Z); ("^[0-9]+$", 90%Z)] [("^ +$", 10%Z)] "^.$" 95%Z).
    + reflexivity.
    + reflexivity.
    + lia.
    + constructor; [vm_compute; discriminate|].
      constructor; [simpl; lia | constructor].
    + constructor; [simpl; lia | constructor].
Defined.

(** With the rules [("^[0-9]+$", Number); ("^.$", Unknown)] both patterns
    match the lexeme [5], and [rift_tokenize] classifies it as a Number:
    the earlier rule wins, whatever priority the later one is meant to
    have.  In [rift_stage0_process] the same two patterns with priorities
    90 and 95 give the kind of position 1, Number again, and with the
    priorities -5 and -3 neither rule is selected. *)
Lemma classification_priority_counterexample :
  let tk := {| states := [mk_state 0 "^[0-9]+$" TOKEN_NUMBER; mk_state 1 "^.$" TOKEN_UNKNOWN];
               tokenizer_governance := rift_load_governance |} in
  matches_pattern (L := Posix.lib) "^[0-9]+$" "5" = true
  /\ matches_pattern (L := Posix.lib) "^.$" "5" = true
  /\ classify_states (L := Posix.lib) (states tk) "5" = TOKEN_NUMBER
  /\ classify_states (L := Posix.lib) (states tk) "5" <> TOKEN_UNKNOWN
  /\ map token_type (tokens (rift_tokenize (L := Posix.lib) tk "5")) = [TOKEN_NUMBER]
  /\ Staged.cls_type
       (Staged.classify (L := Posix.lib)
          {| Staged.token_patterns := ["^[0-9]+$"; "^.$"];
             Staged.token_priorities := [90; 95]%Z |} "5") = TOKEN_NUMBER
  /\ Staged.classify (L := Posix.lib)
       {| Staged.token_patterns := ["^[0-9]+$"; "^.$"];
          Staged.token_priorities := [-5; -3]%Z |} "5"
     = {| Staged.cls_type := TOKEN_UNKNOWN;
          Staged.cls_priority := 0%Z;
          Staged.cls_highest := (-1)%Z |}.
Proof.
  repeat split; try reflexivity. vm_compute. discriminate.
Qed.

(** ** Parsing *)

Section ParserFacts.
Variables (gov : rift_governance_t) (capacity : nat).

Lemma current_token_at (ts : list rift_token_t) (n : nat) :
  current_token (cursor gov capacity ts n) = (nth_error ts n, cursor gov capacity ts n).
Proof. reflexivity. Qed.

Lemma advance_token_at (ts : list rift_token_t) (n : nat) :
  n < length ts -> advance_token (cursor gov capacity ts n) = (tt, cursor gov capacity ts (S n)).
Proof.
  intros H. unfold advance_token, stream_count; simpl.
  apply Nat.ltb_lt in H. now rewrite H.
Qed.

(** On an identifier or number token [parse_factor] builds the leaf and
    moves one token forward. *)
Lemma parse_factor_atom (ts : list rift_token_t) (n : nat) (t : rift_token_t) :
  nth_error ts n = Some t -> is_atom t = true ->
  parse_factor (cursor gov capacity ts n) = (Some (leaf t), cursor gov capacity ts (S n)).
Proof.
  intros Hn Ha. assert (n < length ts) as Hlt by (apply nth_error_Some; congruence).
  unfold parse_factor, bind. rewrite current_token_at, Hn.
  unfold is_atom in Ha. unfold leaf.
  destruct (token_type t); try discriminate; rewrite advance_token_at by assumption;
    reflexivity.
Qed.

(** With no identifier or number at the cursor it returns no node and
    leaves the cursor where it is. *)
Lemma parse_factor_none (p : rift_parser_t) :
  match fst (current_token p) with
  | Some t => is_atom t = false
  | None => True
  end ->
  parse_factor p = (None, p).
Proof.
  unfold parse_factor, bind, current_token, is_atom; simpl.
  destruct (nth_error (tokens (input_tokens p)) (current_position p)) as [t|];
    [|reflexivity].
  destruct (token_type t); intros H; try discriminate; reflexivity.
Qed.

Lemma parse_term_loop_stop (fuel : nat) (left : option ast_node_t) (p : rift_parser_t) :
  operator_among "*" "/" (fst (current_token p)) = false ->
  parse_term_loop fuel left p = (left, p).
Proof.
  intros H. destruct fuel; [reflexivity|].
  simpl. unfold bind.
  destruct (current_token p) as [tok p'] eqn:E.
  assert (p' = p) as -> by (unfold current_token in E; congruence).
  simpl in H. now rewrite H.
Qed.

Lemma parse_expression_loop_stop (fuel : nat) (left : option ast_node_t) (p : rift_parser_t) :
  operator_among "+" "-" (fst (current_token p)) = false ->
  parse_expression_loop fuel left p = (left, p).
Proof.
  intros H. destruct fuel; [reflexivity|].
  simpl. unfold bind.
  destruct (current_token p) as [tok p'] eqn:E.
  assert (p' = p) as -> by (unfold current_token in E; congruence).
  simpl in H. now rewrite H.
Qed.

Lemma nth_error_middle {A : Type} (pre post : list A) (x : A) :
  nth_error (pre ++ x :: post) (length pre) = Some x.
Proof. induction pre; simpl; auto. Qed.

Lemma nth_error_middle2 {A : Type} (pre post : list A) (x y : A) :
  nth_error (pre ++ x :: y :: post) (S (length pre)) = Some y.
Proof. induction pre; simpl; auto. Qed.

Lemma nth_error_after {A : Type} (pre post : list A) :
  nth_error (pre ++ post) (length pre) = nth_error post 0.
Proof. induction pre; simpl; auto. Qed.

Lemma flatten_length (ops : list (rift_token_t * rift_token_t)) :
  length (flatten ops) = 2 * length ops.
Proof. induction ops as [|[o t] rest IH]; simpl; lia. Qed.

Lemma sum_tokens_length (rest : list (rift_token_t * term_shape)) :
  length rest <= length (sum_tokens rest).
Proof.
  induction rest as [|[o t] rest IH]; simpl; [lia|]. rewrite length_app. lia.
Qed.

Lemma additive_not_multiplicative (t : rift_token_t) :
  is_operator "+" "-" t = true -> operator_among "*" "/" (Some t) = false.
Proof.
  unfold is_operator, operator_among. intros H.
  apply andb_true_iff in H. destruct H as [_ H]. apply orb_true_iff in H.
  destruct H as [H|H]; apply String.eqb_eq in H; rewrite H;
    now rewrite andb_false_r.
Qed.

(** What follows a term of a sum is the end of the stream or a [+] or
    [-]: not a [*] nor a [/]. *)
Lemma head_not_multiplicative (rest : list (rift_token_t * term_shape)) :
  sum_ok rest ->
  operator_among "*" "/" (nth_error (sum_tokens rest) 0) = false.
Proof.
  destruct rest as [|[o t] rest]; simpl; [reflexivity|].
  intros H. inversion H as [|? ? [Ho _] _]; subst. simpl in Ho.
  now apply additive_not_multiplicative.
Qed.

(** The loop of [parse_term] folds a run of [*] and [/] applications to
    the left and stops at the first token that is not one of them. *)
Lemma parse_term_loop_fold (ops : list (rift_token_t * rift_token_t)) :
  forall (pre post : list rift_token_t) (acc : ast_node_t) (fuel : nat),
    level_ok "*" "/" ops ->
    operator_among "*" "/" (nth_error post 0) = false ->
    length ops <= fuel ->
    parse_term_loop fuel (Some acc)
      (cursor gov capacity (pre ++ flatten ops ++ post) (length pre))
    = (Some (fold_ops ops acc),
       cursor gov capacity (pre ++ flatten ops ++ post) (length pre + length (flatten ops))).
Proof.
  induction ops as [|[o t] rest IH]; intros pre post acc fuel Hok Hpost Hfuel.
  - simpl. rewrite Nat.add_0_r. apply parse_term_loop_stop.
    rewrite current_token_at; cbn [fst]. now rewrite nth_error_after.
  - inversion Hok as [|? ? [Ho Ht] Hrest]; subst. simpl in Ho, Ht.
    destruct fuel as [|k]; [simpl in Hfuel; lia|].
    cbn [flatten]. rewrite <- !app_comm_cons.
    simpl parse_term_loop. unfold bind at 1.
    rewrite current_token_at, nth_error_middle.
    unfold is_operator in Ho. rewrite Ho.
    unfold bind at 1. rewrite advance_token_at by (rewrite length_app; simpl; lia).
    unfold bind at 1.
    rewrite (parse_factor_atom _ _ t (nth_error_middle2 pre (flatten rest ++ post) o t) Ht).
    change (op_text (Some o)) with (token_value o).
    replace (pre ++ o :: t :: flatten rest ++ post)
      with ((pre ++ [o; t]) ++ flatten rest ++ post)
      by (now rewrite <- app_assoc).
    replace (S (S (length pre))) with (length (pre ++ [o; t]))
      by (rewrite length_app; simpl; lia).
    rewrite (IH (pre ++ [o; t]) post
               (binary_op (token_value o) (Some acc) (Some (leaf t))) k Hrest Hpost)
      by (simpl in Hfuel; lia).
    simpl. f_equal. f_equal. rewrite length_app. simpl. lia.
Qed.

(** [parse_term] on a term returns the tree of the term and leaves the
    cursor right after it. *)
Lemma parse_term_shape (pre post : list rift_token_t) (t : term_shape) :
  term_ok t ->
  operator_among "*" "/" (nth_error post 0) = false ->
  parse_term (cursor gov capacity (pre ++ term_tokens t ++ post) (length pre))
  = (Some (term_tree t),
     cursor gov capacity (pre ++ term_tokens t ++ post) (length pre + length (term_tokens t))).
Proof.
  destruct t as [a run]. unfold term_ok, term_tokens, term_tree; cbn [fst snd].
  intros [Ha Hrun] Hpost. rewrite <- app_comm_cons.
  unfold parse_term, bind.
  rewrite (parse_factor_atom _ _ a (nth_error_middle pre (flatten run ++ post) a) Ha).
  replace (pre ++ a :: flatten run ++ post) with ((pre ++ [a]) ++ flatten run ++ post)
    by (now rewrite <- app_assoc).
  replace (S (length pre)) with (length (pre ++ [a])) by (rewrite length_app; simpl; lia).
  rewrite (parse_term_loop_fold run (pre ++ [a]) post (leaf a) _ Hrun Hpost).
  - f_equal. f_equal. rewrite length_app. simpl. lia.
  - unfold remaining, stream_count; simpl. rewrite !length_app, flatten_length. lia.
Qed.

(** The loop of [parse_expression] folds a run of [+] and [-] applications
    of terms to the left and stops at the end of the stream. *)
Lemma parse_expression_loop_fold (rest : list (rift_token_t * term_shape)) :
  forall (pre : list rift_token_t) (acc : ast_node_t) (fuel : nat),
    sum_ok rest ->
    length rest <= fuel ->
    parse_expression_loop fuel (Some acc)
      (cursor gov capacity (pre ++ sum_tokens rest) (length pre))
    = (Some (fold_terms rest acc),
       cursor gov capacity (pre ++ sum_tokens rest) (length (pre ++ sum_tokens rest))).
Proof.
  induction rest as [|[o t] rest IH]; intros pre acc fuel Hok Hfuel.
  - simpl. rewrite app_nil_r. apply parse_expression_loop_stop.
    rewrite current_token_at; cbn [fst].
    now rewrite (proj2 (nth_error_None pre (length pre)) (le_n _)).
  - inversion Hok as [|? ? [Ho Ht] Hrest]; subst. cbn [fst snd] in Ho, Ht.
    destruct fuel as [|k]; [simpl in Hfuel; lia|].
    cbn [sum_tokens parse_expression_loop]. unfold bind at 1.
    rewrite current_token_at, nth_error_middle.
    unfold is_operator in Ho. rewrite Ho.
    unfold bind at 1. rewrite advance_token_at by (rewrite length_app; simpl; lia).
    unfold bind at 1.
    change (op_text (Some o)) with (token_value o).
    replace (pre ++ o :: term_tokens t ++ sum_tokens rest)
      with ((pre ++ [o]) ++ term_tokens t ++ sum_tokens rest)
      by (now rewrite <- app_assoc).
    replace (S (length pre)) with (length (pre ++ [o]))
      by (rewrite length_app; simpl; lia).
    rewrite (parse_term_shape (pre ++ [o]) (sum_tokens rest) t Ht
               (head_not_multiplicative rest Hrest)).
    replace ((pre ++ [o]) ++ term_tokens t ++ sum_tokens rest)
      with (((pre ++ [o]) ++ term_tokens t) ++ sum_tokens rest)
      by (now rewrite <- app_assoc).
    replace (length (pre ++ [o]) + length (term_tokens t))
      with (length ((pre ++ [o]) ++ term_tokens t))
      by (now rewrite (length_app (pre ++ [o]))).
    rewrite (IH ((pre ++ [o]) ++ term_tokens t)
               (binary_op (token_value o) (Some acc) (Some (term_tree t))) k Hrest)
      by (simpl in Hfuel; lia).
    reflexivity.
Qed.

End ParserFacts.

(** *** The loops stop by their condition, not by their bound *)

Lemma remaining_zero_no_token (p : rift_parser_t) :
  remaining p = 0 -> fst (current_token p) = None.
Proof.
  unfold remaining, stream_count, current_token; simpl. intros H.
  apply nth_error_None. lia.
Qed.

Lemma parse_factor_remaining (p : rift_parser_t) :
  remaining (snd (parse_factor p)) <= remaining p.
Proof.
  unfold parse_factor, bind, current_token, advance_token, remaining, stream_count; simpl.
  destruct (nth_error (tokens (input_tokens p)) (current_position p)) as [t|]; simpl; [|lia].
  destruct (token_type t); simpl; try lia;
    destruct (Nat.ltb_spec (current_position p) (length (tokens (input_tokens p))));
    simpl; lia.
Qed.

Lemma advance_remaining (p : rift_parser_t) :
  fst (current_token p) <> None ->
  S (remaining (snd (advance_token p))) = remaining p.
Proof.
  unfold current_token, advance_token, remaining, stream_count; simpl. intros H.
  apply nth_error_Some in H.
  destruct (Nat.ltb_spec (current_position p) (length (tokens (input_tokens p))));
    simpl; lia.
Qed.

Lemma operator_among_some (a b : string) (tok : option rift_token_t) :
  operator_among a b tok = true -> tok <> None.
Proof. destruct tok; [discriminate | intros H; discriminate H]. Qed.

Lemma parse_term_loop_remaining (fuel : nat) :
  forall left p, remaining (snd (parse_term_loop fuel left p)) <= remaining p.
Proof.
  induction fuel as [|k IH]; intros left p; simpl; [lia|].
  unfold bind. destruct (current_token p) as [tok p0] eqn:E.
  assert (p0 = p) as -> by (unfold current_token in E; congruence).
  destruct (operator_among "*" "/" tok) eqn:Hop; [|unfold ret; cbn [snd]; lia].
  destruct (advance_token p) as [[] p1] eqn:E1.
  destruct (parse_factor p1) as [right p2] eqn:E2.
  pose proof (IH (Some (binary_op (op_text tok) left right)) p2) as H1.
  pose proof (parse_factor_remaining p1) as H2. rewrite E2 in H2. cbn [snd] in H2.
  assert (fst (current_token p) <> None) as Hne
      by (rewrite E; cbn [fst]; now apply operator_among_some with "*" "/").
  pose proof (advance_remaining p Hne) as H3. rewrite E1 in H3. cbn [snd] in H3. lia.
Qed.

Lemma parse_term_remaining (p : rift_parser_t) :
  remaining (snd (parse_term p)) <= remaining p.
Proof.
  unfold parse_term, bind. destruct (parse_factor p) as [left p1] eqn:E.
  pose proof (parse_factor_remaining p) as H1. rewrite E in H1. cbn [snd] in H1.
  pose proof (parse_term_loop_remaining (remaining p1) left p1). lia.
Qed.

(** Any bound that is at least the number of remaining tokens gives the
    same result: the loop has met a token that ends it, or the end of the
    stream, before the bound is used up. *)
Lemma parse_term_loop_fuel (f1 : nat) :
  forall f2 left p,
    remaining p <= f1 -> remaining p <= f2 ->
    parse_term_loop f1 left p = parse_term_loop f2 left p.
Proof.
  induction f1 as [|k1 IH]; intros f2 left p H1 H2.
  - assert (remaining p = 0) as Hz by lia.
    simpl. symmetry. apply parse_term_loop_stop.
    now rewrite (remaining_zero_no_token p Hz).
  - destruct f2 as [|k2].
    + assert (remaining p = 0) as Hz by lia.
      simpl (parse_term_loop 0 left p). apply parse_term_loop_stop.
      now rewrite (remaining_zero_no_token p Hz).
    + simpl. unfold bind. destruct (current_token p) as [tok p0] eqn:E.
      assert (p0 = p) as -> by (unfold current_token in E; congruence).
      destruct (operator_among "*" "/" tok) eqn:Hop; [|reflexivity].
      destruct (advance_token p) as [[] p1] eqn:E1.
      destruct (parse_factor p1) as [right p2] eqn:E2.
      assert (fst (current_token p) <> None) as Hne
          by (rewrite E; cbn [fst]; now apply operator_among_some with "*" "/").
      pose proof (advance_remaining p Hne) as Ha. rewrite E1 in Ha. cbn [snd] in Ha.
      pose proof (parse_factor_remaining p1) as Hf. rewrite E2 in Hf. cbn [snd] in Hf.
      apply IH; lia.
Qed.

Lemma parse_expression_loop_fuel (f1 : nat) :
  forall f2 left p,
    remaining p <= f1 -> remaining p <= f2 ->
    parse_expression_loop f1 left p = parse_expression_loop f2 left p.
Proof.
  induction f1 as [|k1 IH]; intros f2 left p H1 H2.
  - assert (remaining p = 0) as Hz by lia.
    simpl. symmetry. apply parse_expression_loop_stop.
    now rewrite (remaining_zero_no_token p Hz).
  - destruct f2 as [|k2].
    + assert (remaining p = 0) as Hz by lia.
      simpl (parse_expression_loop 0 left p). apply parse_expression_loop_stop.
      now rewrite (remaining_zero_no_token p Hz).
    + simpl. unfold bind. destruct (current_token p) as [tok p0] eqn:E.
      assert (p0 = p) as -> by (unfold current_token in E; congruence).
      destruct (operator_among "+" "-" tok) eqn:Hop; [|reflexivity].
      destruct (advance_token p) as [[] p1] eqn:E1.
      destruct (parse_term p1) as [right p2] eqn:E2.
      assert (fst (current_token p) <> None) as Hne
          by (rewrite E; cbn [fst]; now apply operator_among_some with "+" "-").
      pose proof (advance_remaining p Hne) as Ha. rewrite E1 in Ha. cbn [snd] in Ha.
      pose proof (parse_term_remaining p1) as Hf. rewrite E2 in Hf. cbn [snd] in Hf.
      apply IH; lia.
Qed.

(** *** Precedence, associativity and malformed input *)

(** C3: the parser is left-associative at both precedence levels.  For
    every stream made of a first term and a run of [+] and [-] applications
    of terms, each term being a first factor and a run of [*] and [/]
    applications of factors, the result is the left fold of the runs: every
    application takes the tree built so far as its left child, and the
    whole stream is consumed.  [a - b - c] parses to
    [BinaryOp (-, BinaryOp (-, a, b), c)], which is not the right-nested
    tree. *)
Theorem parse_left_associative :
  (forall (parser : rift_parser_t) (capacity : nat) (first : term_shape)
          (rest : list (rift_token_t * term_shape)),
      term_ok first ->
      sum_ok rest ->
      let result := rift_parse parser (stream_of (expression_tokens first rest) capacity) in
      fst result = Some (expression_tree first rest)
      /\ current_position (snd result) = length (expression_tokens first rest))
  /\ (forall (acc : ast_node_t) (o t : rift_token_t) (ops : list (rift_token_t * rift_token_t)),
      fold_ops (ops ++ [(o, t)]) acc
      = binary_op (token_value o) (Some (fold_ops ops acc)) (Some (leaf t)))
  /\ (forall (parser : rift_parser_t) (capacity : nat),
      fst (rift_parse parser
             (stream_of [ token TOKEN_IDENTIFIER "a" 1; token TOKEN_OPERATOR "-" 2;
                          token TOKEN_IDENTIFIER "b" 3; token TOKEN_OPERATOR "-" 4;
                          token TOKEN_IDENTIFIER "c" 5 ] capacity))
      = Some (binop "-" (binop "-" (ident "a") (ident "b")) (ident "c")))
  /\ binop "-" (binop "-" (ident "a") (ident "b")) (ident "c")
     <> binop "-" (ident "a") (binop "-" (ident "b") (ident "c")).
Proof.
  split; [|split; [|split; [reflexivity | discriminate]]].
  - intros parser capacity first rest Hfirst Hrest result.
    unfold result, rift_parse, expression_tokens.
    change {| input_tokens := stream_of (term_tokens first ++ sum_tokens rest) capacity;
              current_position := 0;
              parser_governance := parser_governance parser |}
      with (cursor (parser_governance parser) capacity
              ([] ++ term_tokens first ++ sum_tokens rest) (length (@nil rift_token_t))).
    set (gov := parser_governance parser).
    unfold parse_expression, bind.
    rewrite (parse_term_shape gov capacity [] (sum_tokens rest) first Hfirst
               (head_not_multiplicative rest Hrest)).
    cbn [List.app length Nat.add].
    rewrite (parse_expression_loop_fold gov capacity rest (term_tokens first)
               (term_tree first) _ Hrest).
    + split; reflexivity.
    + unfold remaining, stream_count. cbn [input_tokens current_position stream_of tokens cursor].
      rewrite length_app. pose proof (sum_tokens_length rest). lia.
  - intros acc o t ops. unfold fold_ops. now rewrite fold_left_app.
Qed.

Lemma parse_left_associative_witness :
  fst (rift_parse (rift_parser_create rift_load_governance)
         (stream_of [ token TOKEN_NUMBER "8" 1; token TOKEN_OPERATOR "/" 2;
                      token TOKEN_NUMBER "4" 3; token TOKEN_OPERATOR "*" 4;
                      token TOKEN_IDENTIFIER "k" 5; token TOKEN_OPERATOR "-" 6;
                      token TOKEN_IDENTIFIER "m" 7; token TOKEN_OPERATOR "+" 8;
                      token TOKEN_NUMBER "1" 9 ] 10))
  = Some (binop "+"
            (binop "-"
               (binop "*" (binop "/" (number "8") (number "4")) (ident "k"))
               (ident "m"))
            (number "1")).
Proof.
  apply (proj1 parse_left_associative (rift_parser_create rift_load_governance) 10
           (token TOKEN_NUMBER "8" 1,
            [ (token TOKEN_OPERATOR "/" 2, token TOKEN_NUMBER "4" 3);
              (token TOKEN_OPERATOR "*" 4, token TOKEN_IDENTIFIER "k" 5) ])
           [ (token TOKEN_OPERATOR "-" 6, (token TOKEN_IDENTIFIER "m" 7, []));
             (token TOKEN_OPERATOR "+" 8, (token TOKEN_NUMBER "1" 9, [])) ]).
  - split; [reflexivity | repeat constructor].
  - repeat constructor.
Defined.

(** C10: a stream that holds a single Operator token [+] or [-] does not
    parse to an absent result: the root is a BinaryOp node carrying that
    operator, with no left and no right child. *)
Theorem parse_lone_additive_operator (parser : rift_parser_t) (capacity : nat)
  (t : rift_token_t) :
  token_type t = TOKEN_OPERATOR ->
  token_value t = "+" \/ token_value t = "-" ->
  fst (rift_parse parser (stream_of [t] capacity))
  = Some {| node_type := AST_BINARY_OP;
            node_value := token_value t;
            node_left := None;
            node_right := None |}.
Proof.
  destruct t as [ty v line col]; simpl. intros -> [-> | ->]; reflexivity.
Qed.

Lemma parse_lone_additive_operator_witness :
  fst (rift_parse (rift_parser_create rift_load_governance)
         (stream_of [token TOKEN_OPERATOR "-" 1] 10))
  = Some {| node_type := AST_BINARY_OP; node_value := "-";
            node_left := None; node_right := None |}.
Proof.
  apply (parse_lone_additive_operator (rift_parser_create rift_load_governance) 10
           (token TOKEN_OPERATOR "-" 1)).
  - reflexivity.
  - right. reflexivity.
Defined.

(** ** Tokenization *)

(** *** [strtok] returns the lexemes *)

Lemma is_delim_space (c : ascii) : CString.is_delim " " c = is_space c.
Proof. unfold CString.is_delim, is_space; simpl. apply orb_false_r. Qed.

Lemma span_token_length (s : string) :
  String.length (snd (CString.span_token " " s)) <= String.length s.
Proof.
  induction s as [|c s IH]; simpl; [lia|].
  destruct (CString.is_delim " " c); simpl; [lia|].
  destruct (CString.span_token " " s) as [t r]; simpl in *. lia.
Qed.

(** The token cut by [span_token] is the first field, and the lexemes of
    what it leaves are the lexemes of the other fields. *)
Lemma span_token_fields (s : string) :
  exists fs,
    fields is_space s = fst (CString.span_token " " s) :: fs
    /\ filter nonempty_string fs = lexemes is_space (snd (CString.span_token " " s)).
Proof.
  induction s as [|c s [fs [Hf Hl]]]; simpl.
  - exists []. split; reflexivity.
  - rewrite is_delim_space. destruct (is_space c); simpl.
    + exists (fields is_space s). split; reflexivity.
    + rewrite Hf. destruct (CString.span_token " " s) as [t r]; simpl in *.
      exists fs. split; [reflexivity | assumption].
Qed.

Lemma strtok_lexemes (s : string) :
  match CString.strtok " " s with
  | None => lexemes is_space s = []
  | Some (t, rest) =>
      lexemes is_space s = t :: lexemes is_space rest
      /\ String.length rest < String.length s
  end.
Proof.
  induction s as [|c s IH].
  - reflexivity.
  - unfold CString.strtok. cbn [CString.skip_delims]. rewrite is_delim_space.
    destruct (is_space c) eqn:Hc.
    + fold (CString.strtok " " s).
      assert (lexemes is_space (String c s) = lexemes is_space s) as ->
          by (unfold lexemes; simpl; now rewrite Hc).
      destruct (CString.strtok " " s) as [[t rest]|]; [|assumption].
      destruct IH as [IH1 IH2]. split; [assumption | simpl; lia].
    + cbn [CString.span_token]. rewrite is_delim_space, Hc.
      destruct (span_token_fields s) as [fs [Hf Hl]].
      pose proof (span_token_length s) as Hlen.
      destruct (CString.span_token " " s) as [t r]; simpl in *.
      unfold lexemes at 1; simpl. rewrite Hc, Hf; simpl.
      split; [now rewrite Hl | lia].
Qed.

Lemma strtok_calls_lexemes (fuel : nat) :
  forall s, String.length s < fuel -> CString.strtok_calls fuel " " s = lexemes is_space s.
Proof.
  induction fuel as [|k IH]; intros s Hlen; [lia|].
  simpl. pose proof (strtok_lexemes s) as H.
  destruct (CString.strtok " " s) as [[t rest]|].
  - destruct H as [-> Hrest]. f_equal. apply IH. lia.
  - now rewrite H.
Qed.

(** The successive results of [strtok] are the maximal runs of characters
    other than the space, in input order. *)
Lemma strtok_all_lexemes (s : string) :
  CString.strtok_all " " s = lexemes is_space s.
Proof. apply strtok_calls_lexemes. lia. Qed.

Lemma fields_no_separator (sep : ascii -> bool) (s : string) :
  Forall (fun f => forall c, In c (list_ascii_of_string f) -> sep c = false) (fields sep s).
Proof.
  induction s as [|c s IH]; simpl.
  - constructor; [intros c [] | constructor].
  - destruct (sep c) eqn:Hc.
    + constructor; [intros d [] | assumption].
    + destruct (fields sep s) as [|f fs]; simpl.
      * constructor; [|constructor]. intros d [<-|[]]. assumption.
      * inversion IH as [|? ? Hf Hfs]; subst. constructor; [|assumption].
        intros d [<-|Hd]; [assumption | now apply Hf].
Qed.

Lemma fields_characters (sep : ascii -> bool) (s : string) :
  Forall (fun f => forall c, In c (list_ascii_of_string f) -> In c (list_ascii_of_string s))
         (fields sep s).
Proof.
  induction s as [|c s IH]; simpl.
  - constructor; [intros c [] | constructor].
  - assert (Forall (fun f => forall d, In d (list_ascii_of_string f) ->
                                       c = d \/ In d (list_ascii_of_string s))
                   (fields sep s)) as IH'
        by (eapply Forall_impl; [|exact IH]; simpl; intros f Hf d Hd; right; now apply Hf).
    destruct (sep c).
    + constructor; [intros d [] | assumption].
    + destruct (fields sep s) as [|f fs]; simpl.
      * constructor; [|constructor]. intros d [<-|[]]. now left.
      * inversion IH' as [|? ? Hf Hfs]; subst. constructor; [|assumption].
        intros d [<-|Hd]; [now left | now apply Hf].
Qed.

Lemma lexemes_characters (sep : ascii -> bool) (s f : string) (c : ascii) :
  In f (lexemes sep s) -> In c (list_ascii_of_string f) -> In c (list_ascii_of_string s).
Proof.
  unfold lexemes. intros Hf Hc. apply filter_In in Hf. destruct Hf as [Hf _].
  pose proof (fields_characters sep s) as H. rewrite Forall_forall in H. now apply (H f).
Qed.

(** A lexeme is not empty and holds no separator. *)
Lemma lexemes_shape (sep : ascii -> bool) (s : string) :
  Forall (fun f => f <> EmptyString
                   /\ forall c, In c (list_ascii_of_string f) -> sep c = false)
         (lexemes sep s).
Proof.
  unfold lexemes. apply Forall_forall. intros f Hin. apply filter_In in Hin.
  destruct Hin as [Hin Hne]. split.
  - intros ->. discriminate.
  - pose proof (fields_no_separator sep s) as H. rewrite Forall_forall in H. now apply H.
Qed.

Lemma lexemes_all_separators (sep : ascii -> bool) (s : string) :
  (forall c, In c (list_ascii_of_string s) -> sep c = true) -> lexemes sep s = [].
Proof.
  unfold lexemes. induction s as [|c s IH]; intros H; simpl; [reflexivity|].
  rewrite (H c (or_introl eq_refl)). simpl. apply IH. intros d Hd. apply H. now right.
Qed.

Section TokenizerFacts.
Context {L : RegexLib}.

Lemma lexeme_guard_lexemes (s : string) :
  Forall (fun f => lexeme_guard f = true) (lexemes is_space s).
Proof.
  eapply Forall_impl; [|apply lexemes_shape]. simpl. intros f [Hne Hsep].
  destruct f as [|c f]; [congruence|]. simpl.
  specialize (Hsep c (or_introl eq_refl)). unfold is_space in Hsep. now rewrite Hsep.
Qed.

(** The loop appends one token per lexeme to the stream, growing the array
    by doubling when it is full. *)
Lemma tokenize_loop_tokens (tk : rift_tokenizer_t) (strs : list string) :
  forall stream,
    Forall (fun f => lexeme_guard f = true) strs ->
    tokens (tokenize_loop tk strs stream)
    = tokens stream ++ tokens_for tk (stream_count stream) strs.
Proof.
  induction strs as [|v rest IH]; intros stream Hall; simpl.
  - now rewrite app_nil_r.
  - inversion Hall as [|? ? Hv Hrest]; subst. rewrite Hv. rewrite IH by assumption.
    unfold stream_append, stream_reserve, new_token, stream_count; simpl.
    destruct (Nat.leb (stream_capacity stream) (length (tokens stream))); simpl;
      rewrite <- app_assoc, length_app; simpl;
      replace (length (tokens stream) + 1) with (S (length (tokens stream))) by lia;
      reflexivity.
Qed.

(** While the tokens fit the array as allocated, nothing is resized and
    the loop without resize gives the same stream. *)
Lemma tokenize_loop_within_capacity (tk : rift_tokenizer_t) (strs : list string) :
  forall stream,
    Forall (fun f => lexeme_guard f = true) strs ->
    stream_count stream + length strs <= stream_capacity stream ->
    tokenize_loop_fixed tk strs stream = Some (tokenize_loop tk strs stream).
Proof.
  induction strs as [|v rest IH]; intros stream Hall Hcap; simpl; [reflexivity|].
  inversion Hall as [|? ? Hv Hrest]; subst. rewrite Hv. simpl in Hcap.
  destruct (Nat.ltb_spec (stream_count stream) (stream_capacity stream)); [|lia].
  unfold stream_reserve.
  destruct (Nat.leb_spec (stream_capacity stream) (stream_count stream)); [lia|].
  apply IH; [assumption|].
  unfold stream_append, stream_count in *; simpl. rewrite length_app; simpl. lia.
Qed.

Lemma tokens_for_values (tk : rift_tokenizer_t) (strs : list string) :
  forall base, map token_value (tokens_for tk base strs) = strs.
Proof. induction strs as [|v rest IH]; intros base; simpl; [|rewrite IH]; reflexivity. Qed.




End TokenizerFacts.

(** Eleven lexemes: the variant without resize writes its eleventh token
    past the ten slots it allocated, the variant with resize doubles the
    array. *)
Lemma tokenize_fixed_eleven_lexemes :
  let input := "a b c d e f g h i j k" in
  rift_tokenize_fixed (L := Posix.lib) default_tokenizer input = None
  /\ stream_count (rift_tokenize (L := Posix.lib) default_tokenizer input) = 11
  /\ stream_capacity (rift_tokenize (L := Posix.lib) default_tokenizer input) = 20.
Proof. repeat split; reflexivity. Qed.







(** For an input made of spaces only (the empty input included) the
    tokenizer returns the empty stream, in both variants, and [rift_parse]
    on that stream returns no root node. *)
Lemma spaces_only_input (L : RegexLib) (tk : rift_tokenizer_t) (parser : rift_parser_t)
  (input : string) :
  (forall c, In c (list_ascii_of_string input) -> c = " "%char) ->
  rift_tokenize tk input = empty_stream
  /\ rift_tokenize_fixed tk input = Some empty_stream
  /\ fst (rift_parse parser (rift_tokenize tk input)) = None.
Proof.
  intros Hsp.
  assert (CString.strtok_all " " input = []) as Hno.
  { rewrite strtok_all_lexemes. apply lexemes_all_separators.
    intros c Hc. rewrite (Hsp c Hc). reflexivity. }
  unfold rift_tokenize, rift_tokenize_fixed. rewrite Hno. simpl.
  repeat split; reflexivity.
Qed.

(** C7, at the failing input.  The input that holds one horizontal tab
    holds only whitespace, yet the tokenizer does not return the empty
    stream: the tab is no separator for [strtok], the test that is meant
    to skip whitespace tokens only looks for a space, and one token comes
    out, whatever the states and the regular-expression library; with the
    states that [rift_tokenizer_create] builds and POSIX matching it is of
    Whitespace kind.  Both variants of the tokenizer do so.  [rift_parse]
    on that stream does return no root.  On inputs made of spaces only
    the stream is empty and there is no root. *)
Theorem whitespace_only_tab_input :
  let tab := String "009" EmptyString in
  (forall c, In c (list_ascii_of_string tab) -> isspace c = true)
  /\ (forall (L : RegexLib) (tk : rift_tokenizer_t),
      tokens (rift_tokenize tk tab) = [token (classify_states (states tk) tab) tab 1]
      /\ rift_tokenize_fixed tk tab = Some (rift_tokenize tk tab)
      /\ rift_tokenize tk tab <> empty_stream)
  /\ rift_tokenizer_create rift_load_governance = Some default_tokenizer
  /\ tokens (rift_tokenize (L := Posix.lib) default_tokenizer tab)
     = [token TOKEN_WHITESPACE tab 1]
  /\ fst (rift_parse (rift_parser_create rift_load_governance)
            (rift_tokenize (L := Posix.lib) default_tokenizer tab)) = None
  /\ (forall (L : RegexLib) (tk : rift_tokenizer_t) (parser : rift_parser_t) (input : string),
      (forall c, In c (list_ascii_of_string input) -> c = " "%char) ->
      rift_tokenize tk input = empty_stream
      /\ rift_tokenize_fixed tk input = Some empty_stream
      /\ fst (rift_parse parser (rift_tokenize tk input)) = None).
Proof.
  intros tab. split; [|split; [|split; [|split; [|split]]]].
  - intros c [<-|[]]. reflexivity.
  - intros L tk. repeat split. discriminate.
  - reflexivity.
  - reflexivity.
  - reflexivity.
  - intros L tk parser input. apply spaces_only_input.
Qed.

(** ** The pipeline on the reference input *)

(** C2, at the failing input.  The token stream Identifier [x],
    Operator [+], Number [2], Operator [*], Identifier [y] does parse to
    [BinaryOp (+, Identifier x, BinaryOp ( *, Number 2, Identifier y))],
    and the coordinator counts 5 nodes.  But that is not the stream
    produced from the input [x + 2 * y]: of the patterns that the
    governance configures for numbers and operators, the first, read as a
    POSIX extended expression, matches runs of the letter [d], and the
    second is rejected by [regcomp] for its range from the backslash to
    the star.  The tokenizer classifies [+], [2] and [*] as Unknown, the
    parser stops after [x], and the tree is the single node
    [Identifier x], counted 1. *)
Theorem precedence_example_program_stream :
  let input := "x + 2 * y" in
  let stream := rift_tokenize (L := Posix.lib) default_tokenizer input in
  let parser := rift_parser_create rift_load_governance in
  let coordinator := rift_ast_coordinator_create rift_load_governance in
  let expected := binop "+" (ident "x") (binop "*" (number "2") (ident "y")) in
  rift_tokenizer_create rift_load_governance = Some default_tokenizer
  /\ rift_tokenize_fixed (L := Posix.lib) default_tokenizer input = Some stream
  /\ tokens stream
     = [ token TOKEN_IDENTIFIER "x" 1; token TOKEN_UNKNOWN "+" 2; token TOKEN_UNKNOWN "2" 3;
         token TOKEN_UNKNOWN "*" 4; token TOKEN_IDENTIFIER "y" 5 ]
  /\ fst (rift_parse parser stream) = Some (ident "x")
  /\ fst (rift_parse parser stream) <> Some expected
  /\ node_count (fst (rift_coordinate_ast coordinator (fst (rift_parse parser stream)))) = 1
  /\ matches_pattern (L := Posix.lib) "^\d+$" "2" = false
  /\ matches_pattern (L := Posix.lib) "^\d+$" "dd" = true
  /\ Posix.comp "^[+\-*/]$" = None
  /\ (forall capacity : nat,
      let listed := stream_of [ token TOKEN_IDENTIFIER "x" 1; token TOKEN_OPERATOR "+" 2;
                                token TOKEN_NUMBER "2" 3; token TOKEN_OPERATOR "*" 4;
                                token TOKEN_IDENTIFIER "y" 5 ] capacity in
      fst (rift_parse parser listed) = Some expected
      /\ node_count (fst (rift_coordinate_ast coordinator (fst (rift_parse parser listed))))
         = 5).
Proof.
  intros input stream parser coordinator expected.
  repeat split; try reflexivity. discriminate.
Qed.

(** ** Coordination *)

(** C9: the coordination step returns the root it was given, the same
    tree; of the coordinator it writes the root reference and the node
    count, which becomes the number of nodes of the tree, and it leaves the
    governance reference and the pass setting as they were. *)
Theorem coordinate_returns_the_tree (coordinator : rift_ast_coordinator_t)
  (ast : option ast_node_t) :
  let result := rift_coordinate_ast coordinator ast in
  snd result = ast
  /\ coord_root (fst result) = ast
  /\ node_count (fst result) = count_ast_nodes ast
  /\ coord_governance (fst result) = coord_governance coordinator
  /\ optimization_passes (fst result) = optimization_passes coordinator
  /\ rift_generate_output (snd result) = rift_generate_output ast
  /\ snd (rift_coordinate_ast (fst result) (snd result)) = ast.
Proof. repeat split. Qed.

(** ** Rendering *)

Lemma ast_node_induction (P : ast_node_t -> Prop) :
  (forall ty value l r,
      match l with Some l' => P l' | None => True end ->
      match r with Some r' => P r' | None => True end ->
      P (Node ty value l r)) ->
  forall node, P node.
Proof.
  intros H. fix IH 1. intros [ty value l r]. apply H.
  - destruct l as [l'|]; [apply IH | exact I].
  - destruct r as [r'|]; [apply IH | exact I].
Qed.

Lemma string_app_assoc (a b c : string) : ((a ++ b) ++ c)%string = (a ++ (b ++ c))%string.
Proof. induction a as [|x a IH]; simpl; [reflexivity | now rewrite IH]. Qed.

Lemma unlines_app (l1 l2 : list string) :
  unlines (l1 ++ l2) = (unlines l1 ++ unlines l2)%string.
Proof.
  induction l1 as [|l l1 IH]; simpl; [reflexivity|].
  now rewrite IH, !string_app_assoc.
Qed.

Lemma print_indent_succ (k : nat) :
  print_indent (S k) = (print_indent k ++ "  ")%string.
Proof. induction k as [|k IH]; [reflexivity|]. simpl in *. now rewrite <- IH. Qed.

Lemma indent_deeper (k : nat) (ls : list string) :
  map (fun l => (print_indent k ++ l)%string) (map indent_line ls)
  = map (fun l => (print_indent (S k) ++ l)%string) ls.
Proof.
  rewrite map_map. apply map_ext. intros l. unfold indent_line.
  now rewrite print_indent_succ, string_app_assoc.
Qed.

(** The text printed for a node at a given depth is its lines, each one
    behind two spaces per level and ended by a newline. *)
Lemma string_app_nil_r (a : string) : (a ++ "")%string = a.
Proof. induction a as [|x a IH]; simpl; [reflexivity | now rewrite IH]. Qed.

Lemma print_node_lines (node : ast_node_t) :
  forall indent,
    print_node node indent
    = unlines (map (fun l => (print_indent indent ++ l)%string) (node_lines node)).
Proof.
  induction node as [ty value l r IHl IHr] using ast_node_induction. intros indent.
  destruct ty; cbn [print_node node_lines].
  - cbn [map unlines]. now rewrite !string_app_assoc, string_app_nil_r.
  - cbn [map unlines]. now rewrite !string_app_assoc, string_app_nil_r.
  - rewrite !map_app, !unlines_app, !indent_deeper.
    cbn [map unlines]. rewrite !string_app_assoc, string_app_nil_r.
    assert (match l with Some l' => print_node l' (S indent) | None => EmptyString end
            = unlines (map (fun s => (print_indent (S indent) ++ s)%string)
                           match l with Some l' => node_lines l' | None => [] end)) as ->
        by (destruct l; [apply IHl | reflexivity]).
    assert (match r with Some r' => print_node r' (S indent) | None => EmptyString end
            = unlines (map (fun s => (print_indent (S indent) ++ s)%string)
                           match r with Some r' => node_lines r' | None => [] end)) as ->
        by (destruct r; [apply IHr | reflexivity]).
    reflexivity.
  - cbn [map unlines]. now rewrite !string_app_assoc, string_app_nil_r.
Qed.

(** C8: the renderer produces the canonical nested form.  The output is
    the [(AST] line, the lines of the tree one level deep and the closing
    [)] line; an Identifier is the line [(Identifier v)], a Number the line
    [(Number v)], a BinaryOp the line [(BinOp op], then its left and its
    right child one level deeper, then [)] at its own level; a level is two
    spaces; the tree of [x + 2 * y] renders to the text of the example. *)
Theorem render_canonical_form :
  (forall ast, rift_generate_output ast = render ast)
  /\ (forall value l r indent,
      print_ast_recursive (Some (Node AST_IDENTIFIER value l r)) indent
      = (print_indent indent ++ "(Identifier " ++ value ++ ")" ++ nl)%string)
  /\ (forall value l r indent,
      print_ast_recursive (Some (Node AST_NUMBER value l r)) indent
      = (print_indent indent ++ "(Number " ++ value ++ ")" ++ nl)%string)
  /\ (forall op l r indent,
      print_ast_recursive (Some (Node AST_BINARY_OP op l r)) indent
      = (print_indent indent ++ "(BinOp " ++ op ++ nl
         ++ print_ast_recursive l (S indent)
         ++ print_ast_recursive r (S indent)
         ++ print_indent indent ++ ")" ++ nl)%string)
  /\ (forall indent,
      list_ascii_of_string (print_indent indent) = repeat " "%char (2 * indent))
  /\ rift_generate_output
       (Some (binop "+" (ident "x") (binop "*" (number "2") (ident "y"))))
     = "(AST
  (BinOp +
    (Identifier x)
    (BinOp *
      (Number 2)
      (Identifier y)
    )
  )
)
"%string.
Proof.
  split; [|split; [|split; [|split; [|split]]]]; try reflexivity.
  - intros ast. unfold rift_generate_output, render. simpl.
    rewrite unlines_app. simpl. f_equal. f_equal.
    destruct ast as [node|]; simpl; [|reflexivity].
    rewrite print_node_lines.
    change (fun l => ("  " ++ l)%string) with indent_line.
    replace (map indent_line (node_lines node))
      with (map (fun l => (print_indent 1 ++ l)%string) (node_lines node)); [reflexivity|].
    apply map_ext. reflexivity.
  - intros indent. induction indent as [|k IH]; [reflexivity|].
    simpl. rewrite IH. replace (k + S (k + 0)) with (S (2 * k)) by lia. reflexivity.
Qed.

(* ================================================================== *)
(** * Further properties *)

Import Shape.

(** ** What every run of the parser keeps *)

Lemma operator_among_true (a b : string) (tok : option rift_token_t) :
  operator_among a b tok = true ->
  exists t, tok = Some t /\ token_type t = TOKEN_OPERATOR
            /\ (token_value t = a \/ token_value t = b).
Proof.
  destruct tok as [t|]; [|discriminate]. simpl. intros H.
  apply andb_true_iff in H. destruct H as [Hty Hv]. exists t. split; [reflexivity|].
  split.
  - destruct (token_type t); try discriminate; reflexivity.
  - apply orb_true_iff in Hv. destruct Hv as [Hv|Hv]; apply String.eqb_eq in Hv; auto.
Qed.

Lemma parse_step_refl (left : option ast_node_t) (p : rift_parser_t) :
  parse_step left p (left, p).
Proof. unfold parse_step; simpl. repeat split; auto. Qed.

Lemma parse_factor_step (p : rift_parser_t) : parse_step None p (parse_factor p).
Proof.
  unfold parse_factor, bind, current_token, advance_token, ret.
  destruct (nth_error (tokens (input_tokens p)) (current_position p)) as [t|] eqn:Ht;
    [|apply parse_step_refl].
  assert (current_position p < stream_count (input_tokens p)) as Hlt
      by (apply nth_error_Some; congruence).
  apply Nat.ltb_lt in Hlt. apply nth_error_In in Ht.
  destruct (token_type t) eqn:Hty; try apply parse_step_refl;
    rewrite Hlt; unfold parse_step; simpl; apply Nat.ltb_lt in Hlt;
    (repeat split; try lia; try discriminate; intros; eauto).
Qed.

(** One round of a loop: the operator is consumed, the right operand is
    parsed by [operand], and the round's node takes the tree so far as its
    left child. *)
Lemma loop_round_step (a b : string) (operand : Parse (option ast_node_t))
  (left : option ast_node_t) (p : rift_parser_t) :
  In a operator_texts -> In b operator_texts ->
  (forall q, parse_step None q (operand q)) ->
  operator_among a b (fst (current_token p)) = true ->
  let p1 := snd (advance_token p) in
  let right := fst (operand p1) in
  parse_step left p
    (Some (binary_op (op_text (fst (current_token p))) left right), snd (operand p1)).
Proof.
  intros Ha Hb Hoperand Hop p1 right.
  destruct (operator_among_true a b _ Hop) as [t [Ht [Hty Hval]]].
  unfold current_token in Ht, Hop |- *; simpl in Ht, Hop |- *. rewrite Ht. simpl.
  assert (current_position p < stream_count (input_tokens p)) as Hlt
      by (apply nth_error_Some; congruence).
  assert (p1 = {| input_tokens := input_tokens p;
                  current_position := S (current_position p);
                  parser_governance := parser_governance p |}) as Hp1.
  { unfold p1, advance_token; simpl. apply Nat.ltb_lt in Hlt. now rewrite Hlt. }
  destruct (Hoperand p1) as [Htoks [Hgov [Hpos [Hbound [Hbuilt _]]]]].
  fold right in Hpos, Hbuilt. clearbody right. clearbody p1. subst p1.
  simpl in Htoks, Hgov, Hpos, Hbound, Hbuilt.
  unfold parse_step; simpl.
  split; [assumption|]. split; [assumption|]. split; [|split; [|split]].
  - destruct left, right; simpl in *; lia.
  - intros _. apply Hbound. unfold stream_count in *. lia.
  - intros Hleft. split; [|split; [|split]].
    + exists t. repeat split; auto. eapply nth_error_In; eassumption.
    + destruct Hval as [->| ->]; assumption.
    + destruct left; simpl in *; auto.
    + specialize (Hbuilt I). destruct right; simpl in *; auto.
  - discriminate.
Qed.

Lemma parse_step_trans (left mid : option ast_node_t) (p q : rift_parser_t)
  (res : option ast_node_t * rift_parser_t) :
  parse_step left p (mid, q) -> parse_step mid q res -> parse_step left p res.
Proof.
  unfold parse_step; simpl.
  intros [T1 [G1 [P1 [B1 [W1 N1]]]]] [T2 [G2 [P2 [B2 [W2 N2]]]]].
  rewrite T1 in *. repeat split; try congruence; try lia; auto.
Qed.

Lemma parse_term_loop_step (fuel : nat) :
  forall left p, parse_step left p (parse_term_loop fuel left p).
Proof.
  induction fuel as [|k IH]; intros left p; [apply parse_step_refl|].
  simpl. unfold bind. destruct (current_token p) as [tok p0] eqn:E.
  assert (p0 = p) as -> by (unfold current_token in E; congruence).
  assert (tok = fst (current_token p)) as Htok by (now rewrite E).
  destruct (operator_among "*" "/" tok) eqn:Hop; [|apply parse_step_refl].
  destruct (advance_token p) as [[] p1] eqn:E1.
  destruct (parse_factor p1) as [right p2] eqn:E2.
  eapply parse_step_trans; [|apply IH].
  pose proof (loop_round_step "*" "/" parse_factor left p) as Hround.
  rewrite E1, <- Htok in Hround. simpl in Hround. rewrite E2 in Hround. simpl in Hround.
  apply Hround; simpl; auto using parse_factor_step.
Qed.

Lemma parse_term_step (p : rift_parser_t) : parse_step None p (parse_term p).
Proof.
  unfold parse_term, bind. destruct (parse_factor p) as [left p1] eqn:E.
  eapply parse_step_trans; [|apply parse_term_loop_step].
  rewrite <- E. apply parse_factor_step.
Qed.

Lemma parse_expression_loop_step (fuel : nat) :
  forall left p, parse_step left p (parse_expression_loop fuel left p).
Proof.
  induction fuel as [|k IH]; intros left p; [apply parse_step_refl|].
  simpl. unfold bind. destruct (current_token p) as [tok p0] eqn:E.
  assert (p0 = p) as -> by (unfold current_token in E; congruence).
  assert (tok = fst (current_token p)) as Htok by (now rewrite E).
  destruct (operator_among "+" "-" tok) eqn:Hop; [|apply parse_step_refl].
  destruct (advance_token p) as [[] p1] eqn:E1.
  destruct (parse_term p1) as [right p2] eqn:E2.
  eapply parse_step_trans; [|apply IH].
  pose proof (loop_round_step "+" "-" parse_term left p) as Hround.
  rewrite E1, <- Htok in Hround. simpl in Hround. rewrite E2 in Hround. simpl in Hround.
  apply Hround; simpl; auto using parse_term_step.
Qed.

Lemma parse_expression_step (p : rift_parser_t) : parse_step None p (parse_expression p).
Proof.
  unfold parse_expression, bind. destruct (parse_term p) as [left p1] eqn:E.
  eapply parse_step_trans; [|apply parse_expression_loop_step].
  rewrite <- E. apply parse_term_step.
Qed.

(** X1: for every token stream, the tree that [rift_parse] returns has
    exactly as many nodes as tokens were consumed: the final cursor position
    is the node count, it never passes the end of the stream, and the
    stream itself is left as it was. *)
Theorem parse_nodes_are_consumed_tokens (parser : rift_parser_t) (toks : token_stream_t) :
  let result := rift_parse parser toks in
  count_ast_nodes (fst result) = current_position (snd result)
  /\ current_position (snd result) <= stream_count toks
  /\ input_tokens (snd result) = toks
  /\ parser_governance (snd result) = parser_governance parser.
Proof.
  intros result. unfold result, rift_parse.
  destruct (parse_expression_step
              {| input_tokens := toks; current_position := 0;
                 parser_governance := parser_governance parser |})
    as [Htoks [Hgov [Hpos [Hbound _]]]].
  simpl in *. repeat split; try assumption; [lia | apply Hbound; lia].
Qed.

(** X2: every tree that [rift_parse] returns is built from the tokens it
    was given: its leaves are childless Identifier and Number nodes carrying
    the text of a token of that kind, its inner nodes are BinaryOp nodes
    carrying the text of an Operator token among [+ - * /]; no UnaryOp node
    is ever produced. *)
Theorem parse_result_built_from_tokens (parser : rift_parser_t) (toks : token_stream_t)
  (root : ast_node_t) :
  fst (rift_parse parser toks) = Some root ->
  built_from (tokens toks) root.
Proof.
  unfold rift_parse. intros Hroot.
  destruct (parse_expression_step
              {| input_tokens := toks; current_position := 0;
                 parser_governance := parser_governance parser |})
    as [_ [_ [_ [_ [Hbuilt _]]]]].
  simpl in Hbuilt. rewrite Hroot in Hbuilt. now apply Hbuilt.
Qed.

Lemma parse_result_built_from_tokens_witness :
  built_from
    [ token TOKEN_IDENTIFIER "x" 1; token TOKEN_OPERATOR "*" 2; token TOKEN_OPERATOR "-" 3 ]
    {| node_type := AST_BINARY_OP; node_value := "-";
       node_left := Some {| node_type := AST_BINARY_OP; node_value := "*";
                            node_left := Some (ident "x"); node_right := None |};
       node_right := None |}.
Proof.
  apply (parse_result_built_from_tokens (rift_parser_create rift_load_governance)
           (stream_of [ token TOKEN_IDENTIFIER "x" 1; token TOKEN_OPERATOR "*" 2;
                        token TOKEN_OPERATOR "-" 3 ] 10)).
  reflexivity.
Defined.


Lemma operator_not_atom (a b : string) (t : rift_token_t) :
  operator_among a b (Some t) = true -> is_atom t = false.
Proof.
  intros H. destruct (operator_among_true a b _ H) as [t' [E [Hty _]]].
  injection E as <-. unfold is_atom. now rewrite Hty.
Qed.

Lemma parse_term_loop_keeps_some (fuel : nat) (left : ast_node_t) (p : rift_parser_t) :
  fst (parse_term_loop fuel (Some left) p) <> None.
Proof.
  destruct (parse_term_loop_step fuel (Some left) p) as [_ [_ [_ [_ [_ H]]]]].
  apply H. discriminate.
Qed.

Lemma parse_expression_loop_keeps_some (fuel : nat) (left : ast_node_t) (p : rift_parser_t) :
  fst (parse_expression_loop fuel (Some left) p) <> None.
Proof.
  destruct (parse_expression_loop_step fuel (Some left) p) as [_ [_ [_ [_ [_ H]]]]].
  apply H. discriminate.
Qed.

(** When [rift_parse] returns no root. *)
Lemma rift_parse_absent (parser : rift_parser_t) (toks : token_stream_t) :
  fst (rift_parse parser toks) = None <->
  match tokens toks with
  | [] => True
  | t :: _ => starts_tree t = false
  end.
Proof.
  unfold rift_parse. destruct toks as [[|t ts] cap]; simpl; [split; auto|].
  set (p := {| input_tokens := {| tokens := t :: ts; stream_capacity := cap |};
               current_position := 0;
               parser_governance := parser_governance parser |}).
  assert (current_token p = (Some t, p)) as Hcur by reflexivity.
  assert (remaining p = S (length ts)) as Hrem by reflexivity.
  unfold starts_tree.
  destruct (is_atom t) eqn:Hatom.
  - (* an atom: the first factor is a leaf *)
    split; [|discriminate]. intros Hnone. exfalso.
    unfold parse_expression, bind, parse_term, bind in Hnone.
    assert (nth_error (t :: ts) 0 = Some t) as Hnth by reflexivity.
    pose proof (parse_factor_atom (parser_governance parser) cap (t :: ts) 0 t Hnth Hatom) as Hf.
    change (cursor (parser_governance parser) cap (t :: ts) 0) with p in Hf.
    rewrite Hf in Hnone.
    destruct (parse_term_loop _ _ _) as [left p1] eqn:E1 in Hnone.
    pose proof (parse_term_loop_keeps_some
                  (remaining (cursor (parser_governance parser) cap (t :: ts) 1))
                  (leaf t) (cursor (parser_governance parser) cap (t :: ts) 1)) as Hsome.
    rewrite E1 in Hsome. simpl in Hsome. destruct left as [left|]; [|congruence].
    now apply (parse_expression_loop_keeps_some (remaining p1) left p1).
  - (* no atom: [parse_factor] returns nothing and stays *)
    assert (parse_factor p = (None, p)) as Hf
        by (apply parse_factor_none; rewrite Hcur; simpl; assumption).
    cbn [orb]. unfold parse_expression, bind, parse_term, bind. rewrite Hf, Hrem.
    destruct (operator_among "*" "/" (Some t)) eqn:Hmul.
    + (* [*] or [/] in front: the loop of [parse_term] takes it *)
      rewrite orb_true_r. split; [|discriminate]. intros Hnone. exfalso.
      simpl in Hnone. unfold bind in Hnone. rewrite Hcur, Hmul in Hnone.
      destruct (advance_token p) as [[] p1].
      destruct (parse_factor p1) as [right p2].
      destruct (parse_term_loop _ _ p2) as [left p3] eqn:E3 in Hnone.
      pose proof (parse_term_loop_keeps_some (length ts)
                    (binary_op (op_text (Some t)) None right) p2) as Hsome.
      rewrite E3 in Hsome. simpl in Hsome. destruct left as [left|]; [|congruence].
      now apply (parse_expression_loop_keeps_some (remaining p3) left p3).
    + rewrite orb_false_r.
      rewrite (parse_term_loop_stop (S (length ts)) None p)
        by (rewrite Hcur; exact Hmul).
      rewrite Hrem.
      destruct (operator_among "+" "-" (Some t)) eqn:Hadd.
      * (* [+] or [-] in front: the loop of [parse_expression] takes it *)
        split; [|discriminate]. intros Hnone. exfalso.
        simpl in Hnone. unfold bind in Hnone. rewrite Hcur, Hadd in Hnone.
        destruct (advance_token p) as [[] p1].
        destruct (parse_term p1) as [right p2].
        now apply (parse_expression_loop_keeps_some (length ts)
                     (binary_op (op_text (Some t)) None right) p2).
      * rewrite (parse_expression_loop_stop (S (length ts)) None p)
          by (rewrite Hcur; exact Hadd).
        split; reflexivity.
Qed.

(** X3: [rift_parse] returns no root exactly when the stream is empty or
    its first token can start nothing: it is not an Identifier, not a
    Number, and not an Operator token among [+ - * /].  (So a stream
    that begins with one of these operators does give a root.) *)
Theorem parse_absent_root (parser : rift_parser_t) (toks : token_stream_t) :
  fst (rift_parse parser toks) = None <->
  match tokens toks with
  | [] => True
  | t :: _ => starts_tree t = false
  end.
Proof. apply rift_parse_absent. Qed.


(** ** Tokens after a well-formed expression *)

Section TrailingTokens.
Variables (gov : rift_governance_t) (capacity : nat).

Lemma head_not_multiplicative_app (rest : list (rift_token_t * term_shape))
  (post : list rift_token_t) :
  sum_ok rest ->
  operator_among "*" "/" (nth_error post 0) = false ->
  operator_among "*" "/" (nth_error (sum_tokens rest ++ post) 0) = false.
Proof.
  destruct rest as [|[o t] rest]; simpl; [auto|].
  intros H _. inversion H as [|? ? [Ho _] _]; subst. simpl in Ho.
  now apply additive_not_multiplicative.
Qed.

(** The loop of [parse_expression] runs through a run of [+] and [-]
    applications of terms whatever comes after it, as long as that is not
    a [*] or a [/]. *)
Lemma parse_expression_loop_prefix (rest : list (rift_token_t * term_shape)) :
  forall (pre post : list rift_token_t) (acc : ast_node_t) (k : nat),
    sum_ok rest ->
    operator_among "*" "/" (nth_error post 0) = false ->
    parse_expression_loop (length rest + k) (Some acc)
      (cursor gov capacity (pre ++ sum_tokens rest ++ post) (length pre))
    = parse_expression_loop k (Some (fold_terms rest acc))
        (cursor gov capacity (pre ++ sum_tokens rest ++ post)
           (length pre + length (sum_tokens rest))).
Proof.
  induction rest as [|[o t] rest IH]; intros pre post acc k Hok Hpost.
  - simpl. now rewrite Nat.add_0_r.
  - inversion Hok as [|? ? [Ho Ht] Hrest]; subst. cbn [fst snd] in Ho, Ht.
    cbn [sum_tokens length Nat.add parse_expression_loop]. unfold bind at 1.
    replace (pre ++ (o :: term_tokens t ++ sum_tokens rest) ++ post)
      with (pre ++ o :: term_tokens t ++ sum_tokens rest ++ post)
      by (simpl; now rewrite <- app_assoc).
    rewrite current_token_at, nth_error_middle.
    unfold is_operator in Ho. rewrite Ho.
    unfold bind at 1. rewrite advance_token_at by (rewrite length_app; simpl; lia).
    unfold bind at 1.
    change (op_text (Some o)) with (token_value o).
    replace (pre ++ o :: term_tokens t ++ sum_tokens rest ++ post)
      with ((pre ++ [o]) ++ term_tokens t ++ sum_tokens rest ++ post)
      by (now rewrite <- app_assoc).
    replace (S (length pre)) with (length (pre ++ [o]))
      by (rewrite length_app; simpl; lia).
    rewrite (parse_term_shape gov capacity (pre ++ [o]) (sum_tokens rest ++ post) t Ht
               (head_not_multiplicative_app rest post Hrest Hpost)).
    replace ((pre ++ [o]) ++ term_tokens t ++ sum_tokens rest ++ post)
      with (((pre ++ [o]) ++ term_tokens t) ++ sum_tokens rest ++ post)
      by (now rewrite <- (app_assoc (pre ++ [o]))).
    replace (length (pre ++ [o]) + length (term_tokens t))
      with (length ((pre ++ [o]) ++ term_tokens t))
      by (now rewrite (length_app (pre ++ [o]))).
    rewrite (IH ((pre ++ [o]) ++ term_tokens t) post
               (binary_op (token_value o) (Some acc) (Some (term_tree t))) k Hrest Hpost).
    f_equal. f_equal. rewrite ?length_app. simpl. rewrite ?length_app. lia.
Qed.

(** The parser on a well-formed expression followed by [post]: the first
    term and the run are consumed, and the loop goes on from there with what
    is left of its bound. *)
Lemma parse_expression_prefix (first : term_shape) (rest : list (rift_token_t * term_shape))
  (post : list rift_token_t) :
  term_ok first -> sum_ok rest ->
  operator_among "*" "/" (nth_error post 0) = false ->
  parse_expression (cursor gov capacity (expression_tokens first rest ++ post) 0)
  = parse_expression_loop (length (sum_tokens rest ++ post) - length rest)
      (Some (expression_tree first rest))
      (cursor gov capacity (expression_tokens first rest ++ post)
         (length (expression_tokens first rest))).
Proof.
  intros Hfirst Hrest Hpost. unfold expression_tokens, expression_tree.
  rewrite <- app_assoc.
  change (cursor gov capacity (term_tokens first ++ sum_tokens rest ++ post) 0)
    with (cursor gov capacity ([] ++ term_tokens first ++ sum_tokens rest ++ post)
            (length (@nil rift_token_t))).
  unfold parse_expression, bind.
  rewrite (parse_term_shape gov capacity [] (sum_tokens rest ++ post) first Hfirst
             (head_not_multiplicative_app rest post Hrest Hpost)).
  cbn [List.app length Nat.add].
  assert (length rest <= length (sum_tokens rest ++ post)) as Hlen
      by (rewrite length_app; pose proof (sum_tokens_length rest); lia).
  replace (remaining (cursor gov capacity (term_tokens first ++ sum_tokens rest ++ post)
                        (length (term_tokens first))))
    with (length rest + (length (sum_tokens rest ++ post) - length rest)).
  - rewrite (parse_expression_loop_prefix rest (term_tokens first) post
               (term_tree first) _ Hrest Hpost).
    now rewrite (length_app (term_tokens first) (sum_tokens rest)).
  - unfold remaining, stream_count; simpl. rewrite !length_app in *. lia.
Qed.

End TrailingTokens.

(** X4: tokens that follow a well-formed expression are ignored when the
    first of them is not an operator [+ - * /]: [rift_parse] returns the
    tree of the expression and leaves the cursor on that token, without an
    error. *)
Theorem parse_ignores_trailing_tokens (parser : rift_parser_t) (capacity : nat)
  (first : term_shape) (rest : list (rift_token_t * term_shape)) (junk : list rift_token_t) :
  term_ok first -> sum_ok rest ->
  operator_among "+" "-" (nth_error junk 0) = false ->
  operator_among "*" "/" (nth_error junk 0) = false ->
  let result := rift_parse parser (stream_of (expression_tokens first rest ++ junk) capacity) in
  fst result = Some (expression_tree first rest)
  /\ current_position (snd result) = length (expression_tokens first rest).
Proof.
  intros Hfirst Hrest Hadd Hmul result. unfold result, rift_parse.
  change {| input_tokens := stream_of (expression_tokens first rest ++ junk) capacity;
            current_position := 0;
            parser_governance := parser_governance parser |}
    with (cursor (parser_governance parser) capacity (expression_tokens first rest ++ junk) 0).
  rewrite (parse_expression_prefix _ _ first rest junk Hfirst Hrest Hmul).
  rewrite parse_expression_loop_stop; [split; reflexivity|].
  rewrite current_token_at; cbn [fst]. now rewrite nth_error_after.
Qed.

Lemma parse_ignores_trailing_tokens_witness :
  let result :=
    rift_parse (rift_parser_create rift_load_governance)
      (stream_of [ token TOKEN_IDENTIFIER "a" 1; token TOKEN_OPERATOR "+" 2;
                   token TOKEN_NUMBER "1" 3; token TOKEN_IDENTIFIER "b" 4;
                   token TOKEN_OPERATOR "*" 5; token TOKEN_NUMBER "2" 6 ] 10) in
  fst result = Some (binop "+" (ident "a") (number "1"))
  /\ current_position (snd result) = 3.
Proof.
  apply (parse_ignores_trailing_tokens (rift_parser_create rift_load_governance) 10
           (token TOKEN_IDENTIFIER "a" 1, [])
           [ (token TOKEN_OPERATOR "+" 2, (token TOKEN_NUMBER "1" 3, [])) ]
           [ token TOKEN_IDENTIFIER "b" 4; token TOKEN_OPERATOR "*" 5;
             token TOKEN_NUMBER "2" 6 ]).
  - split; [reflexivity | constructor].
  - repeat constructor.
  - reflexivity.
  - reflexivity.
Defined.

(** X5: a well-formed expression that ends in a dangling [+] or [-] parses
    to a BinaryOp of that operator whose left child is the tree of the
    expression and whose right child is absent; every token is consumed
    and no error is raised. *)
Theorem parse_dangling_operator (parser : rift_parser_t) (capacity : nat)
  (first : term_shape) (rest : list (rift_token_t * term_shape)) (o : rift_token_t) :
  term_ok first -> sum_ok rest ->
  is_operator "+" "-" o = true ->
  let result := rift_parse parser (stream_of (expression_tokens first rest ++ [o]) capacity) in
  fst result
  = Some {| node_type := AST_BINARY_OP; node_value := token_value o;
            node_left := Some (expression_tree first rest); node_right := None |}
  /\ current_position (snd result) = S (length (expression_tokens first rest)).
Proof.
  intros Hfirst Hrest Ho result. unfold result, rift_parse.
  change {| input_tokens := stream_of (expression_tokens first rest ++ [o]) capacity;
            current_position := 0;
            parser_governance := parser_governance parser |}
    with (cursor (parser_governance parser) capacity (expression_tokens first rest ++ [o]) 0).
  set (gov := parser_governance parser).
  rewrite (parse_expression_prefix gov capacity first rest [o] Hfirst Hrest
             (additive_not_multiplicative o Ho)).
  assert (exists k, length (sum_tokens rest ++ [o]) - length rest = S k) as [k ->].
  { exists (length (sum_tokens rest) - length rest).
    rewrite length_app. pose proof (sum_tokens_length rest). simpl. lia. }
  set (ts := expression_tokens first rest ++ [o]).
  assert (length ts = S (length (expression_tokens first rest))) as Hlen
      by (unfold ts; rewrite length_app; simpl; lia).
  assert (nth_error ts (length (expression_tokens first rest)) = Some o) as Hcur
      by (unfold ts; apply nth_error_middle).
  assert (nth_error ts (S (length (expression_tokens first rest))) = None) as Hend
      by (apply nth_error_None; lia).
  assert (parse_term (cursor gov capacity ts (S (length (expression_tokens first rest))))
          = (None, cursor gov capacity ts (S (length (expression_tokens first rest)))))
    as Hterm.
  { unfold parse_term, bind.
    rewrite parse_factor_none by (rewrite current_token_at; cbn [fst]; now rewrite Hend).
    apply parse_term_loop_stop. rewrite current_token_at; cbn [fst]. now rewrite Hend. }
  assert (parse_expression_loop (S k) (Some (expression_tree first rest))
            (cursor gov capacity ts (length (expression_tokens first rest)))
          = (Some (binary_op (token_value o) (Some (expression_tree first rest)) None),
             cursor gov capacity ts (S (length (expression_tokens first rest))))) as ->.
  { cbn [parse_expression_loop]. unfold bind.
    rewrite current_token_at, Hcur. unfold is_operator in Ho. rewrite Ho.
    rewrite advance_token_at by lia. rewrite Hterm.
    apply parse_expression_loop_stop.
    rewrite current_token_at; cbn [fst]. now rewrite Hend. }
  split; reflexivity.
Qed.

Lemma parse_dangling_operator_witness :
  fst (rift_parse (rift_parser_create rift_load_governance)
         (stream_of [ token TOKEN_IDENTIFIER "a" 1; token TOKEN_OPERATOR "*" 2;
                      token TOKEN_NUMBER "3" 3; token TOKEN_OPERATOR "-" 4 ] 10))
  = Some {| node_type := AST_BINARY_OP; node_value := "-";
            node_left := Some (binop "*" (ident "a") (number "3")); node_right := None |}.
Proof.
  apply (parse_dangling_operator (rift_parser_create rift_load_governance) 10
           (token TOKEN_IDENTIFIER "a" 1,
            [ (token TOKEN_OPERATOR "*" 2, token TOKEN_NUMBER "3" 3) ])
           [] (token TOKEN_OPERATOR "-" 4)).
  - split; [reflexivity | repeat constructor].
  - constructor.
  - reflexivity.
Defined.

(** ** The tokenizer: capacity, overflow, round trip *)

Section StreamFacts.
Context {L : RegexLib}.

Lemma tokens_for_length (tk : rift_tokenizer_t) (strs : list string) :
  forall base, length (tokens_for tk base strs) = length strs.
Proof. induction strs as [|v rest IH]; intros base; simpl; [|rewrite IH]; reflexivity. Qed.

Lemma tokenize_tokens (tk : rift_tokenizer_t) (input : string) :
  tokens (rift_tokenize tk input) = tokens_for tk 0 (lexemes is_space input).
Proof.
  unfold rift_tokenize. rewrite strtok_all_lexemes.
  now rewrite (tokenize_loop_tokens tk _ empty_stream (lexeme_guard_lexemes input)).
Qed.

Lemma tokenize_count (tk : rift_tokenizer_t) (input : string) :
  stream_count (rift_tokenize tk input) = length (lexemes is_space input).
Proof. unfold stream_count. rewrite tokenize_tokens. apply tokens_for_length. Qed.

Lemma least_capacity_initial : Pipeline.least_capacity 0 10.
Proof. exists 0. repeat split; [lia | now left]. Qed.

(** One more token in an array that is doubled when full. *)
Lemma least_capacity_push (count capacity : nat) :
  Pipeline.least_capacity count capacity ->
  Pipeline.least_capacity (S count)
    (if Nat.leb capacity count then 2 * capacity else capacity).
Proof.
  intros [k [Hcap [Hle Hmin]]].
  assert (2 ^ k <> 0) as Hpow by (apply Nat.pow_nonzero; discriminate).
  destruct (Nat.leb_spec capacity count) as [Hfull|Hroom].
  - exists (S k). rewrite Nat.pow_succ_r'. repeat split; lia.
  - exists k. repeat split; lia.
Qed.

Lemma tokenize_loop_capacity (tk : rift_tokenizer_t) (strs : list string) :
  forall stream,
    Pipeline.least_capacity (stream_count stream) (stream_capacity stream) ->
    Pipeline.least_capacity (stream_count (tokenize_loop tk strs stream))
                            (stream_capacity (tokenize_loop tk strs stream)).
Proof.
  induction strs as [|v rest IH]; intros stream Hinv; simpl; [assumption|].
  apply IH. destruct (lexeme_guard v); [|assumption].
  apply least_capacity_push in Hinv.
  unfold stream_append, stream_reserve, stream_count in *.
  destruct (Nat.leb (stream_capacity stream) (length (tokens stream)));
    simpl; rewrite length_app; simpl; rewrite Nat.add_1_r; exact Hinv.
Qed.

Lemma process_loop_capacity (processor : Staged.rift_stage0_processor_t) (strs : list string) :
  forall stream,
    Pipeline.least_capacity (length (Staged.tokens stream)) (Staged.stream_capacity stream) ->
    Pipeline.least_capacity
      (length (Staged.tokens (Staged.process_loop processor strs stream)))
      (Staged.stream_capacity (Staged.process_loop processor strs stream)).
Proof.
  induction strs as [|v rest IH]; intros stream Hinv; simpl; [assumption|].
  apply IH. destruct (lexeme_guard v); [|assumption].
  apply least_capacity_push in Hinv.
  simpl; rewrite length_app; simpl; rewrite Nat.add_1_r; exact Hinv.
Qed.

(** Past the allocated slots the loop without resize writes outside the
    array. *)
Lemma tokenize_loop_fixed_overflow (tk : rift_tokenizer_t) (strs : list string) :
  forall stream,
    Forall (fun f => lexeme_guard f = true) strs ->
    stream_count stream <= stream_capacity stream ->
    stream_capacity stream < stream_count stream + length strs ->
    tokenize_loop_fixed tk strs stream = None.
Proof.
  induction strs as [|v rest IH]; intros stream Hall Hle Hover; simpl in *; [lia|].
  inversion Hall as [|? ? Hv Hrest]; subst. rewrite Hv.
  destruct (Nat.ltb_spec (stream_count stream) (stream_capacity stream)); [|reflexivity].
  apply IH; [assumption| |];
    unfold stream_append, stream_count in *; simpl; rewrite length_app; simpl; lia.
Qed.

End StreamFacts.

(** X6: the token array that [rift_tokenize] and [rift_stage0_process]
    return always has the least capacity of the form [10 * 2 ^ k] that
    holds the tokens: it starts at 10, is doubled only when a token would
    not fit, and the count never exceeds it. *)
Theorem tokenize_capacity_is_least (L : RegexLib) (tk : rift_tokenizer_t)
  (processor : Staged.rift_stage0_processor_t) (input : string) :
  Pipeline.least_capacity (stream_count (rift_tokenize tk input))
                          (stream_capacity (rift_tokenize tk input))
  /\ Pipeline.least_capacity
       (length (Staged.tokens (Staged.rift_stage0_process processor input)))
       (Staged.stream_capacity (Staged.rift_stage0_process processor input)).
Proof.
  split.
  - apply tokenize_loop_capacity. exact least_capacity_initial.
  - apply process_loop_capacity. exact least_capacity_initial.
Qed.

(** X7: the tokenizer of [rift_sim.c], which never resizes its array of
    10 tokens, writes outside the array exactly when the input has more
    than 10 lexemes; otherwise it returns the stream of the resizing
    tokenizer. *)
Theorem tokenize_fixed_overflows (L : RegexLib) (tk : rift_tokenizer_t) (input : string) :
  (rift_tokenize_fixed tk input = None <-> 10 < length (lexemes is_space input))
  /\ (forall stream, rift_tokenize_fixed tk input = Some stream ->
                     stream = rift_tokenize tk input /\ stream_capacity stream = 10).
Proof.
  assert (length (lexemes is_space input) <= 10 ->
          rift_tokenize_fixed tk input = Some (rift_tokenize tk input)) as Hfit.
  { intros Hle. unfold rift_tokenize_fixed, rift_tokenize. rewrite strtok_all_lexemes.
    apply tokenize_loop_within_capacity; [apply lexeme_guard_lexemes | simpl; lia]. }
  assert (10 < length (lexemes is_space input) -> rift_tokenize_fixed tk input = None) as Hover.
  { intros Hlt. unfold rift_tokenize_fixed. rewrite strtok_all_lexemes.
    apply tokenize_loop_fixed_overflow;
      [apply lexeme_guard_lexemes | cbv; lia | cbn [empty_stream stream_capacity]; exact Hlt]. }
  split.
  - split; [|exact Hover]. intros Hnone.
    destruct (Nat.le_gt_cases (length (lexemes is_space input)) 10) as [Hle|Hlt];
      [|exact Hlt].
    rewrite (Hfit Hle) in Hnone. discriminate.
  - intros stream Hsome.
    destruct (Nat.le_gt_cases (length (lexemes is_space input)) 10) as [Hle|Hlt].
    + rewrite (Hfit Hle) in Hsome. injection Hsome as <-. split; [reflexivity|].
      destruct (tokenize_loop_capacity tk (CString.strtok_all " " input) empty_stream)
        as [k [Hcap [Hcount Hmin]]]; [exact least_capacity_initial|].
      fold (rift_tokenize tk input) in Hcap, Hcount, Hmin.
      rewrite tokenize_count in Hcount, Hmin.
      destruct Hmin as [->|Hmin]; [exact Hcap|].
      destruct k as [|k]; [exact Hcap|].
      rewrite Nat.pow_succ_r' in Hcap. lia.
    + rewrite (Hover Hlt) in Hsome. discriminate.
Qed.

(** *** Joining the token values and tokenizing again *)

Lemma fields_no_sep (sep : ascii -> bool) (v : string) :
  (forall c, In c (list_ascii_of_string v) -> sep c = false) ->
  fields sep v = [v].
Proof.
  induction v as [|c v IH]; intros Hv; simpl; [reflexivity|].
  rewrite (Hv c (or_introl eq_refl)).
  rewrite IH by (intros d Hd; apply Hv; now right). reflexivity.
Qed.

Lemma fields_app_sep (sep : ascii -> bool) (v : string) (c : ascii) (rest : string) :
  (forall d, In d (list_ascii_of_string v) -> sep d = false) ->
  sep c = true ->
  fields sep (v ++ String c rest)%string = v :: fields sep rest.
Proof.
  induction v as [|d v IH]; intros Hv Hc; simpl.
  - now rewrite Hc.
  - rewrite (Hv d (or_introl eq_refl)).
    rewrite IH by (try assumption; intros e He; apply Hv; now right). reflexivity.
Qed.

(** Lexemes joined by single separators are found again. *)
Lemma lexemes_concat (vs : list string) :
  Forall (fun f => f <> EmptyString
                   /\ forall c, In c (list_ascii_of_string f) -> is_space c = false) vs ->
  lexemes is_space (String.concat " " vs) = vs.
Proof.
  induction 1 as [|v vs [Hne Hv] Hvs IH]; [reflexivity|].
  destruct vs as [|w vs].
  - simpl. unfold lexemes. rewrite fields_no_sep by assumption. simpl.
    destruct v; [congruence | reflexivity].
  - change (String.concat " " (v :: w :: vs))
      with (v ++ String " " (String.concat " " (w :: vs)))%string.
    unfold lexemes in *. rewrite fields_app_sep by (try assumption; reflexivity).
    cbn [filter]. rewrite IH. destruct v; [congruence | reflexivity].
Qed.

(** X8: tokenizing is idempotent up to spacing: the values of the tokens,
    joined by single spaces and tokenized again, give the same stream
    (kinds, lines, columns and capacity included). *)
Theorem tokenize_joined_values (L : RegexLib) (tk : rift_tokenizer_t) (input : string) :
  rift_tokenize tk (String.concat " " (map token_value (tokens (rift_tokenize tk input))))
  = rift_tokenize tk input.
Proof.
  rewrite tokenize_tokens, tokens_for_values.
  unfold rift_tokenize. rewrite !strtok_all_lexemes.
  now rewrite (lexemes_concat _ (lexemes_shape is_space input)).
Qed.

(** ** Creating the tokenizer *)

Lemma config_scan_absent (es : list rift_config_entry_t) (key : string) :
  config_scan es key = None <-> Forall (fun e => entry_intention e <> key) es.
Proof.
  split; [|apply config_scan_none].
  induction es as [|e es IH]; simpl; intros H; [constructor|].
  destruct (String.eqb_spec (entry_intention e) key); [discriminate|].
  constructor; [assumption | now apply IH].
Qed.

(** X9: [rift_tokenizer_create] dereferences a NULL configuration value
    exactly when the governance holds no entry for one of the three
    recognition intentions.  Otherwise the tokenizer has four final states
    numbered 0 to 3, of kinds Identifier, Number, Operator and Whitespace in
    that order, whose patterns are the three configured values followed by
    the built-in whitespace pattern, whatever else the governance holds. *)
Theorem tokenizer_create_needs_intentions (gov : rift_governance_t) :
  (rift_tokenizer_create gov = None <->
   exists key,
     In key ["IDENTIFIER_RECOGNITION"; "NUMBER_RECOGNITION"; "OPERATOR_RECOGNITION"]%string
     /\ Forall (fun e => entry_intention e <> key) (gov_entries gov))
  /\ (forall tk,
      rift_tokenizer_create gov = Some tk ->
      map state_type (states tk)
      = [TOKEN_IDENTIFIER; TOKEN_NUMBER; TOKEN_OPERATOR; TOKEN_WHITESPACE]
      /\ map state_id (states tk) = [0; 1; 2; 3]
      /\ Forall (fun st => is_final st = true) (states tk)
      /\ map (fun st => Some (state_pattern st)) (states tk)
         = [ rift_get_config_value gov "IDENTIFIER_RECOGNITION";
             rift_get_config_value gov "NUMBER_RECOGNITION";
             rift_get_config_value gov "OPERATOR_RECOGNITION";
             Some "^\s+$"%string ]
      /\ tokenizer_governance tk = gov).
Proof.
  unfold rift_tokenizer_create, rift_get_config_value.
  destruct (config_scan (gov_entries gov) "IDENTIFIER_RECOGNITION") as [p0|] eqn:E0;
    [destruct (config_scan (gov_entries gov) "NUMBER_RECOGNITION") as [p1|] eqn:E1;
     [destruct (config_scan (gov_entries gov) "OPERATOR_RECOGNITION") as [p2|] eqn:E2|]|].
  - split.
    + split; [discriminate|]. intros [key [Hkey Hall]].
      apply config_scan_absent in Hall.
      destruct Hkey as [<-|[<-|[<-|[]]]]; congruence.
    + intros tk [= <-]. cbn [states map mk_state state_type state_id state_pattern
                              tokenizer_governance].
      repeat split. repeat constructor.
  - split; [|discriminate]. split; [|reflexivity]. intros _.
    exists "OPERATOR_RECOGNITION"%string. split; [simpl; auto | now apply config_scan_absent].
  - split; [|discriminate]. split; [|reflexivity]. intros _.
    exists "NUMBER_RECOGNITION"%string. split; [simpl; auto | now apply config_scan_absent].
  - split; [|discriminate]. split; [|reflexivity]. intros _.
    exists "IDENTIFIER_RECOGNITION"%string. split; [simpl; auto | now apply config_scan_absent].
Qed.

(** ** The pipeline as a whole *)

Lemma tokenizer_create_default : rift_tokenizer_create rift_load_governance = Some default_tokenizer.
Proof. reflexivity. Qed.

Lemma rift_parse_step (parser : rift_parser_t) (toks : token_stream_t) :
  parse_step None
    {| input_tokens := toks; current_position := 0;
       parser_governance := parser_governance parser |}
    (rift_parse parser toks).
Proof. apply parse_expression_step. Qed.

Lemma rift_parse_count (parser : rift_parser_t) (toks : token_stream_t) :
  count_ast_nodes (fst (rift_parse parser toks)) = current_position (snd (rift_parse parser toks))
  /\ count_ast_nodes (fst (rift_parse parser toks)) <= stream_count toks.
Proof.
  destruct (rift_parse_step parser toks) as [_ [_ [Hpos [Hbound _]]]].
  cbn [input_tokens current_position count_ast_nodes] in Hpos, Hbound.
  specialize (Hbound (Nat.le_0_l _)). lia.
Qed.

(** X10: through tokenizer, parser and coordinator, the node count that
    the coordinator records is the number of tokens the parser consumed,
    and never exceeds the number of lexemes of the input text. *)
Theorem pipeline_node_count (L : RegexLib) (tk : rift_tokenizer_t) (parser : rift_parser_t)
  (coordinator : rift_ast_coordinator_t) (input : string) :
  let parsed := rift_parse parser (rift_tokenize tk input) in
  let coordinated := rift_coordinate_ast coordinator (fst parsed) in
  node_count (fst coordinated) = current_position (snd parsed)
  /\ node_count (fst coordinated) <= length (lexemes is_space input).
Proof.
  intros parsed coordinated. unfold coordinated, parsed. cbn [rift_coordinate_ast fst node_count].
  destruct (rift_parse_count parser (rift_tokenize tk input)) as [Hpos Hbound].
  rewrite tokenize_count in Hbound. split; assumption.
Qed.

Lemma count_nodes_positive (node : ast_node_t) : 1 <= count_nodes node.
Proof. destruct node; simpl; lia. Qed.

Lemma tokenize_first_token (L : RegexLib) (tk : rift_tokenizer_t) (input : string) :
  match lexemes is_space input with
  | [] => tokens (rift_tokenize tk input) = []
  | v :: _ =>
      exists rest, tokens (rift_tokenize tk input)
                   = token (classify_states (states tk) v) v 1 :: rest
  end.
Proof.
  rewrite tokenize_tokens. destruct (lexemes is_space input) as [|v vs]; simpl; [reflexivity|].
  eexists. reflexivity.
Qed.

(** X11: the standalone [main], run on any source text, never crashes; it
    exits with status 1 exactly when the text has no lexeme or its first
    lexeme is classified as something that starts no expression, and with
    status 0 otherwise, the coordinator then recording between one node and
    as many nodes as there are lexemes. *)
Theorem main_exit_status (L : RegexLib) (input : string) :
  exists run,
    Pipeline.main_on input = Some run
    /\ (Pipeline.exit_status run = 1%Z
        <-> match lexemes is_space input with
            | [] => True
            | v :: _ =>
                starts_tree (token (classify_states (states default_tokenizer) v) v 1) = false
            end)
    /\ (Pipeline.exit_status run = 1%Z
        \/ (Pipeline.exit_status run = 0%Z
            /\ 1 <= Pipeline.coordinated_nodes run <= length (lexemes is_space input))).
Proof.
  unfold Pipeline.main_on. rewrite tokenizer_create_default.
  set (parser := rift_parser_create rift_load_governance).
  pose proof (rift_parse_absent parser (rift_tokenize default_tokenizer input)) as Habsent.
  pose proof (tokenize_first_token L default_tokenizer input) as Hfirst.
  pose proof (rift_parse_count parser (rift_tokenize default_tokenizer input)) as [_ Hbound].
  rewrite tokenize_count in Hbound.
  destruct (fst (rift_parse parser (rift_tokenize default_tokenizer input))) as [ast|].
  - eexists. split; [reflexivity|]. cbn [Pipeline.exit_status Pipeline.coordinated_nodes
                                         rift_coordinate_ast node_count].
    split.
    + split; [discriminate|]. intros Hstart. exfalso.
      assert (Some ast = None) as Hnone; [|discriminate].
      apply Habsent. destruct (lexemes is_space input) as [|v vs].
      * now rewrite Hfirst.
      * destruct Hfirst as [rest ->]. exact Hstart.
    + right. split; [reflexivity|]. cbn [count_ast_nodes] in *.
      split; [apply count_nodes_positive | exact Hbound].
  - eexists. split; [reflexivity|]. cbn [Pipeline.exit_status]. split; [|now left].
    split; [|reflexivity]. intros _.
    destruct Habsent as [Habsent _]. specialize (Habsent eq_refl).
    destruct (lexemes is_space input) as [|v vs]; [exact I|].
    destruct Hfirst as [rest Hrest]. rewrite Hrest in Habsent. exact Habsent.
Qed.

(** X12: the [main] of [rift_sim.c] against the standalone one, on any
    source text.  With more than 10 lexemes it writes outside the token
    array.  Otherwise it always exits with status 0: with the same node
    count and rendering when the standalone [main] succeeds, and with an
    empty rendering and a count of 0 where the standalone [main] stops
    with status 1. *)
Theorem main_variants (L : RegexLib) (input : string) :
  Pipeline.main_unchecked_on input
  = if Nat.ltb 10 (length (lexemes is_space input)) then None
    else match Pipeline.main_on input with
         | None => None
         | Some run =>
             Some (if Z.eqb (Pipeline.exit_status run) 1
                   then {| Pipeline.exit_status := 0;
                           Pipeline.coordinated_nodes := 0;
                           Pipeline.rendering := rift_generate_output None |}
                   else run)
         end.
Proof.
  unfold Pipeline.main_unchecked_on, Pipeline.main_on. rewrite tokenizer_create_default.
  destruct (Nat.ltb_spec 10 (length (lexemes is_space input))) as [Hover|Hfit].
  - unfold rift_tokenize_fixed. rewrite strtok_all_lexemes.
    rewrite tokenize_loop_fixed_overflow;
      [reflexivity | apply lexeme_guard_lexemes | cbv; lia
       | cbn [empty_stream stream_capacity]; exact Hover].
  - assert (rift_tokenize_fixed default_tokenizer input
            = Some (rift_tokenize default_tokenizer input)) as ->.
    { unfold rift_tokenize_fixed, rift_tokenize. rewrite strtok_all_lexemes.
      apply tokenize_loop_within_capacity; [apply lexeme_guard_lexemes | simpl; lia]. }
    destruct (fst (rift_parse (rift_parser_create rift_load_governance)
                     (rift_tokenize default_tokenizer input))) as [ast|]; reflexivity.
Qed.

(** ** The stage-bound governance system *)

Lemma load_stage_config_some (id : Z) :
  (0 <= id <= 3)%Z -> exists config, StageGov.load_stage_config id = Some config.
Proof.
  intros H. assert ((id = 0 \/ id = 1 \/ id = 2 \/ id = 3)%Z) as [-> | [-> | [-> | ->]]] by lia;
    eexists; reflexivity.
Qed.

Lemma existsb_snoc {A : Type} (f : A -> bool) (l : list A) (x : A) :
  existsb f (l ++ [x]) = existsb f l || f x.
Proof. rewrite existsb_app. simpl. now rewrite orb_false_r. Qed.

(** One call of [governance_load_stage] on the system that holds the
    stages [pre]. *)
Lemma governance_load_stage_with (pre : list Z) (id : Z) :
  StageGov.governance_load_stage (StageGov.system_with pre) id
  = (Z.leb 0 id && Z.leb id 3, StageGov.system_with (pre ++ [id])).
Proof.
  unfold StageGov.governance_load_stage, StageGov.system_with.
  cbn [map StageGov.stage_loaded StageGov.stage_configs StageGov.global_config].
  rewrite !existsb_snoc.
  destruct (Z.ltb_spec id 0) as [Hneg|Hpos]; cbn [orb].
  { destruct (Z.leb_spec 0 id); [lia|]. cbn [andb].
    repeat match goal with
           | |- context [Z.eqb ?k id] =>
               destruct (Z.eqb_spec k id); [lia|]
           end.
    now rewrite !orb_false_r. }
  destruct (Z.ltb_spec 3 id) as [Hbig|Hsmall].
  { destruct (Z.leb_spec id 3); [lia|]. rewrite andb_false_r.
    repeat match goal with
           | |- context [Z.eqb ?k id] =>
               destruct (Z.eqb_spec k id); [lia|]
           end.
    now rewrite !orb_false_r. }
  destruct (Z.leb_spec 0 id); [|lia]. destruct (Z.leb_spec id 3); [|lia]. cbn [andb].
  destruct (load_stage_config_some id (conj Hpos Hsmall)) as [config Hconfig].
  rewrite Hconfig.
  assert ((id = 0 \/ id = 1 \/ id = 2 \/ id = 3)%Z) as [-> | [-> | [-> | ->]]] by lia;
    rewrite <- Hconfig; cbn [Z.to_nat Pos.to_nat Pos.iter_op Nat.add nth Z.eqb Pos.eqb orb];
    rewrite ?orb_false_r, ?orb_true_r;
    destruct (existsb (Z.eqb 0) pre), (existsb (Z.eqb 1) pre),
             (existsb (Z.eqb 2) pre), (existsb (Z.eqb 3) pre);
    reflexivity.
Qed.

Lemma load_stages_with (ids : list Z) :
  forall pre,
    StageGov.load_stages ids (StageGov.system_with pre) = StageGov.system_with (pre ++ ids).
Proof.
  unfold StageGov.load_stages.
  induction ids as [|id ids IH]; intros pre; cbn [fold_left].
  - now rewrite app_nil_r.
  - rewrite governance_load_stage_with. cbn [snd]. rewrite IH. now rewrite <- app_assoc.
Qed.

Lemma load_stages_create (ids : list Z) :
  StageGov.load_stages ids StageGov.governance_system_create = StageGov.system_with ids.
Proof. exact (load_stages_with ids []). Qed.

(** X13: whatever stages are requested, in whatever order and however
    often, from the freshly created governance system: the system ends up
    holding exactly the configurations of the requested stages numbered 0
    to 3, each flagged as loaded, and nothing else changes; a request
    succeeds exactly when its stage number is from 0 to 3. *)
Theorem governance_loads (ids : list Z) (id : Z) :
  StageGov.load_stages ids StageGov.governance_system_create = StageGov.system_with ids
  /\ StageGov.governance_load_stage (StageGov.system_with ids) id
     = (Z.leb 0 id && Z.leb id 3, StageGov.system_with (ids ++ [id]))
  /\ (existsb (Z.eqb id) ids = true \/ (id < 0)%Z \/ (3 < id)%Z ->
      StageGov.system_with (ids ++ [id]) = StageGov.system_with ids).
Proof.
  split; [apply load_stages_create|]. split; [apply governance_load_stage_with|].
  intros Hsame. unfold StageGov.system_with. cbn [map]. rewrite !existsb_snoc.
  destruct Hsame as [Hin|Hout].
  - assert (forall k, existsb (Z.eqb k) ids || Z.eqb k id = existsb (Z.eqb k) ids) as Hk.
    { intros k. destruct (Z.eqb_spec k id) as [->|]; [|apply orb_false_r].
      rewrite Hin. reflexivity. }
    now rewrite !Hk.
  - repeat match goal with
           | |- context [Z.eqb ?k id] =>
               destruct (Z.eqb_spec k id); [lia|]
           end.
    now rewrite !orb_false_r.
Qed.

(** Creating the stage-0 processor on a system reached by loading stages. *)
Lemma rift_stage0_create_loaded (ids : list Z) :
  StageGov.rift_stage0_create (StageGov.load_stages ids StageGov.governance_system_create)
  = (StageGov.Returned
       (Some {| Staged.token_patterns :=
                  [ "^[a-zA-Z_]\\w*$"; "^\\d+(\\.\\d+)?$"; "^[+\\-*/=<>!&|]$"; "^\\s+$" ]%string;
                Staged.token_priorities := [100; 90; 80; 10]%Z |}),
     StageGov.load_stages (ids ++ [0%Z]) StageGov.governance_system_create).
Proof.
  rewrite !load_stages_create. unfold StageGov.rift_stage0_create.
  rewrite governance_load_stage_with.
  cbn [Z.leb Z.compare Pos.compare Pos.compare_cont andb negb].
  unfold StageGov.system_with at 1. cbn [StageGov.stage_configs map nth].
  rewrite existsb_snoc. cbn [Z.eqb]. rewrite orb_true_r.
  reflexivity.
Qed.

(** X14: on the governance system as created, after any requests for
    stages, [rift_stage0_create] returns a processor with the four
    configured patterns and the priorities 100, 90, 80 and 10 read by
    [atoi], and leaves the system with stage 0 loaded. *)
Theorem stage0_create_processor (ids : list Z) :
  StageGov.rift_stage0_create (StageGov.load_stages ids StageGov.governance_system_create)
  = (StageGov.Returned
       (Some {| Staged.token_patterns :=
                  [ "^[a-zA-Z_]\\w*$"; "^\\d+(\\.\\d+)?$"; "^[+\\-*/=<>!&|]$"; "^\\s+$" ]%string;
                Staged.token_priorities := [100; 90; 80; 10]%Z |}),
     StageGov.load_stages (ids ++ [0%Z]) StageGov.governance_system_create).
Proof. apply rift_stage0_create_loaded. Qed.

(** ** Stage-bound classification *)

Section StagedFacts.
Context {L : RegexLib}.

Lemma descending_from_bound (hi : Z) (priorities : list Z) :
  StageGov.descending_from hi priorities -> Forall (fun q => (q <= hi)%Z) priorities.
Proof.
  revert hi. induction priorities as [|q qs IH]; intros hi H; [constructor|].
  destruct H as [Hq Hqs]. constructor; [lia|].
  eapply Forall_impl; [|apply (IH q Hqs)]. simpl. intros; lia.
Qed.

Lemma descending_from_tail (hi : Z) (priorities : list Z) :
  StageGov.descending_from hi priorities -> StageGov.descending priorities.
Proof.
  destruct priorities as [|q qs]; [auto|]. intros [Hq Hqs]. split; [lia | assumption].
Qed.

(** With priorities that never increase along the rules, the first rule
    that matches settles the classification. *)
Lemma classify_from_descending (text : string) (patterns : list string) :
  forall (priorities : list Z) (i : nat),
    length patterns = length priorities ->
    StageGov.descending priorities ->
    let result :=
      Staged.classify_from i (combine patterns priorities) text
        {| Staged.cls_type := TOKEN_UNKNOWN;
           Staged.cls_priority := 0%Z;
           Staged.cls_highest := (-1)%Z |} in
    Staged.cls_type result = classify_states (StageGov.indexed_states i patterns) text
    /\ Staged.cls_priority result
       = match find (fun rule => Staged.pattern_matches (fst rule) text)
                    (combine patterns priorities) with
         | Some rule => snd rule
         | None => 0%Z
         end.
Proof.
  induction patterns as [|p ps IH]; intros [|q qs] i Hlen Hdesc; try discriminate.
  - split; reflexivity.
  - cbn [combine Staged.classify_from StageGov.indexed_states classify_states find fst
         mk_state state_pattern state_type].
    destruct Hdesc as [Hq Hqs].
    change (matches_pattern p text) with (Staged.pattern_matches p text).
    assert (Staged.classify_step i (p, q) text
              {| Staged.cls_type := TOKEN_UNKNOWN;
                 Staged.cls_priority := 0%Z;
                 Staged.cls_highest := (-1)%Z |}
            = if Staged.pattern_matches p text
              then {| Staged.cls_type := match Staged.kind_of_index i with
                                         | Some k => k
                                         | None => TOKEN_UNKNOWN
                                         end;
                      Staged.cls_priority := q;
                      Staged.cls_highest := q |}
              else {| Staged.cls_type := TOKEN_UNKNOWN;
                      Staged.cls_priority := 0%Z;
                      Staged.cls_highest := (-1)%Z |}) as ->.
    { unfold Staged.classify_step. cbn [fst snd Staged.cls_highest Staged.cls_type].
      destruct (Staged.pattern_matches p text); [|reflexivity].
      destruct (Z.ltb_spec (-1) q); [reflexivity | lia]. }
    destruct (Staged.pattern_matches p text) eqn:Hm.
    + rewrite classify_from_keep.
      * split; reflexivity.
      * cbn [Staged.cls_highest].
        pose proof (descending_from_bound q qs Hqs) as Hbound.
        clear - Hbound Hlen. injection Hlen as Hlen.
        revert qs Hlen Hbound. induction ps as [|p' ps' IHp]; intros [|q' qs'] Hlen Hbound;
          try discriminate; cbn [combine]; constructor.
        -- intros _. cbn [snd]. now inversion Hbound.
        -- apply IHp; [now injection Hlen | now inversion Hbound].
    + apply IH; [now injection Hlen | exact (descending_from_tail q qs Hqs)].
Qed.

(** The recorded priority is never negative. *)
Lemma classify_from_priority (text : string) (rules : list (string * Z)) :
  forall i st,
    (0 <= Staged.cls_priority st)%Z -> (-1 <= Staged.cls_highest st)%Z ->
    (0 <= Staged.cls_priority (Staged.classify_from i rules text st))%Z.
Proof.
  induction rules as [|rule rest IH]; intros i st Hp Hh; cbn [Staged.classify_from];
    [assumption|].
  apply IH; unfold Staged.classify_step;
    destruct (Staged.pattern_matches (fst rule) text); try assumption;
    destruct (Z.ltb_spec (Staged.cls_highest st) (snd rule)); try assumption;
    cbn [Staged.cls_priority Staged.cls_highest]; lia.
Qed.

Lemma process_loop_values (processor : Staged.rift_stage0_processor_t) (strs : list string) :
  forall stream,
    Forall (fun f => lexeme_guard f = true) strs ->
    map Staged.token_value (Staged.tokens (Staged.process_loop processor strs stream))
    = map Staged.token_value (Staged.tokens stream) ++ strs
    /\ map Staged.token_column (Staged.tokens (Staged.process_loop processor strs stream))
       = map Staged.token_column (Staged.tokens stream)
         ++ seq (S (length (Staged.tokens stream))) (length strs).
Proof.
  induction strs as [|v rest IH]; intros stream Hall; cbn [Staged.process_loop].
  - cbn [length seq]. now rewrite !app_nil_r.
  - inversion Hall as [|? ? Hv Hrest]; subst. rewrite Hv.
    destruct (IH {| Staged.tokens := Staged.tokens stream
                                      ++ [Staged.new_token processor stream v];
                    Staged.stream_capacity :=
                      if Nat.leb (Staged.stream_capacity stream)
                                 (length (Staged.tokens stream))
                      then 2 * Staged.stream_capacity stream
                      else Staged.stream_capacity stream |} Hrest) as [Hvalues Hcolumns].
    rewrite Hvalues, Hcolumns. cbn [Staged.tokens].
    rewrite !map_app, length_app, <- !app_assoc. cbn [map length seq app Staged.new_token
      Staged.token_value Staged.token_column].
    rewrite Nat.add_1_r. split; reflexivity.
Qed.

Lemma process_loop_classified (processor : Staged.rift_stage0_processor_t) (strs : list string)
  (P : Staged.rift_token_t -> Prop) :
  (forall stream v, P (Staged.new_token processor stream v)) ->
  forall stream,
    Forall P (Staged.tokens stream) ->
    Forall P (Staged.tokens (Staged.process_loop processor strs stream)).
Proof.
  intros Hnew. induction strs as [|v rest IH]; intros stream Hall; cbn [Staged.process_loop];
    [assumption|].
  apply IH. destruct (lexeme_guard v); [|assumption]. cbn [Staged.tokens].
  apply Forall_app. split; [assumption|]. constructor; [apply Hnew | constructor].
Qed.

End StagedFacts.

(** X15: when the priorities of the stage-0 processor are non-negative and
    never increase along the patterns, as the configured 100, 90, 80, 10
    do, priority resolution comes down to rule order: a lexeme gets the
    kind bound to the position of the first pattern that matches it, which
    is what the first-match tokenizer does on the same patterns, and the
    priority of that pattern (0 when none matches). *)
Theorem stage0_descending_first_match (L : RegexLib)
  (processor : Staged.rift_stage0_processor_t) (text : string) :
  length (Staged.token_patterns processor) = length (Staged.token_priorities processor) ->
  StageGov.descending (Staged.token_priorities processor) ->
  Staged.cls_type (Staged.classify processor text)
  = classify_states (StageGov.indexed_states 0 (Staged.token_patterns processor)) text
  /\ Staged.cls_priority (Staged.classify processor text)
     = match find (fun rule => Staged.pattern_matches (fst rule) text)
                  (Staged.stage0_rules processor) with
       | Some rule => snd rule
       | None => 0%Z
       end.
Proof.
  intros Hlen Hdesc. unfold Staged.classify, Staged.stage0_rules.
  now apply classify_from_descending.
Qed.

Lemma stage0_descending_first_match_witness :
  Staged.cls_type
    (Staged.classify (L := Posix.lib)
       {| Staged.token_patterns := ["^[a-z]+$"; "^[a-z0-9]+$"; "^.$"; "^ +$"]%string;
          Staged.token_priorities := [100; 90; 80; 10]%Z |} "7")
  = TOKEN_NUMBER.
Proof.
  destruct (stage0_descending_first_match Posix.lib
              {| Staged.token_patterns := ["^[a-z]+$"; "^[a-z0-9]+$"; "^.$"; "^ +$"]%string;
                 Staged.token_priorities := [100; 90; 80; 10]%Z |} "7") as [Hkind _].
  - reflexivity.
  - simpl. lia.
  - rewrite Hkind. reflexivity.
Defined.

(** The tokens of the stage-bound tokenizer. *)
Lemma stage0_process_tokens_of (L : RegexLib) (processor : Staged.rift_stage0_processor_t)
  (input : string) :
  let stream := Staged.rift_stage0_process processor input in
  map Staged.token_value (Staged.tokens stream) = lexemes is_space input
  /\ map Staged.token_column (Staged.tokens stream)
     = seq 1 (length (lexemes is_space input))
  /\ Forall (fun t =>
               Staged.token_line t = 1
               /\ Staged.token_type t
                  = Staged.cls_type (Staged.classify processor (Staged.token_value t))
               /\ Staged.token_priority t
                  = Staged.cls_priority (Staged.classify processor (Staged.token_value t))
               /\ (0 <= Staged.token_priority t)%Z)
            (Staged.tokens stream).
Proof.
  intros stream. unfold stream, Staged.rift_stage0_process. rewrite strtok_all_lexemes.
  destruct (process_loop_values processor (lexemes is_space input)
              {| Staged.tokens := []; Staged.stream_capacity := 10 |}
              (lexeme_guard_lexemes input)) as [Hvalues Hcolumns].
  split; [exact Hvalues|]. split; [exact Hcolumns|].
  apply process_loop_classified; [|constructor].
  intros s v. cbn [Staged.new_token Staged.token_line Staged.token_type Staged.token_value
                   Staged.token_priority].
  repeat split. unfold Staged.classify. apply classify_from_priority; simpl; lia.
Qed.

(** X16: [rift_stage0_process] produces one token per maximal run of
    characters other than the space, in input order, with line 1 and its
    1-based ordinal as column; the kind and the priority of a token are
    those the priority resolution gives its value, and the priority is
    never negative. *)
Theorem stage0_process_tokens (L : RegexLib) (processor : Staged.rift_stage0_processor_t)
  (input : string) :
  let stream := Staged.rift_stage0_process processor input in
  map Staged.token_value (Staged.tokens stream) = lexemes is_space input
  /\ map Staged.token_column (Staged.tokens stream)
     = seq 1 (length (lexemes is_space input))
  /\ Forall (fun t =>
               Staged.token_line t = 1
               /\ Staged.token_type t
                  = Staged.cls_type (Staged.classify processor (Staged.token_value t))
               /\ Staged.token_priority t
                  = Staged.cls_priority (Staged.classify processor (Staged.token_value t))
               /\ (0 <= Staged.token_priority t)%Z)
            (Staged.tokens stream).
Proof. apply stage0_process_tokens_of. Qed.

(** ** The configured stage-0 patterns under POSIX matching *)

Lemma needs_sound (c : ascii) (t : list ascii) (r : Posix.regex) (i j : nat) :
  Posix.slice_match t r i j -> Needs.needs c r = true -> In c t.
Proof.
  induction 1 as [ | d i Hd | | | | | r1 r2 i k j _ IH1 _ IH2 | r1 r2 i j _ IH
                   | r1 r2 i j _ IH | | ]; cbn [Needs.needs]; intros Hneeds;
    try discriminate.
  - apply Ascii.eqb_eq in Hneeds. subst d. eapply nth_error_In; eassumption.
  - apply orb_true_iff in Hneeds. destruct Hneeds; auto.
  - apply andb_true_iff in Hneeds. destruct Hneeds; auto.
  - apply andb_true_iff in Hneeds. destruct Hneeds; auto.
Qed.

(** A pattern that needs [c] matches no text without [c]. *)
Lemma pattern_needs_sound (c : ascii) (pattern text : string) :
  Needs.pattern_needs c pattern = true ->
  ~ In c (list_ascii_of_string text) ->
  Staged.pattern_matches (L := Posix.lib) pattern text = false.
Proof.
  unfold Needs.pattern_needs, Staged.pattern_matches. cbn [regcomp regexec Posix.lib].
  destruct (Posix.comp pattern) as [r|]; [|reflexivity].
  intros Hneeds Hfree. apply not_true_is_false. intros Hm.
  apply exec_search in Hm. destruct Hm as [i [j [_ Hm]]].
  apply Hfree. eapply needs_sound; eassumption.
Qed.

Lemma first_identifier_none (ts : list Staged.rift_token_t) :
  Forall (fun t => Staged.token_type t = TOKEN_UNKNOWN /\ Staged.token_priority t = 0%Z) ts ->
  StageGov.first_identifier ts = None.
Proof.
  induction 1 as [|t ts [Hty _] _ IH]; cbn [StageGov.first_identifier]; [reflexivity|].
  now rewrite Hty.
Qed.

(** X17: the patterns of the stage-0 configuration are written with
    doubled backslashes, so that under POSIX matching each of them asks
    for a backslash character in the lexeme (the Operator pattern does not
    even compile).  For every input that holds no backslash, every token of
    [rift_stage0_process] is Unknown with priority 0, and the stage-bound
    [main] exits with status 0 without printing a tree. *)
Theorem stage0_patterns_need_backslash (input : string) :
  ~ In "\"%char (list_ascii_of_string input) ->
  Forall (fun t => Staged.token_type t = TOKEN_UNKNOWN /\ Staged.token_priority t = 0%Z)
    (Staged.tokens
       (Staged.rift_stage0_process (L := Posix.lib)
          {| Staged.token_patterns :=
               [ "^[a-zA-Z_]\\w*$"; "^\\d+(\\.\\d+)?$"; "^[+\\-*/=<>!&|]$"; "^\\s+$" ]%string;
             Staged.token_priorities := [100; 90; 80; 10]%Z |} input))
  /\ StageGov.main_on (L := Posix.lib) input = Some (0%Z, EmptyString).
Proof.
  intros Hfree.
  set (processor :=
         {| Staged.token_patterns :=
              [ "^[a-zA-Z_]\\w*$"; "^\\d+(\\.\\d+)?$"; "^[+\\-*/=<>!&|]$"; "^\\s+$" ]%string;
            Staged.token_priorities := [100; 90; 80; 10]%Z |}).
  assert (Forall (fun t => Staged.token_type t = TOKEN_UNKNOWN
                           /\ Staged.token_priority t = 0%Z)
            (Staged.tokens (Staged.rift_stage0_process (L := Posix.lib) processor input)))
    as Hunknown.
  { destruct (stage0_process_tokens_of Posix.lib processor input) as [Hvalues [_ Hall]].
    rewrite Forall_forall in *. intros t Ht. destruct (Hall t Ht) as [_ [Hty [Hpri _]]].
    assert (In (Staged.token_value t) (lexemes is_space input)) as Hlex
        by (rewrite <- Hvalues; now apply in_map).
    assert (~ In "\"%char (list_ascii_of_string (Staged.token_value t))) as Hfree'.
    { intros Hc. apply Hfree. eapply lexemes_characters; eassumption. }
    destruct (classify_unmatched (L := Posix.lib) processor (Staged.token_value t))
      as [Hty' Hpri'].
    { unfold Staged.stage0_rules, processor. cbn [Staged.token_patterns Staged.token_priorities
                                                  combine].
      repeat (apply Forall_cons;
              [cbn [fst]; intros Hm;
               rewrite (pattern_needs_sound "\"%char) in Hm;
               [discriminate | vm_compute; reflexivity | assumption] |]).
      apply Forall_nil. }
    split; congruence. }
  split; [exact Hunknown|].
  unfold StageGov.main_on.
  pose proof (rift_stage0_create_loaded []) as Hcreate.
  rewrite load_stages_create in Hcreate. fold processor in Hcreate.
  change (StageGov.system_with []) with StageGov.governance_system_create in Hcreate.
  rewrite Hcreate. rewrite load_stages_create.
  rewrite !governance_load_stage_with. cbn [snd app].
  rewrite governance_load_stage_with.
  cbn [Z.leb Z.compare Pos.compare Pos.compare_cont andb].
  unfold StageGov.create_simple_ast. rewrite (first_identifier_none _ Hunknown).
  reflexivity.
Qed.

Lemma stage0_patterns_need_backslash_witness :
  StageGov.main_on (L := Posix.lib) "x + 2 * y" = Some (0%Z, EmptyString).
Proof.
  apply (stage0_patterns_need_backslash "x + 2 * y").
  vm_compute. intros H.
  repeat (destruct H as [H|H]; [discriminate H|]). exact H.
Defined.

(** ** The escape processor: replacement *)

Lemma starts_with_split (find s : string) :
  Escape.starts_with find s = true <-> exists rest, s = (find ++ rest)%string.
Proof.
  revert s. induction find as [|a find IH]; intros s; simpl.
  - split; [intros _; now exists s | reflexivity].
  - destruct s as [|b s].
    + split; [discriminate | intros [rest Hrest]; discriminate].
    + rewrite andb_true_iff, Ascii.eqb_eq, IH. split.
      * intros [-> [rest ->]]. now exists rest.
      * intros [rest [= -> ->]]. split; [reflexivity | now exists rest].
Qed.

Lemma advance_app (find rest : string) :
  Escape.advance (String.length find) (find ++ rest)%string = rest.
Proof.
  induction find as [|a find IH]; simpl; [|exact IH]. now destruct rest.
Qed.

Lemma string_length_app (a b : string) :
  String.length (a ++ b)%string = String.length a + String.length b.
Proof. induction a as [|c a IH]; simpl; [|rewrite IH]; reflexivity. Qed.

Lemma starts_with_empty (find : string) :
  find <> EmptyString -> Escape.starts_with find EmptyString = false.
Proof. destruct find; [congruence | reflexivity]. Qed.

Lemma strstr_skip (find : string) (c : ascii) (s : string) :
  Escape.starts_with find (String c s) = false ->
  Escape.strstr (String c s) find = Escape.strstr s find.
Proof. intros H. cbn [Escape.strstr]. now rewrite H. Qed.

Lemma strstr_here (find s : string) :
  Escape.starts_with find s = true -> Escape.strstr s find = Some s.
Proof. intros H. destruct s; cbn [Escape.strstr]; now rewrite H. Qed.

(** More fuel does not change what a loop returns. *)
Lemma count_loop_more (find : string) (fuel : nat) :
  forall temp n c,
    Escape.count_loop fuel find temp n = Some c ->
    Escape.count_loop (S fuel) find temp n = Some c.
Proof.
  induction fuel as [|k IH]; intros temp n c H; [discriminate|].
  cbn [Escape.count_loop] in *.
  destruct (Escape.strstr temp find) as [occ|]; [|exact H]. now apply IH.
Qed.

Lemma replace_loop_more (find replace : string) (fuel : nat) :
  forall src r,
    Escape.replace_loop fuel find replace src = Some r ->
    Escape.replace_loop (S fuel) find replace src = Some r.
Proof.
  induction fuel as [|k IH]; intros src r H; [discriminate|].
  cbn [Escape.replace_loop] in *.
  destruct src as [|c src']; [exact H|].
  destruct (Escape.starts_with find (String c src')).
  - destruct (Escape.replace_loop k find replace _) as [w|] eqn:E; [|discriminate].
    now rewrite (IH _ _ E).
  - destruct (Escape.replace_loop k find replace src') as [w|] eqn:E; [|discriminate].
    now rewrite (IH _ _ E).
Qed.

(** The counting loop and the copying loop go through the same
    occurrences: each of them changes the length by the difference
    between the replacement and the sequence replaced. *)
Lemma replace_loops_agree (find replace : string) :
  find <> EmptyString ->
  forall (bound : nat) (source : string) (fuel n : nat),
    String.length source <= bound -> bound < fuel ->
    exists c r,
      Escape.count_loop fuel find source n = Some (n + c)
      /\ Escape.replace_loop fuel find replace source = Some r
      /\ String.length r + c * String.length find
         = String.length source + c * String.length replace.
Proof.
  intros Hfind.
  assert (1 <= String.length find) as Hlen by (destruct find; [congruence | simpl; lia]).
  assert (forall fuel n, 0 < fuel ->
            Escape.count_loop fuel find EmptyString n = Some (n + 0)
            /\ Escape.replace_loop fuel find replace EmptyString = Some EmptyString) as Hempty.
  { intros [|k] n Hk; [lia|]. cbn [Escape.count_loop Escape.replace_loop Escape.strstr].
    rewrite starts_with_empty by assumption. now rewrite Nat.add_0_r. }
  induction bound as [|b IH]; intros source fuel n Hsource Hfuel.
  - destruct source; [|simpl in Hsource; lia].
    exists 0, EmptyString. destruct (Hempty fuel n) as [Hc Hr]; [lia|]. now repeat split.
  - destruct source as [|ch s].
    { exists 0, EmptyString. destruct (Hempty fuel n) as [Hc Hr]; [lia|]. now repeat split. }
    destruct fuel as [|k]; [lia|]. simpl in Hsource.
    destruct (Escape.starts_with find (String ch s)) eqn:Hstart.
    + pose proof Hstart as Hsplit. apply starts_with_split in Hsplit.
      destruct Hsplit as [rest Hrest].
      assert (String.length (String ch s) = String.length find + String.length rest) as Hsum
          by (rewrite Hrest; apply string_length_app).
      simpl in Hsum.
      destruct (IH rest k (S n)) as [c [r [Hc [Hr Hlens]]]]; [lia | lia |].
      exists (S c), (replace ++ r)%string.
      cbn [Escape.count_loop Escape.replace_loop].
      rewrite (strstr_here _ _ Hstart), Hstart, Hrest, advance_app, Hc, Hr.
      rewrite <- Hrest. repeat split.
      * f_equal. lia.
      * rewrite string_length_app. simpl. lia.
    + destruct (IH s k n) as [c [r [Hc [Hr Hlens]]]]; [lia | lia |].
      exists c, (String ch r).
      apply count_loop_more in Hc.
      cbn [Escape.count_loop Escape.replace_loop] in *.
      rewrite (strstr_skip _ _ _ Hstart), Hstart, Hr, Hc.
      repeat split. simpl. lia.
Qed.

(** The size computed in wrapping [size_t] arithmetic is the size of the
    string written, NUL included, up to the width of [size_t]. *)
Lemma new_size_exact (source_len count replace_len find_len written_len : nat) :
  written_len + count * find_len = source_len + count * replace_len ->
  Escape.new_size source_len count replace_len find_len
  = Escape.wrap (Z.of_nat written_len + 1).
Proof.
  intros H. unfold Escape.new_size, Escape.wrap, Escape.size_modulus.
  rewrite Zmult_mod_idemp_r, Zplus_mod_idemp_r, Zplus_mod_idemp_l.
  f_equal. nia.
Qed.

Lemma safe_string_replace_returns (source find replace : string) (fuel : nat) :
  find <> EmptyString ->
  String.length source < fuel ->
  exists count written,
    Escape.count_loop fuel find source 0 = Some count
    /\ Escape.replace_loop fuel find replace source = Some written
    /\ String.length written + count * String.length find
       = String.length source + count * String.length replace
    /\ Escape.new_size (String.length source) count (String.length replace)
         (String.length find)
       = Escape.wrap (Z.of_nat (String.length written) + 1)
    /\ Escape.safe_string_replace fuel (Some source) (Some find) (Some replace)
       = Some (if Z.ltb (Z.of_nat (String.length written) + 1) Escape.size_modulus
               then Escape.Replaced written else Escape.Overrun).
Proof.
  intros Hfind Hfuel.
  destruct (replace_loops_agree find replace Hfind (String.length source) source fuel 0)
    as [c [r [Hc [Hr Hlens]]]]; [lia | assumption |].
  exists c, r. cbn [Nat.add] in Hc.
  pose proof (new_size_exact _ _ _ _ _ Hlens) as Hsize.
  repeat split; try assumption.
  unfold Escape.safe_string_replace. rewrite Hc, Hr, Hsize. unfold Escape.wrap.
  assert (0 < Escape.size_modulus)%Z as Hpos by reflexivity.
  destruct (Z.ltb_spec (Z.of_nat (String.length r) + 1) Escape.size_modulus) as [Hfit|Hbig].
  - rewrite Z.mod_small by lia. now rewrite Z.leb_refl.
  - pose proof (Z.mod_pos_bound (Z.of_nat (String.length r) + 1) _ Hpos) as Hmod.
    destruct (Z.leb_spec (Z.of_nat (String.length r) + 1)
                ((Z.of_nat (String.length r) + 1) mod Escape.size_modulus)); [lia|].
    reflexivity.
Qed.

(** X18: when the sequence to find is not empty, [safe_string_replace]
    terminates (fuel beyond the length of the source suffices), and the
    number of bytes it allocates, computed from the occurrences counted
    with [strstr] in wrapping [size_t] arithmetic, is exactly the length of
    the string its copying loop writes plus the final NUL: as long as that
    size is representable, no write leaves the allocated block, and the
    result is returned. *)
Theorem replace_fits_allocation (source find replace : string) (fuel : nat) :
  find <> EmptyString ->
  String.length source < fuel ->
  exists count written,
    Escape.count_loop fuel find source 0 = Some count
    /\ Escape.replace_loop fuel find replace source = Some written
    /\ String.length written + count * String.length find
       = String.length source + count * String.length replace
    /\ Escape.new_size (String.length source) count (String.length replace)
         (String.length find)
       = Escape.wrap (Z.of_nat (String.length written) + 1)
    /\ ((Z.of_nat (String.length written) + 1 < Escape.size_modulus)%Z ->
        Escape.safe_string_replace fuel (Some source) (Some find) (Some replace)
        = Some (Escape.Replaced written)).
Proof.
  intros Hfind Hfuel.
  destruct (safe_string_replace_returns source find replace fuel Hfind Hfuel)
    as [c [r [Hc [Hr [Hlens [Hsize Hres]]]]]].
  exists c, r. repeat split; try assumption.
  intros Hfit. rewrite Hres.
  destruct (Z.ltb_spec (Z.of_nat (String.length r) + 1) Escape.size_modulus); [reflexivity | lia].
Qed.

Lemma replace_fits_allocation_witness :
  Escape.safe_string_replace 30 (Some "^\\\\d+(\\\\.\\\\d+)?$"%string)
    (Some "\\\\d"%string) (Some "\d"%string)
  = Some (Escape.Replaced "^\d+(\\\\.\d+)?$").
Proof.
  destruct (replace_fits_allocation "^\\\\d+(\\\\.\\\\d+)?$" "\\\\d" "\d" 30)
    as [count [written [_ [Hr [_ [_ Hres]]]]]].
  - discriminate.
  - simpl. lia.
  - vm_compute in Hr. injection Hr as <-. apply Hres. reflexivity.
Defined.

(** X19: with an empty sequence to find, the counting loop of
    [safe_string_replace] never advances: the call does not return,
    whatever the fuel.  So does [process_escape_pattern] as soon as one of
    the mappings that apply in the context has an empty source sequence:
    it never returns a result. *)
Theorem replace_empty_find_diverges :
  (forall fuel source replace,
      Escape.safe_string_replace fuel (Some source) (Some EmptyString) (Some replace) = None)
  /\ (forall fuel processor input context result,
      Exists (fun m => Escape.applies context m = true
                       /\ Escape.source_sequence m = EmptyString)
             (Escape.mappings processor) ->
      Escape.process_escape_pattern fuel processor input context
      <> Some (StageGov.Returned result)).
Proof.
  assert (forall fuel temp n, Escape.count_loop fuel EmptyString temp n = None) as Hcount.
  { induction fuel as [|k IH]; intros temp n; [reflexivity|].
    cbn [Escape.count_loop]. rewrite strstr_here by reflexivity.
    cbn [String.length Escape.advance]. destruct temp; apply IH. }
  assert (forall fuel source replace,
             Escape.safe_string_replace fuel (Some source) (Some EmptyString) (Some replace)
             = None) as Hreplace.
  { intros fuel source replace. unfold Escape.safe_string_replace. now rewrite Hcount. }
  split; [exact Hreplace|].
  intros fuel processor input context result Hex. unfold Escape.process_escape_pattern.
  generalize {| Escape.processed_pattern := input;
                Escape.transformation_successful := true;
                Escape.fault_tokens_used := EmptyString;
                Escape.transformations_applied := 0 |}.
  induction (Escape.mappings processor) as [|m ms IH]; intros state.
  - inversion Hex.
  - cbn [Escape.process_loop].
    destruct (Escape.applies context m) eqn:Happ; cbn [negb].
    + destruct (string_dec (Escape.source_sequence m) EmptyString) as [Hempty|Hfull].
      * rewrite Hempty, strstr_here by reflexivity. rewrite Hreplace. discriminate.
      * assert (Exists (fun m => Escape.applies context m = true
                                 /\ Escape.source_sequence m = EmptyString) ms) as Hrest
            by (inversion Hex as [? ? [_ H]|]; [contradiction | assumption]).
        destruct (Escape.strstr _ _); [|now apply IH].
        destruct (Escape.safe_string_replace fuel _ _ (Some (Escape.target_sequence m)))
          as [[new| |]|]; try discriminate; [now apply IH|].
        destruct (Escape.safe_string_replace fuel _ _ (Some (Escape.fault_token m)))
          as [[new| |]|]; try discriminate; [|now apply IH].
        destruct (Nat.ltb _ 256); [now apply IH | discriminate].
    + apply IH. inversion Hex as [? ? [H _]|]; [congruence | assumption].
Qed.

Lemma replace_empty_find_diverges_witness :
  Escape.process_escape_pattern 1000
    (snd (Escape.escape_processor_add_mapping Escape.escape_processor_create
            (Some EmptyString) (Some "x"%string) None None 0))
    "abc" (Some "config_to_c"%string)
  <> Some (StageGov.Returned
             {| Escape.processed_pattern := "abc";
                Escape.transformation_successful := true;
                Escape.fault_tokens_used := EmptyString;
                Escape.transformations_applied := 0 |}).
Proof.
  destruct replace_empty_find_diverges as [_ Hprocess]. apply Hprocess.
  constructor. split; reflexivity.
Defined.

(** ** The escape processor: processing a pattern *)

Lemma count_loop_le (find : string) (fuel fuel' : nat) (temp : string) (n c : nat) :
  Escape.count_loop fuel find temp n = Some c -> fuel <= fuel' ->
  Escape.count_loop fuel' find temp n = Some c.
Proof. intros H Hle. induction Hle; [assumption | now apply count_loop_more]. Qed.

Lemma replace_loop_le (find replace : string) (fuel fuel' : nat) (src r : string) :
  Escape.replace_loop fuel find replace src = Some r -> fuel <= fuel' ->
  Escape.replace_loop fuel' find replace src = Some r.
Proof. intros H Hle. induction Hle; [assumption | now apply replace_loop_more]. Qed.

Lemma safe_string_replace_le (fuel fuel' : nat) (source find replace : option string)
  (res : Escape.replace_result) :
  Escape.safe_string_replace fuel source find replace = Some res -> fuel <= fuel' ->
  Escape.safe_string_replace fuel' source find replace = Some res.
Proof.
  unfold Escape.safe_string_replace.
  destruct source as [source|], find as [find|], replace as [replace|]; try (intros; assumption).
  destruct (Escape.count_loop fuel find source 0) as [c|] eqn:Hc; [|discriminate].
  destruct (Escape.replace_loop fuel find replace source) as [r|] eqn:Hr; [|discriminate].
  intros H Hle. now rewrite (count_loop_le _ _ _ _ _ _ Hc Hle), (replace_loop_le _ _ _ _ _ _ Hr Hle).
Qed.

(** On strings that are there, [safe_string_replace] does not return
    NULL. *)
Lemma safe_string_replace_not_null (fuel : nat) (source find replace : string) :
  Escape.safe_string_replace fuel (Some source) (Some find) (Some replace) <> Some Escape.Null.
Proof.
  unfold Escape.safe_string_replace.
  destruct (Escape.count_loop fuel find source 0); [|discriminate].
  destruct (Escape.replace_loop fuel find replace source); [|discriminate].
  destruct (Z.leb _ _); discriminate.
Qed.

Lemma process_loop_terminates (context : option string) (ms : list Escape.escape_mapping_t) :
  Forall (fun m => Escape.applies context m = true ->
                   Escape.source_sequence m <> EmptyString) ms ->
  forall state,
  exists fuel outcome,
    forall fuel', fuel <= fuel' -> Escape.process_loop fuel' ms context state = Some outcome.
Proof.
  induction 1 as [|m ms Hm _ IH]; intros state.
  - exists 0, (StageGov.Returned state). reflexivity.
  - cbn [Escape.process_loop].
    destruct (Escape.applies context m) eqn:Happ; cbn [negb]; [|apply IH].
    destruct (Escape.strstr (Escape.processed_pattern state) (Escape.source_sequence m));
      [|apply IH].
    destruct (safe_string_replace_returns (Escape.processed_pattern state)
                (Escape.source_sequence m) (Escape.target_sequence m)
                (S (String.length (Escape.processed_pattern state))) (Hm eq_refl))
      as [c [r [_ [_ [_ [_ Hres]]]]]]; [lia|].
    destruct (Z.ltb (Z.of_nat (String.length r) + 1) Escape.size_modulus).
    + destruct (IH {| Escape.processed_pattern := r;
                      Escape.transformation_successful :=
                        Escape.transformation_successful state;
                      Escape.fault_tokens_used := Escape.fault_tokens_used state;
                      Escape.transformations_applied :=
                        (Escape.transformations_applied state + 1)%Z |})
        as [fuel [outcome Hrest]].
      exists (Nat.max (S (String.length (Escape.processed_pattern state))) fuel), outcome.
      intros fuel' Hle.
      rewrite (safe_string_replace_le _ fuel' _ _ _ _ Hres) by lia.
      apply Hrest. lia.
    + exists (S (String.length (Escape.processed_pattern state))), StageGov.Undefined.
      intros fuel' Hle. now rewrite (safe_string_replace_le _ fuel' _ _ _ _ Hres) by lia.
Qed.

(** X20: when every mapping that applies in the context has a non-empty
    source sequence, [process_escape_pattern] terminates: from some amount
    of fuel on it gives one and the same outcome. *)
Theorem process_pattern_terminates (processor : Escape.escape_processor_t)
  (input : string) (context : option string) :
  Forall (fun m => Escape.applies context m = true ->
                   Escape.source_sequence m <> EmptyString)
         (Escape.mappings processor) ->
  exists fuel outcome,
    forall fuel', fuel <= fuel' ->
      Escape.process_escape_pattern fuel' processor input context = Some outcome.
Proof. intros Hall. unfold Escape.process_escape_pattern. now apply process_loop_terminates. Qed.

Lemma process_pattern_terminates_witness :
  exists fuel outcome,
    forall fuel', fuel <= fuel' ->
      Escape.process_escape_pattern fuel' Escape.create_obinexus_escape_processor
        "^\\\\s+$" (Some "config_to_c"%string) = Some outcome.
Proof.
  apply (process_pattern_terminates Escape.create_obinexus_escape_processor
           "^\\\\s+$" (Some "config_to_c"%string)).
  vm_compute. repeat constructor; discriminate.
Defined.

(** X21: the [priority] of a mapping is never read, and the context only
    selects mappings: the outcome of [process_escape_pattern] is that of
    the mappings that apply in the context, taken in the order in which
    they were added, whatever their priorities. *)
Theorem process_order_is_insertion_order (f : Escape.escape_mapping_t -> Z) (fuel : nat)
  (processor : Escape.escape_processor_t) (input : string) (context : option string) :
  Escape.process_escape_pattern fuel (Escape.with_priorities f processor) input context
  = Escape.process_escape_pattern fuel processor input context
  /\ Escape.process_escape_pattern fuel (Escape.restricted_to context processor) input None
     = Escape.process_escape_pattern fuel processor input context.
Proof.
  unfold Escape.process_escape_pattern, Escape.with_priorities, Escape.restricted_to.
  cbn [Escape.mappings].
  generalize {| Escape.processed_pattern := input;
                Escape.transformation_successful := true;
                Escape.fault_tokens_used := EmptyString;
                Escape.transformations_applied := 0 |}.
  induction (Escape.mappings processor) as [|m ms IH]; intros state; [split; reflexivity|].
  cbn [map filter Escape.process_loop].
  change (Escape.applies context
            {| Escape.source_sequence := Escape.source_sequence m;
               Escape.target_sequence := Escape.target_sequence m;
               Escape.fault_token := Escape.fault_token m;
               Escape.encoding_context := Escape.encoding_context m;
               Escape.priority := f m |})
    with (Escape.applies context m).
  cbn [Escape.source_sequence Escape.target_sequence Escape.fault_token].
  destruct (Escape.applies context m); cbn [negb Escape.process_loop Escape.applies];
    [|apply IH].
  destruct (Escape.strstr _ _); [|apply IH].
  destruct (Escape.safe_string_replace fuel _ _ (Some (Escape.target_sequence m)))
    as [[new| |]|]; try (split; reflexivity); [apply IH|].
  destruct (Escape.safe_string_replace fuel _ _ (Some (Escape.fault_token m)))
    as [[new| |]|]; try (split; reflexivity); [|apply IH].
  destruct (Nat.ltb _ 256); [apply IH | split; reflexivity].
Qed.

Lemma process_loop_never_faults (fuel : nat) (context : option string)
  (ms : list Escape.escape_mapping_t) :
  forall state result,
    Escape.process_loop fuel ms context state = Some (StageGov.Returned result) ->
    Escape.transformation_successful result = Escape.transformation_successful state
    /\ Escape.fault_tokens_used result = Escape.fault_tokens_used state
    /\ (Escape.transformations_applied state
        <= Escape.transformations_applied result
        <= Escape.transformations_applied state
           + Z.of_nat (length (filter (Escape.applies context) ms)))%Z.
Proof.
  induction ms as [|m ms IH]; intros state result; cbn [Escape.process_loop filter].
  - intros [= <-]. cbn [length]. repeat split; lia.
  - destruct (Escape.applies context m); cbn [negb length]; [|apply IH].
    assert (forall st,
               Escape.transformation_successful st = Escape.transformation_successful state ->
               Escape.fault_tokens_used st = Escape.fault_tokens_used state ->
               (Escape.transformations_applied state <= Escape.transformations_applied st
                <= Escape.transformations_applied state + 1)%Z ->
               Escape.process_loop fuel ms context st = Some (StageGov.Returned result) ->
               Escape.transformation_successful result
               = Escape.transformation_successful state
               /\ Escape.fault_tokens_used result = Escape.fault_tokens_used state
               /\ (Escape.transformations_applied state
                   <= Escape.transformations_applied result
                   <= Escape.transformations_applied state
                      + Z.of_nat (S (length (filter (Escape.applies context) ms))))%Z)
      as Hnext.
    { intros st Hs Hf Ha Hrun. destruct (IH st result Hrun) as [Hs' [Hf' Ha']].
      repeat split; try congruence; lia. }
    destruct (Escape.strstr _ _); [|apply Hnext; try reflexivity; lia].
    pose proof (safe_string_replace_not_null fuel (Escape.processed_pattern state)
                  (Escape.source_sequence m) (Escape.target_sequence m)) as Hnull.
    destruct (Escape.safe_string_replace fuel _ _ (Some (Escape.target_sequence m)))
      as [[new| |]|]; try discriminate; [|congruence].
    apply Hnext; cbn [Escape.transformation_successful Escape.fault_tokens_used
                      Escape.transformations_applied]; try reflexivity; lia.
Qed.

(** X22: the fault path of [process_escape_pattern] is never taken: any
    result it returns is flagged successful, records no fault token, and
    counts between 0 and as many transformations as there are mappings that
    apply in the context. *)
Theorem process_never_faults (fuel : nat) (processor : Escape.escape_processor_t)
  (input : string) (context : option string) (result : Escape.pattern_result_t) :
  Escape.process_escape_pattern fuel processor input context = Some (StageGov.Returned result) ->
  Escape.transformation_successful result = true
  /\ Escape.fault_tokens_used result = EmptyString
  /\ (0 <= Escape.transformations_applied result
      <= Z.of_nat (length (filter (Escape.applies context) (Escape.mappings processor))))%Z.
Proof.
  unfold Escape.process_escape_pattern. intros Hrun.
  apply process_loop_never_faults in Hrun. exact Hrun.
Qed.

Lemma process_never_faults_witness :
  Escape.transformation_successful
    {| Escape.processed_pattern := "^\d+(\.\d+)?$";
       Escape.transformation_successful := true;
       Escape.fault_tokens_used := EmptyString;
       Escape.transformations_applied := 2 |} = true.
Proof.
  apply (process_never_faults 100 Escape.create_obinexus_escape_processor
           "^\\\\d+(\\\\.\\\\d+)?$" (Some "config_to_c"%string)).
  reflexivity.
Defined.

Lemma strstr_none (find : string) (c : ascii) (s : string) :
  Escape.strstr (String c s) find = None ->
  Escape.starts_with find (String c s) = false /\ Escape.strstr s find = None.
Proof.
  cbn [Escape.strstr]. destruct (Escape.starts_with find (String c s)); [discriminate|].
  now split.
Qed.

Lemma replace_loop_absent (find replace : string) (source : string) :
  forall fuel,
    String.length source < fuel ->
    Escape.strstr source find = None ->
    Escape.replace_loop fuel find replace source = Some source.
Proof.
  induction source as [|c s IH]; intros [|k] Hfuel Hnone; try (simpl in Hfuel; lia);
    [reflexivity|].
  apply strstr_none in Hnone. destruct Hnone as [Hstart Hrest].
  cbn [Escape.replace_loop]. rewrite Hstart, IH; [reflexivity | simpl in Hfuel; lia | assumption].
Qed.

Lemma replace_loop_identity (find : string) :
  find <> EmptyString ->
  forall (bound : nat) (source : string) (fuel : nat),
    String.length source <= bound -> bound < fuel ->
    Escape.replace_loop fuel find find source = Some source.
Proof.
  intros Hfind.
  assert (1 <= String.length find) as Hlen by (destruct find; [congruence | simpl; lia]).
  induction bound as [|b IH]; intros source [|k] Hsource Hfuel; try lia.
  - destruct source; [reflexivity | simpl in Hsource; lia].
  - destruct source as [|ch s]; [reflexivity|]. cbn [Escape.replace_loop].
    destruct (Escape.starts_with find (String ch s)) eqn:Hstart.
    + apply starts_with_split in Hstart. destruct Hstart as [rest Hrest].
      assert (String.length (String ch s) = String.length find + String.length rest) as Hsum
          by (rewrite Hrest; apply string_length_app).
      rewrite Hrest, advance_app, IH; [reflexivity | lia | lia].
    + rewrite IH; [reflexivity | simpl in Hsource; lia | lia].
Qed.

(** X23: replacements without effect.  When the sequence to find does not
    occur in the source, or when it is replaced by itself,
    [safe_string_replace] returns a copy of the source (as long as the
    copy's size is representable in [size_t]). *)
Theorem replace_without_effect (source find replace : string) (fuel : nat) :
  find <> EmptyString ->
  String.length source < fuel ->
  let copy :=
    Some (if Z.ltb (Z.of_nat (String.length source) + 1) Escape.size_modulus
          then Escape.Replaced source else Escape.Overrun) in
  (Escape.strstr source find = None ->
   Escape.safe_string_replace fuel (Some source) (Some find) (Some replace) = copy)
  /\ Escape.safe_string_replace fuel (Some source) (Some find) (Some find) = copy.
Proof.
  intros Hfind Hfuel copy. unfold copy. split.
  - intros Hnone.
    destruct (safe_string_replace_returns source find replace fuel Hfind Hfuel)
      as [c [r [_ [Hr [_ [_ Hres]]]]]].
    rewrite (replace_loop_absent find replace source fuel Hfuel Hnone) in Hr.
    injection Hr as <-. exact Hres.
  - destruct (safe_string_replace_returns source find find fuel Hfind Hfuel)
      as [c [r [_ [Hr [_ [_ Hres]]]]]].
    rewrite (replace_loop_identity find Hfind (String.length source) source fuel) in Hr by lia.
    injection Hr as <-. exact Hres.
Qed.

Lemma replace_without_effect_witness :
  Escape.safe_string_replace 20 (Some "^\w+$"%string) (Some "\\w"%string) (Some "[a-z]"%string)
  = Some (Escape.Replaced "^\w+$").
Proof.
  destruct (replace_without_effect "^\w+$" "\\w" "[a-z]" 20) as [Habsent _].
  - discriminate.
  - simpl. lia.
  - apply Habsent. reflexivity.
Defined.

(** ** The automaton proof of concept *)

Lemma numbered_ids (specs : list (string * bool)) :
  forall first, map Automaton.id (Poc.numbered first specs) = seq first (length specs).
Proof.
  induction specs as [|[p f] rest IH]; intros first; simpl; [|rewrite IH]; reflexivity.
Qed.

Lemma numbered_app (l1 l2 : list (string * bool)) :
  forall first,
    Poc.numbered first (l1 ++ l2) = Poc.numbered first l1 ++ Poc.numbered (first + length l1) l2.
Proof.
  induction l1 as [|[p f] rest IH]; intros first; simpl.
  - now rewrite Nat.add_0_r.
  - rewrite IH. do 3 f_equal. lia.
Qed.

Lemma numbered_length (specs : list (string * bool)) :
  forall first, length (Poc.numbered first specs) = length specs.
Proof.
  induction specs as [|[p f] rest IH]; intros first; simpl; [|rewrite IH]; reflexivity.
Qed.

(** What the calls of [automaton_add_state] keep true, and what they add. *)
Lemma add_states_from (specs : list (option string * bool)) :
  forall (a : Poc.RegexAutomaton) (c : nat),
    Poc.initial_state a = hd_error (Poc.states a) ->
    Poc.current_state a = Poc.initial_state a ->
    Pipeline.least_capacity (length (Poc.states a)) (Poc.state_capacity a) ->
    let a' := fst (Poc.add_states specs a c) in
    Poc.states a' = Poc.states a ++ Poc.numbered c (Poc.accepted specs)
    /\ snd (Poc.add_states specs a c) = c + length (Poc.accepted specs)
    /\ Poc.initial_state a' = hd_error (Poc.states a')
    /\ Poc.current_state a' = Poc.initial_state a'
    /\ Pipeline.least_capacity (length (Poc.states a')) (Poc.state_capacity a')
    /\ Poc.transitions a' = Poc.transitions a
    /\ Poc.transition_capacity a' = Poc.transition_capacity a.
Proof.
  induction specs as [|[[p|] f] rest IH]; intros a c Hinit Hcur Hcap; cbn [Poc.add_states].
  - cbn [fst snd Poc.accepted Poc.numbered length]. rewrite app_nil_r, Nat.add_0_r.
    repeat split; assumption.
  - cbn [Poc.automaton_add_state Poc.state_create Poc.generate_id Poc.accepted Poc.numbered
         length].
    match goal with
    | |- context [Poc.add_states rest ?x (S c)] => set (a1 := x)
    end.
    assert (Poc.states a1
            = Poc.states a
              ++ [ {| Automaton.pattern := p; Automaton.is_final := f; Automaton.id := c |} ])
      as Hs1 by reflexivity.
    assert (Poc.transitions a1 = Poc.transitions a) as Ht1 by reflexivity.
    assert (Poc.transition_capacity a1 = Poc.transition_capacity a) as Htc1 by reflexivity.
    assert (Poc.initial_state a1 = hd_error (Poc.states a1)) as Hi1.
    { rewrite Hs1. unfold a1. cbn [Poc.initial_state].
      destruct (Poc.initial_state a) as [first|] eqn:Hfirst.
      - destruct (Poc.states a); [discriminate | exact Hinit].
      - destruct (Poc.states a); [reflexivity | discriminate]. }
    assert (Poc.current_state a1 = Poc.initial_state a1) as Hc1.
    { unfold a1. cbn [Poc.current_state Poc.initial_state].
      destruct (Poc.initial_state a); [assumption | reflexivity]. }
    assert (Pipeline.least_capacity (length (Poc.states a1)) (Poc.state_capacity a1)) as Hl1.
    { rewrite Hs1, length_app. unfold a1. cbn [length Poc.state_capacity].
      rewrite Nat.add_1_r. now apply least_capacity_push. }
    clearbody a1.
    destruct (IH a1 (S c) Hi1 Hc1 Hl1) as [Hst [Hnext [Hinit' [Hcur' [Hcap' [Htr Htc]]]]]].
    cbv zeta in *.
    repeat split; try assumption.
    + rewrite Hst, Hs1, <- app_assoc. reflexivity.
    + lia.
    + congruence.
    + congruence.
  - cbn [Poc.automaton_add_state Poc.accepted]. now apply IH.
Qed.

(** X24: states added to a fresh automaton, whatever the patterns and
    flags, NULL patterns being refused without any effect: the states are
    kept in the order of the calls and numbered consecutively from the
    value of the counter, so that their identifiers are pairwise
    different; the initial state is the first state added and stays so,
    the current state is the initial state, the array has the least
    capacity [10 * 2 ^ k] that holds the states, and no transition is
    created. *)
Theorem add_states_numbered (specs : list (option string * bool)) (c : nat) :
  let a := fst (Poc.add_states specs Poc.automaton_create c) in
  Poc.states a = Poc.numbered c (Poc.accepted specs)
  /\ snd (Poc.add_states specs Poc.automaton_create c) = c + length (Poc.accepted specs)
  /\ map Automaton.id (Poc.states a) = seq c (length (Poc.accepted specs))
  /\ NoDup (map Automaton.id (Poc.states a))
  /\ Poc.initial_state a = hd_error (Poc.states a)
  /\ Poc.current_state a = Poc.initial_state a
  /\ Pipeline.least_capacity (length (Poc.states a)) (Poc.state_capacity a)
  /\ Poc.transitions a = [].
Proof.
  intros a. unfold a.
  destruct (add_states_from specs Poc.automaton_create c)
    as [Hst [Hnext [Hinit [Hcur [Hcap [Htr _]]]]]];
    [reflexivity | reflexivity | exact least_capacity_initial |].
  cbn [Poc.states Poc.automaton_create app] in Hst.
  rewrite Hst in *. rewrite numbered_ids.
  repeat split; try assumption. apply seq_NoDup.
Qed.

Section AutomatonFacts.
Context {L : RegexLib}.

Lemma first_matching_spec (sts : list Automaton.State) (input : string) :
  match Poc.first_matching sts input with
  | Some st =>
      exists pre post,
        sts = pre ++ st :: post
        /\ Forall (fun s => Automaton.state_matches (Some s) (Some input) = false) pre
        /\ Automaton.state_matches (Some st) (Some input) = true
  | None => Forall (fun s => Automaton.state_matches (Some s) (Some input) = false) sts
  end.
Proof.
  induction sts as [|s rest IH]; cbn [Poc.first_matching]; [constructor|].
  destruct (Automaton.state_matches (Some s) (Some input)) eqn:Hs.
  - exists [], rest. repeat split; [constructor | assumption].
  - destruct (Poc.first_matching rest input) as [st|].
    + destruct IH as [pre [post [-> [Hpre Hst]]]].
      exists (s :: pre), post. repeat split; [constructor|]; assumption.
    + constructor; assumption.
Qed.

Lemma get_next_state_result (a : Poc.RegexAutomaton) (input : string) :
  Poc.current_state a <> None ->
  fst (Poc.automaton_get_next_state a (Some input)) = Poc.first_matching (Poc.states a) input.
Proof.
  unfold Poc.automaton_get_next_state. destruct (Poc.current_state a); [|congruence].
  intros _. now destruct (Poc.first_matching (Poc.states a) input).
Qed.

Lemma process_tokens_keeps (tokens : list string) :
  forall g : Poc.IRGenerator,
    let g' := snd (Poc.process_tokens g tokens) in
    Poc.nodes g' = Poc.nodes g
    /\ Poc.node_capacity g' = Poc.node_capacity g
    /\ Poc.states (Poc.automaton g') = Poc.states (Poc.automaton g)
    /\ Poc.transitions (Poc.automaton g') = Poc.transitions (Poc.automaton g)
    /\ Poc.initial_state (Poc.automaton g') = Poc.initial_state (Poc.automaton g).
Proof.
  induction tokens as [|token rest IH]; intros g; cbn [Poc.process_tokens].
  - cbn [snd]. repeat split.
  - destruct (Poc.ir_generator_process_token g (Some token)) as [node g1] eqn:E1.
    specialize (IH g1). destruct (Poc.process_tokens g1 rest) as [lines g2].
    cbn [snd] in *. destruct IH as [Hn [Hc [Hs [Ht Hi]]]].
    assert (Poc.nodes g1 = Poc.nodes g
            /\ Poc.node_capacity g1 = Poc.node_capacity g
            /\ Poc.states (Poc.automaton g1) = Poc.states (Poc.automaton g)
            /\ Poc.transitions (Poc.automaton g1) = Poc.transitions (Poc.automaton g)
            /\ Poc.initial_state (Poc.automaton g1) = Poc.initial_state (Poc.automaton g))
      as [Hn1 [Hc1 [Hs1 [Ht1 Hi1]]]].
    { unfold Poc.ir_generator_process_token, Poc.automaton_get_next_state in E1.
      destruct (Poc.current_state (Poc.automaton g));
        [destruct (Poc.first_matching (Poc.states (Poc.automaton g)) token)|];
        injection E1 as _ <-; repeat split. }
    repeat split; congruence.
Qed.

End AutomatonFacts.

(** X25: [automaton_get_next_state] on an automaton that has a current
    state returns the earliest state, in the order of addition, whose
    pattern matches the input, and makes it the current state; when no
    state matches it returns NULL and leaves the automaton as it was.  The
    choice depends on the states alone: neither the current state nor the
    transitions are consulted. *)
Theorem next_state_is_first_match (L : RegexLib) (a : Poc.RegexAutomaton) (input : string) :
  Poc.current_state a <> None ->
  let result := Poc.automaton_get_next_state a (Some input) in
  match fst result with
  | Some st =>
      (exists pre post,
          Poc.states a = pre ++ st :: post
          /\ Forall (fun s => Automaton.state_matches (Some s) (Some input) = false) pre
          /\ Automaton.state_matches (Some st) (Some input) = true)
      /\ Poc.current_state (snd result) = Some st
      /\ Poc.states (snd result) = Poc.states a
      /\ Poc.transitions (snd result) = Poc.transitions a
      /\ Poc.initial_state (snd result) = Poc.initial_state a
  | None =>
      Forall (fun s => Automaton.state_matches (Some s) (Some input) = false) (Poc.states a)
      /\ snd result = a
  end
  /\ forall a' : Poc.RegexAutomaton,
      Poc.states a' = Poc.states a -> Poc.current_state a' <> None ->
      fst (Poc.automaton_get_next_state a' (Some input)) = fst result.
Proof.
  intros Hcur result. split.
  - unfold result, Poc.automaton_get_next_state.
    destruct (Poc.current_state a); [|congruence].
    pose proof (first_matching_spec (Poc.states a) input) as Hspec.
    destruct (Poc.first_matching (Poc.states a) input) as [st|]; cbn [fst snd].
    + repeat split. exact Hspec.
    + split; [exact Hspec | reflexivity].
  - intros a' Hstates Hcur'. unfold result.
    rewrite !get_next_state_result by assumption. now rewrite Hstates.
Qed.

Lemma next_state_is_first_match_witness :
  let a := fst (Poc.add_states [ (Some "^[a-z]+$"%string, false);
                                 (Some "^[a-z0-9]+$"%string, false) ]
                  Poc.automaton_create 1) in
  Poc.current_state (snd (Poc.automaton_get_next_state (L := Posix.lib) a (Some "x7"%string)))
  = Some {| Automaton.pattern := "^[a-z0-9]+$"; Automaton.is_final := false; Automaton.id := 2 |}.
Proof.
  intros a.
  destruct (next_state_is_first_match Posix.lib a "x7") as [Hfirst _].
  - discriminate.
  - destruct (fst (Poc.automaton_get_next_state (L := Posix.lib) a (Some "x7"%string)))
      as [st|] eqn:E.
    + destruct Hfirst as [_ [Hcurrent _]]. rewrite Hcurrent.
      vm_compute in E. now injection E as <-.
    + vm_compute in E. discriminate.
Defined.

(** X26: the IR generator never stores the nodes it makes: after any
    sequence of tokens its node array is as it was (empty after
    [ir_generator_create]), and the states, transitions and initial state
    of its automaton are untouched.  The node returned for a token, when
    the automaton has a current state, carries the token as value and the
    pattern of the earliest matching state as type; no node is returned
    when no state matches. *)
Theorem generator_stores_no_node (L : RegexLib) :
  (forall (a : Poc.RegexAutomaton) (g : Poc.IRGenerator) (tokens : list string),
      Poc.ir_generator_create (Some a) = Some g ->
      Poc.nodes (snd (Poc.process_tokens g tokens)) = []
      /\ Poc.states (Poc.automaton (snd (Poc.process_tokens g tokens))) = Poc.states a
      /\ Poc.transitions (Poc.automaton (snd (Poc.process_tokens g tokens)))
         = Poc.transitions a
      /\ Poc.initial_state (Poc.automaton (snd (Poc.process_tokens g tokens)))
         = Poc.initial_state a)
  /\ (forall (g : Poc.IRGenerator) (token : string),
      Poc.current_state (Poc.automaton g) <> None ->
      fst (Poc.ir_generator_process_token g (Some token))
      = match Poc.first_matching (Poc.states (Poc.automaton g)) token with
        | Some st => Some {| Poc.type := Automaton.pattern st; Poc.value := token |}
        | None => None
        end
      /\ Poc.current_state (Poc.automaton (snd (Poc.ir_generator_process_token g (Some token))))
         = match Poc.first_matching (Poc.states (Poc.automaton g)) token with
           | Some st => Some st
           | None => Poc.current_state (Poc.automaton g)
           end).
Proof.
  split.
  - intros a g tokens [= <-].
    destruct (process_tokens_keeps tokens
                {| Poc.automaton := a; Poc.nodes := []; Poc.node_capacity := 10 |})
      as [Hn [_ [Hs [Ht Hi]]]].
    repeat split; assumption.
  - intros g token Hcur. unfold Poc.ir_generator_process_token, Poc.automaton_get_next_state.
    destruct (Poc.current_state (Poc.automaton g)) as [cur|] eqn:Ecur; [|congruence].
    destruct (Poc.first_matching (Poc.states (Poc.automaton g)) token);
      cbn [fst snd Poc.automaton Poc.current_state]; split; try reflexivity. exact Ecur.
Qed.

Lemma generator_stores_no_node_witness :
  let a := fst (Poc.add_states [ (Some "^[a-z]+$"%string, false);
                                 (Some "^[0-9]+$"%string, false) ]
                  Poc.automaton_create 1) in
  Poc.nodes
    (snd (Poc.process_tokens (L := Posix.lib)
            {| Poc.automaton := a; Poc.nodes := []; Poc.node_capacity := 10 |}
            ["x"; "+"; "123"]%string)) = [].
Proof.
  intros a. destruct (generator_stores_no_node Posix.lib) as [Hkeep _].
  apply (Hkeep a {| Poc.automaton := a; Poc.nodes := []; Poc.node_capacity := 10 |}
           ["x"; "+"; "123"]%string).
  reflexivity.
Defined.

(** X27: the if-else chain of [demonstrate_librift_tokenization] makes
    the choice of [automaton_get_next_state] on an automaton that holds the
    identifier, number and operator states in that order: it prints
    Unknown exactly when no next state is found, and otherwise the kind of
    the state that is found. *)
Theorem demonstration_is_first_match (L : RegexLib) (a : Poc.RegexAutomaton)
  (identifier number operator : Automaton.State) (token : string) :
  Poc.states a = [identifier; number; operator] ->
  Poc.current_state a <> None ->
  match fst (Poc.automaton_get_next_state a (Some token)) with
  | None => Poc.demonstrated_type identifier number operator token = "Unknown"%string
  | Some st =>
      (Poc.demonstrated_type identifier number operator token = "Identifier"%string
       /\ st = identifier)
      \/ (Poc.demonstrated_type identifier number operator token = "Number"%string
          /\ st = number)
      \/ (Poc.demonstrated_type identifier number operator token = "Operator"%string
          /\ st = operator)
  end.
Proof.
  intros Hstates Hcur. rewrite get_next_state_result by assumption. rewrite Hstates.
  unfold Poc.demonstrated_type. cbn [Poc.first_matching].
  destruct (Automaton.state_matches (Some identifier) (Some token)); [now left|].
  destruct (Automaton.state_matches (Some number) (Some token)); [right; now left|].
  destruct (Automaton.state_matches (Some operator) (Some token)); [right; now right|].
  reflexivity.
Qed.

Lemma demonstration_is_first_match_witness :
  Poc.demonstrated_type (L := Posix.lib)
    {| Automaton.pattern := "^[a-z]+$"; Automaton.is_final := false; Automaton.id := 1 |}
    {| Automaton.pattern := "^[0-9]+$"; Automaton.is_final := false; Automaton.id := 2 |}
    {| Automaton.pattern := "^[-+]$"; Automaton.is_final := false; Automaton.id := 3 |}
    "42" = "Number"%string.
Proof.
  pose proof (demonstration_is_first_match Posix.lib
                (fst (Poc.add_states [ (Some "^[a-z]+$"%string, false);
                                       (Some "^[0-9]+$"%string, false);
                                       (Some "^[-+]$"%string, false) ]
                        Poc.automaton_create 1))
                {| Automaton.pattern := "^[a-z]+$"; Automaton.is_final := false;
                   Automaton.id := 1 |}
                {| Automaton.pattern := "^[0-9]+$"; Automaton.is_final := false;
                   Automaton.id := 2 |}
                {| Automaton.pattern := "^[-+]$"; Automaton.is_final := false;
                   Automaton.id := 3 |}
                "42" eq_refl) as H.
  match type of H with
  | _ -> match ?x with _ => _ end =>
      assert (x = Some {| Automaton.pattern := "^[0-9]+$"; Automaton.is_final := false;
                          Automaton.id := 2 |}) as E by reflexivity;
      rewrite E in H
  end.
  destruct H as [[_ Habs]|[[Hnum _]|[_ Habs]]]; [discriminate | discriminate | exact Hnum | discriminate].
Defined.

(** ** Closed instances of the tokenizer and governance properties *)

Lemma tokenize_fixed_overflows_witness :
  rift_tokenize_fixed (L := Posix.lib) default_tokenizer "a b c d e f g h i j k l" = None
  /\ rift_tokenize_fixed (L := Posix.lib) default_tokenizer "a b"
     = Some (rift_tokenize (L := Posix.lib) default_tokenizer "a b").
Proof.
  split.
  - apply (tokenize_fixed_overflows Posix.lib default_tokenizer "a b c d e f g h i j k l").
    vm_compute. lia.
  - destruct (rift_tokenize_fixed (L := Posix.lib) default_tokenizer "a b") as [stream|] eqn:E.
    + destruct (tokenize_fixed_overflows Posix.lib default_tokenizer "a b") as [_ Hsame].
      destruct (Hsame stream E) as [-> _]. reflexivity.
    + vm_compute in E. discriminate.
Defined.

Lemma tokenizer_create_needs_intentions_witness :
  rift_tokenizer_create
    {| gov_entries :=
         [ {| entry_pattern := "^[a-z]+$"; entry_intention := "IDENTIFIER_RECOGNITION";
              entry_sp_alignment := "STAGE_0_TOKENIZER" |};
           {| entry_pattern := "^[0-9]+$"; entry_intention := "NUMBER_RECOGNITION";
              entry_sp_alignment := "STAGE_0_TOKENIZER" |} ];
       gov_capacity := 10 |} = None.
Proof.
  apply tokenizer_create_needs_intentions.
  exists "OPERATOR_RECOGNITION"%string. split.
  - simpl. auto.
  - repeat constructor; discriminate.
Defined.

Lemma governance_loads_witness :
  StageGov.load_stages [3; 7; 0; 3; -1]%Z StageGov.governance_system_create
  = StageGov.load_stages [0; 3]%Z StageGov.governance_system_create.
Proof.
  destruct (governance_loads [3; 7; 0; 3; -1]%Z 0%Z) as [-> _].
  destruct (governance_loads [0; 3]%Z 0%Z) as [-> _].
  change [3; 7; 0; 3; -1]%Z with ([3; 7; 0; 3] ++ [-1])%Z.
  destruct (governance_loads [3; 7; 0; 3]%Z (-1)%Z) as [_ [_ ->]]; [|right; left; lia].
  change [3; 7; 0; 3]%Z with ([3; 7; 0] ++ [3])%Z.
  destruct (governance_loads [3; 7; 0]%Z 3%Z) as [_ [_ ->]]; [|left; reflexivity].
  reflexivity.
Defined.

(** ** The escape processor of the framework *)

(** X28: none of the nine mappings that
    [create_obinexus_escape_processor] installs has an empty source
    sequence: on that processor [process_escape_pattern] terminates for
    every pattern and every context, and what it returns is flagged
    successful and counts at most nine transformations. *)
Theorem obinexus_processor_terminates (input : string) (context : option string) :
  length (Escape.mappings Escape.create_obinexus_escape_processor) = 9
  /\ Escape.capacity Escape.create_obinexus_escape_processor = 20
  /\ exists fuel outcome,
       (forall fuel', fuel <= fuel' ->
          Escape.process_escape_pattern fuel' Escape.create_obinexus_escape_processor
            input context = Some outcome)
       /\ match outcome with
          | StageGov.Returned result =>
              Escape.transformation_successful result = true
              /\ (0 <= Escape.transformations_applied result <= 9)%Z
          | StageGov.Undefined => True
          end.
Proof.
  split; [reflexivity|]. split; [reflexivity|].
  destruct (process_loop_terminates context
              (Escape.mappings Escape.create_obinexus_escape_processor))
    with (state := {| Escape.processed_pattern := input;
                      Escape.transformation_successful := true;
                      Escape.fault_tokens_used := EmptyString;
                      Escape.transformations_applied := 0 |})
    as [fuel [outcome Hrun]].
  { vm_compute. repeat constructor; discriminate. }
  exists fuel, outcome. split; [exact Hrun|].
  destruct outcome as [result|]; [|exact I].
  pose proof (Hrun fuel (Nat.le_refl _)) as Hresult.
  apply process_loop_never_faults in Hresult.
  cbn [Escape.transformation_successful Escape.transformations_applied] in Hresult.
  destruct Hresult as [Hok [_ Hcount]]. split; [exact Hok|].
  pose proof (filter_length_le (Escape.applies context)
                (Escape.mappings Escape.create_obinexus_escape_processor)) as Hle.
  change (length (Escape.mappings Escape.create_obinexus_escape_processor)) with 9 in Hle.
  lia.
Qed.

(** ** What the parser reads of a token *)

Section ReadsFacts.

Lemma alike_current (p q : rift_parser_t) :
  Reads.alike p q ->
  option_map Reads.kind_and_text (fst (current_token p))
  = option_map Reads.kind_and_text (fst (current_token q))
  /\ stream_count (input_tokens p) = stream_count (input_tokens q).
Proof.
  intros [Hpos Htoks]. unfold current_token, stream_count. cbn [fst]. split.
  - rewrite <- !nth_error_map, Hpos, Htoks. reflexivity.
  - rewrite <- (length_map Reads.kind_and_text (tokens (input_tokens p))), Htoks.
    apply length_map.
Qed.

Lemma alike_advance (p q : rift_parser_t) :
  Reads.alike p q -> Reads.alike (snd (advance_token p)) (snd (advance_token q)).
Proof.
  intros H. destruct (alike_current p q H) as [_ Hcount]. destruct H as [Hpos Htoks].
  unfold advance_token. cbn [snd]. rewrite Hpos, Hcount.
  destruct (Nat.ltb (current_position q) (stream_count (input_tokens q)));
    split; cbn [current_position input_tokens]; congruence.
Qed.

Lemma alike_remaining (p q : rift_parser_t) :
  Reads.alike p q -> remaining p = remaining q.
Proof.
  intros H. destruct (alike_current p q H) as [_ Hcount]. destruct H as [Hpos _].
  unfold remaining. congruence.
Qed.

Lemma alike_operator (a b : string) (p q : rift_parser_t) :
  Reads.alike p q ->
  operator_among a b (fst (current_token p)) = operator_among a b (fst (current_token q))
  /\ (operator_among a b (fst (current_token p)) = true ->
      op_text (fst (current_token p)) = op_text (fst (current_token q))).
Proof.
  intros H. destruct (alike_current p q H) as [Hcur _].
  destruct (fst (current_token p)) as [t|], (fst (current_token q)) as [u|];
    try discriminate; [|split; [reflexivity | discriminate]].
  injection Hcur as Hty Hval. unfold operator_among, op_text. rewrite Hty, Hval. now split.
Qed.

Lemma alike_factor (p q : rift_parser_t) :
  Reads.alike p q ->
  fst (parse_factor p) = fst (parse_factor q)
  /\ Reads.alike (snd (parse_factor p)) (snd (parse_factor q)).
Proof.
  intros H. destruct (alike_current p q H) as [Hcur _].
  pose proof (alike_advance p q H) as Hadv.
  unfold parse_factor, bind.
  change (current_token p) with (fst (current_token p), p).
  change (current_token q) with (fst (current_token q), q).
  destruct (fst (current_token p)) as [t|], (fst (current_token q)) as [u|];
    try discriminate; [|now split].
  injection Hcur as Hty Hval. rewrite Hty, Hval.
  destruct (token_type u); unfold ret; cbn [fst snd]; try (now split);
    destruct (advance_token p) as [[] p'], (advance_token q) as [[] q']; now split.
Qed.

Lemma alike_term_loop (fuel : nat) :
  forall (left : option ast_node_t) (p q : rift_parser_t),
    Reads.alike p q ->
    fst (parse_term_loop fuel left p) = fst (parse_term_loop fuel left q)
    /\ Reads.alike (snd (parse_term_loop fuel left p)) (snd (parse_term_loop fuel left q)).
Proof.
  induction fuel as [|k IH]; intros left p q H; [now split|].
  cbn [parse_term_loop]. unfold bind.
  change (current_token p) with (fst (current_token p), p).
  change (current_token q) with (fst (current_token q), q).
  destruct (alike_operator "*" "/" p q H) as [Hop Htext]. rewrite <- Hop.
  destruct (operator_among "*" "/" (fst (current_token p))); [|now split].
  rewrite <- (Htext eq_refl).
  pose proof (alike_advance p q H) as Hadv.
  destruct (advance_token p) as [[] p1], (advance_token q) as [[] q1]. cbn [snd] in Hadv.
  destruct (alike_factor p1 q1 Hadv) as [Hf Hnext].
  destruct (parse_factor p1) as [right p2], (parse_factor q1) as [right' q2].
  cbn [fst snd] in Hf, Hnext. subst right'. now apply IH.
Qed.

Lemma alike_term (p q : rift_parser_t) :
  Reads.alike p q ->
  fst (parse_term p) = fst (parse_term q)
  /\ Reads.alike (snd (parse_term p)) (snd (parse_term q)).
Proof.
  intros H. unfold parse_term, bind.
  destruct (alike_factor p q H) as [Hf Hnext].
  destruct (parse_factor p) as [left p1], (parse_factor q) as [left' q1].
  cbn [fst snd] in Hf, Hnext. subst left'.
  rewrite (alike_remaining p1 q1 Hnext). now apply alike_term_loop.
Qed.

Lemma alike_expression_loop (fuel : nat) :
  forall (left : option ast_node_t) (p q : rift_parser_t),
    Reads.alike p q ->
    fst (parse_expression_loop fuel left p) = fst (parse_expression_loop fuel left q)
    /\ Reads.alike (snd (parse_expression_loop fuel left p))
                   (snd (parse_expression_loop fuel left q)).
Proof.
  induction fuel as [|k IH]; intros left p q H; [now split|].
  cbn [parse_expression_loop]. unfold bind.
  change (current_token p) with (fst (current_token p), p).
  change (current_token q) with (fst (current_token q), q).
  destruct (alike_operator "+" "-" p q H) as [Hop Htext]. rewrite <- Hop.
  destruct (operator_among "+" "-" (fst (current_token p))); [|now split].
  rewrite <- (Htext eq_refl).
  pose proof (alike_advance p q H) as Hadv.
  destruct (advance_token p) as [[] p1], (advance_token q) as [[] q1]. cbn [snd] in Hadv.
  destruct (alike_term p1 q1 Hadv) as [Hf Hnext].
  destruct (parse_term p1) as [right p2], (parse_term q1) as [right' q2].
  cbn [fst snd] in Hf, Hnext. subst right'. now apply IH.
Qed.

End ReadsFacts.

(** X29: the parser reads nothing of a token but its kind and its text:
    two streams whose tokens agree on these, whatever their lines, columns
    and capacities, and whatever the governance of the parsers, give the
    same tree and leave the cursor at the same position. *)
Theorem parse_reads_kind_and_text (parser parser' : rift_parser_t) (toks toks' : token_stream_t) :
  map Reads.kind_and_text (tokens toks) = map Reads.kind_and_text (tokens toks') ->
  fst (rift_parse parser toks) = fst (rift_parse parser' toks')
  /\ current_position (snd (rift_parse parser toks))
     = current_position (snd (rift_parse parser' toks')).
Proof.
  intros Hsame. unfold rift_parse, parse_expression, bind.
  assert (Reads.alike
            {| input_tokens := toks; current_position := 0;
               parser_governance := parser_governance parser |}
            {| input_tokens := toks'; current_position := 0;
               parser_governance := parser_governance parser' |}) as H0
      by (split; [reflexivity | exact Hsame]).
  destruct (alike_term _ _ H0) as [Hf Hnext].
  destruct (parse_term _) as [left p1], (parse_term _) as [left' q1].
  cbn [fst snd] in Hf, Hnext. subst left'.
  rewrite (alike_remaining p1 q1 Hnext).
  destruct (alike_expression_loop (remaining q1) left p1 q1 Hnext) as [Htree [Hpos _]].
  split; assumption.
Qed.

Lemma parse_reads_kind_and_text_witness :
  fst (rift_parse (rift_parser_create rift_load_governance)
         (stream_of [ token TOKEN_IDENTIFIER "a" 1; token TOKEN_OPERATOR "+" 2;
                      token TOKEN_NUMBER "1" 3 ] 10))
  = fst (rift_parse (rift_parser_create rift_load_governance)
           (stream_of [ token TOKEN_IDENTIFIER "a" 7; token TOKEN_OPERATOR "+" 7;
                        token TOKEN_NUMBER "1" 0 ] 3)).
Proof.
  apply (parse_reads_kind_and_text (rift_parser_create rift_load_governance)
           (rift_parser_create rift_load_governance)
           (stream_of [ token TOKEN_IDENTIFIER "a" 1; token TOKEN_OPERATOR "+" 2;
                        token TOKEN_NUMBER "1" 3 ] 10)
           (stream_of [ token TOKEN_IDENTIFIER "a" 7; token TOKEN_OPERATOR "+" 7;
                        token TOKEN_NUMBER "1" 0 ] 3)).
  reflexivity.
Defined.
